(** * symlink-manager: the reconciliation core, embedded and verified

    A shallow embedding of the entity store ([database/repository.py]),
    the file-name parser ([services/parser.py]), the identity resolver
    ([services/resolver.py]), the two scanners ([scanners/]) and the
    collision-versioning helper ([utils/utils.py]), followed by the
    properties the specification states about them; then the naming of the
    library ([media/]), the category directories, the resolution pass, the
    initial scan and the linking loop ([__main__.py]), the configuration
    ([config/config.py]) and the symlinker ([services/symlinker.py]), with
    further properties of the code.

    Python objects are attribute dictionaries, so an entity is a finite map
    from attribute names to dynamically typed values; the session is a record
    of three tables keyed by primary key.  Relationship attributes
    ([MediaFile.torrent], [MediaFile.media], [Torrent.files]) are read through
    the foreign keys they are declared over. *)

From Stdlib Require Import Ascii.
From stdpp Require Import gmap strings list fin_maps pretty.

Open Scope Z_scope.

(** ** Python values *)

Module Py.

(** The values that flow through the attributes and the parser results. *)
#[warnings="-register-all"]
Inductive val :=
| PNone
| PBool (b : bool)
| PInt (z : Z)
| PStr (s : string)
| PList (l : list val).

(** Python truth value testing: [None], [False], zero, the empty string
    and the empty list are false, everything else is true. *)
Definition truthy (v : val) : bool :=
  match v with
  | PNone => false
  | PBool b => b
  | PInt z => negb (z =? 0)
  | PStr s => negb (String.eqb s EmptyString)
  | PList l => match l with [] => false | _ => true end
  end.

(** [v is None] *)
Definition is_none (v : val) : bool :=
  match v with PNone => true | _ => false end.

(** [a or b] returns its first operand when it is true, else its second. *)
Definition or_ (a b : val) : val := if truthy a then a else b.

(** [str(v)].  The sources apply [str] to paths, titles, years and [None];
    a list is not spelled out element by element here. *)
Definition str (v : val) : string :=
  match v with
  | PNone => "None"
  | PBool true => "True"
  | PBool false => "False"
  | PInt z => pretty z
  | PStr s => s
  | PList _ => "[...]"
  end.

(** SQL equality of a column with a string: NULL equals nothing. *)
Definition eq_str (v : val) (s : string) : bool :=
  match v with PStr s' => bool_decide (s' = s) | _ => false end.

(** SQL equality of a column with an integer. *)
Definition eq_int (v : val) (z : Z) : bool :=
  match v with PInt z' => bool_decide (z' = z) | _ => false end.

End Py.

Export Py.

(** ** Entities and the session *)

(** An entity is its attribute dictionary. *)
Abbreviation entity := (gmap string val).

(** [getattr(entity, key, None)] *)
Definition getattr (e : entity) (key : string) : val :=
  default PNone (e !! key).

(** [setattr(entity, key, value)] *)
Definition setattr (e : entity) (key : string) (value : val) : entity :=
  <[key := value]> e.

(** The session: one table per mapped class, keyed by primary key. *)
Record store := Store {
  media : gmap string entity;
  torrents : gmap Z entity;
  mediafiles : gmap Z entity
}.

Definition empty_store : store := Store ∅ ∅ ∅.

(** A reference to a persistent object of the session. *)
Inductive ref :=
| MediaRef (id : string)
| TorrentRef (id : Z)
| FileRef (id : Z).

Definition deref (st : store) (r : ref) : option entity :=
  match r with
  | MediaRef id => media st !! id
  | TorrentRef id => torrents st !! id
  | FileRef id => mediafiles st !! id
  end.

(** [entity.torrent]: the row the [torrent_id] foreign key points at. *)
Definition torrent_of (st : store) (f : entity) : option (Z * entity) :=
  match getattr f "torrent_id" with
  | PInt tid => (λ t, (tid, t)) <$> torrents st !! tid
  | _ => None
  end.

(** [entity.media]: the row the [media_id] foreign key points at. *)
Definition media_of (st : store) (e : entity) : option entity :=
  match getattr e "media_id" with
  | PStr mid => media st !! mid
  | _ => None
  end.

(** [torrent.files] membership: the files whose [torrent_id] is this key. *)
Definition in_torrent (tid : Z) (f : entity) : bool :=
  eq_int (getattr f "torrent_id") tid.

(** ** EntityHandler *)

Module EntityHandler.

(** One iteration of the loop of [update]. *)
Definition update_step (key : string) (value : val) (e : entity) : entity :=
  if is_none (getattr e key) then setattr e key value else e.

(** [EntityHandler.update]: the loop over [kwargs.items()]. *)
Definition update (e : entity) (kwargs : gmap string val) : entity :=
  map_fold update_step e kwargs.

(** [EntityHandler._extract_attributes] *)
Definition _extract_attributes (e : entity) : gmap string val :=
  filter (λ kv, negb (String.prefix "_" kv.1) && negb (is_none kv.2) = true) e.

End EntityHandler.

(** ** Queries *)

(** [query.filter(cond).first()]: a row satisfying the condition, when
    there is one. *)
Definition first_match `{Countable K} (cond : entity → bool)
    (table : gmap K entity) : option (K * entity) :=
  head (filter (λ row, cond row.2 = true) (map_to_list table)).

(** The key the next flushed row of an autoincrement table receives. *)
Definition fresh_key (table : gmap Z entity) : Z :=
  1 + map_fold (λ k _ acc, Z.max k acc) 0 table.

(** ** MediaHandler *)

Module MediaHandler.

(** The class of a media entity, named by its polymorphic identity:
    "movie" for [Movie], "show" for [Show], "media" for the base class. *)
Definition model_class (e : entity) : string :=
  match getattr e "media_type" with PStr c => c | _ => "media" end.

(** [isinstance(row, model_class)]: every row is a [Media]; a row is a
    [Movie] or a [Show] by its polymorphic identity. *)
Definition is_instance (row : entity) (model_class : string) : bool :=
  bool_decide (model_class = "media") ||
  eq_str (getattr row "media_type") model_class.

(** [get_by_id] of the handler registered for a class,
    [session.get(model_class, id)]: the row under the identifier when it
    is an instance of the class of the handler. *)
Definition get_by_id (st : store) (model_class : string) (id : string)
    : option entity :=
  match media st !! id with
  | Some row => if is_instance row model_class then Some row else None
  | None => None
  end.

(** The columns of [Media] declared [nullable=False] hold a value. *)
Definition not_null (e : entity) : bool :=
  negb (is_none (getattr e "title")) && negb (is_none (getattr e "year"))
  && negb (is_none (getattr e "anime")).

(** [MediaHandler.add], on the handler of the entity's class ([Repository]
    registers one handler for [Media], one for [Movie] and one for
    [Show]): skip when the handler finds the identifier, else
    [session.add] and [session.flush].  The result is [None] when the
    flush raises an [IntegrityError]: the identifier is the primary key of
    a row the handler's class does not see, or a column declared
    [nullable=False] is [None].  The identifiers of the program are
    strings; [None] is no primary key, and the flush fails on it too. *)
Definition add (st : store) (e : entity) : option store :=
  match getattr e "id" with
  | PStr id =>
      match get_by_id st (model_class e) id with
      | Some existing => Some st
      | None =>
          match media st !! id with
          | Some other => None
          | None =>
              if not_null e
              then Some (Store (<[id := e]> (media st)) (torrents st)
                               (mediafiles st))
              else None
          end
      end
  | _ => None
  end.

End MediaHandler.

(** ** MediaFileHandler *)

Module MediaFileHandler.

(** [MediaFileHandler.get_by_path] *)
Definition get_by_path (st : store) (path : val) : option (Z * entity) :=
  let path_str := Py.str path in
  first_match
    (λ f, eq_str (getattr f "target_path") path_str
          || eq_str (getattr f "symlink_path") path_str)
    (mediafiles st).

(** [MediaFileHandler.update]: the inherited update, then the parent
    torrent's [media_id] is assigned from the file. *)
Definition update (st : store) (id : Z) (kwargs : gmap string val) : store :=
  match mediafiles st !! id with
  | None => st
  | Some e =>
      let e' := EntityHandler.update e kwargs in
      let st1 := Store (media st) (torrents st) (<[id := e']> (mediafiles st)) in
      match torrent_of st1 e', media_of st1 e' with
      | Some (tid, t), Some _ =>
          Store (media st1)
                (<[tid := setattr t "media_id" (getattr e' "media_id")]>
                   (torrents st1))
                (mediafiles st1)
      | _, _ => st1
      end
  end.

(** [MediaFileHandler.add]: returns the session and the key of the row
    the caller gets back. *)
Definition add (st : store) (e : entity) : store * Z :=
  match get_by_path st (or_ (getattr e "symlink_path")
                            (getattr e "target_path")) with
  | Some (id, existing) =>
      let update_attrs := EntityHandler._extract_attributes e in
      (update st id update_attrs, id)
  | None =>
      let id := fresh_key (mediafiles st) in
      (Store (media st) (torrents st)
             (<[id := setattr e "id" (PInt id)]> (mediafiles st)), id)
  end.

End MediaFileHandler.

(** ** TorrentHandler *)

Module TorrentHandler.

(** [TorrentHandler.get_by_path] *)
Definition get_by_path (st : store) (path : val) : option (Z * entity) :=
  let path_str := Py.str path in
  first_match (λ t, eq_str (getattr t "path") path_str) (torrents st).

(** [TorrentHandler.add] *)
Definition add (st : store) (e : entity) : store * Z :=
  match get_by_path st (getattr e "path") with
  | Some (id, existing) => (st, id)
  | None =>
      let id := fresh_key (torrents st) in
      (Store (media st)
             (<[id := setattr e "id" (PInt id)]> (torrents st))
             (mediafiles st), id)
  end.

(** [TorrentHandler._propagate_media_id_to_files] *)
Definition _propagate_media_id_to_files (st : store) (tid : Z) : store :=
  match torrents st !! tid with
  | None => st
  | Some torrent =>
      if negb (truthy (getattr torrent "media_id")) then st
      else
        Store (media st) (torrents st)
              ((λ media_file,
                  if in_torrent tid media_file
                  then setattr media_file "media_id"
                         (getattr torrent "media_id")
                  else media_file) <$> mediafiles st)
  end.

(** [TorrentHandler.update] *)
Definition update (st : store) (id : Z) (kwargs : gmap string val) : store :=
  match torrents st !! id with
  | None => st
  | Some e =>
      let old_media_id := getattr e "media_id" in
      let e' := EntityHandler.update e kwargs in
      let st1 := Store (media st) (<[id := e']> (torrents st)) (mediafiles st) in
      if is_none old_media_id && negb (is_none (getattr e' "media_id"))
      then _propagate_media_id_to_files st1 id
      else st1
  end.

End TorrentHandler.

(** ** Repository *)

Module Repository.

(** [Repository.update]: dispatch on the class of the entity.  [Media],
    [Movie] and [Show] use the inherited [EntityHandler.update]. *)
Definition update (st : store) (r : ref) (kwargs : gmap string val) : store :=
  match r with
  | MediaRef id =>
      match media st !! id with
      | None => st
      | Some e =>
          Store (<[id := EntityHandler.update e kwargs]> (media st))
                (torrents st) (mediafiles st)
      end
  | TorrentRef id => TorrentHandler.update st id kwargs
  | FileRef id => MediaFileHandler.update st id kwargs
  end.

(** [Repository.get_by_id] *)
Definition get_by_id (st : store) (r : ref) : option entity := deref st r.

End Repository.

(** ** The model classes' factory methods *)

(** [MediaFile.create] *)
Definition MediaFile_create (target_path file_size media_id torrent_id
    symlink_path season episode : val) : entity :=
  list_to_map
    [("target_path", target_path); ("file_size", file_size);
     ("media_id", media_id); ("torrent_id", torrent_id);
     ("symlink_path", symlink_path); ("season", season);
     ("episode", episode)].

(** [Torrent(path=..., torrent_title=..., torrent_year=...)] *)
Definition Torrent_new (path torrent_title torrent_year : val) : entity :=
  list_to_map
    [("path", path); ("torrent_title", torrent_title);
     ("torrent_year", torrent_year)].

(** [Media.create]: a [Movie] when [kind == "movie"], else a [Show]. *)
Definition Media_create (kind : string) (imdb_id title year anime : val) : entity :=
  list_to_map
    [("id", imdb_id); ("title", title); ("year", year); ("anime", anime);
     ("media_type", PStr (if bool_decide (kind = "movie") then "movie" else "show"))].

(** ** Sample sessions

    Rows and sessions the properties below are evaluated on. *)

Module Samples.

Definition matrix : entity :=
  Media_create "movie" (PStr "0133093") (PStr "The Matrix") (PInt 1999)
    (PBool false).

Definition thrones : entity :=
  Media_create "show" (PStr "0944947") (PStr "Game of Thrones") (PInt 2011)
    (PBool false).

(** A torrent row, resolved to [media_id] or not yet. *)
Definition torrent_row (media_id : val) : entity :=
  setattr (setattr (Torrent_new (PStr "/downloads/matrix") (PStr "The Matrix")
                      (PInt 1999)) "id" (PInt 1)) "media_id" media_id.

(** A file of torrent 1, linked to [media_id] or not yet. *)
Definition file_row (id : Z) (name : string) (media_id : val) : entity :=
  setattr (MediaFile_create (PStr ("/downloads/matrix/" +:+ name)) (PInt 1500)
             media_id (PInt 1) PNone PNone PNone) "id" (PInt id).

(** An unresolved torrent with one unlinked file and one file that
    already belongs to another media. *)
Definition fanout_session : store :=
  Store {["0133093" := matrix; "0944947" := thrones]}
        {[1 := torrent_row PNone]}
        {[1 := file_row 1 "a.mkv" PNone;
          2 := file_row 2 "b.mkv" (PStr "0944947")]}.

(** A torrent resolved to one media, holding a file linked to another. *)
Definition backfill_session : store :=
  Store {["0133093" := matrix; "0944947" := thrones]}
        {[1 := torrent_row (PStr "0133093")]}
        {[1 := file_row 1 "a.mkv" (PStr "0944947")]}.

(** A session with a single file that has neither media nor season. *)
Definition plain_session : store :=
  Store ∅ ∅ {[1 := file_row 1 "a.mkv" PNone]}.

(** The library's view of the file of [plain_session]: a symbolic link
    in the library that resolves to the file in the torrent. *)
Definition library_link : entity :=
  MediaFile_create (PStr "/downloads/matrix/a.mkv") (PInt 1500)
    (PStr "0133093") PNone
    (PStr "/library/movies/The Matrix (1999) {imdb-tt0133093}/a.mkv")
    PNone PNone.

(** The torrent scanner's view of the same file. *)
Definition torrent_file : entity :=
  MediaFile_create (PStr "/downloads/matrix/a.mkv") (PInt 1500)
    PNone (PInt 1) PNone (PStr "01") (PStr "05").

End Samples.

(** ** Reading the upsert of media files *)

(** The row holds [path] as its target path or as its symlink path: the
    condition of [MediaFileHandler.get_by_path]. *)
Definition holds_path (path : string) (f : entity) : bool :=
  eq_str (getattr f "target_path") path
  || eq_str (getattr f "symlink_path") path.

(** The path [MediaFileHandler.add] looks the incoming entity up by. *)
Definition lookup_path (e : entity) : string :=
  Py.str (or_ (getattr e "symlink_path") (getattr e "target_path")).

(** The two rows share a path: a target or symlink path of the incoming
    entity is the target or symlink path of the stored row. *)
Definition shares_path (e x : entity) : Prop :=
  ∃ p, (getattr e "target_path" = PStr p ∨ getattr e "symlink_path" = PStr p)
       ∧ holds_path p x = true.

(** ** Paths and the file system *)

Module Path.

(** A path, as [pathlib] splits it: the directory and the final
    component. *)
Record t := Make { parent : string; name : string }.

(** [str(path)] *)
Definition str (p : t) : string := parent p +:+ "/" +:+ name p.

(** [directory / filename] *)
Definition div (directory : string) (filename : string) : t :=
  Make directory filename.

(** [name.rfind('.')] *)
Fixpoint rfind_dot (s : string) : option nat :=
  match s with
  | EmptyString => None
  | String c s' =>
      match rfind_dot s' with
      | Some i => Some (S i)
      | None => if Ascii.eqb c "."%char then Some O else None
      end
  end.

(** The test [0 < i < len(name) - 1] of [suffix] and [stem]. *)
Definition splits_at (name : string) (i : nat) : bool :=
  ((0 <? i) && (i <? String.length name - 1))%nat.

(** [path.suffix]: the final component from its last dot on, when that
    dot is neither its first nor its last character. *)
Definition suffix (p : t) : string :=
  match rfind_dot (name p) with
  | Some i =>
      if splits_at (name p) i
      then String.substring i (String.length (name p) - i) (name p)
      else EmptyString
  | None => EmptyString
  end.

(** [path.stem]: the final component without its suffix. *)
Definition stem (p : t) : string :=
  match rfind_dot (name p) with
  | Some i =>
      if splits_at (name p) i then String.substring 0 i (name p) else name p
  | None => name p
  end.

Global Instance eq_dec : EqDecision t.
Proof. solve_decision. Defined.

(** [path.exists()], on the set of the paths that exist.  The test follows
    symbolic links, so a link whose target is missing is not in the set. *)
Definition exists_ (fs : gset string) (p : t) : bool :=
  bool_decide (str p ∈ fs).

End Path.

(** ** utils.get_unique_filename *)

(** What [get_unique_filename] returns: the path, or its final component. *)
Inductive unique_name :=
| FullPath (p : Path.t)
| FileName (s : string).

(** The file name the loop builds for [version]. *)
Definition new_filename (base_name extension : string) (version : nat) : string :=
  base_name +:+ " - v" +:+ pretty version +:+ extension.

(** The [while True] loop, started at [version].  It leaves the loop at the
    first version whose name is free; [fuel] bounds the number of
    iterations. *)
Fixpoint version_loop (fs : gset string) (directory base_name extension : string)
    (return_full_path : bool) (fuel : nat) (version : nat) : option unique_name :=
  match fuel with
  | O => None
  | S fuel' =>
      let new_filename := new_filename base_name extension version in
      let new_path := Path.div directory new_filename in
      if negb (Path.exists_ fs new_path)
      then Some (if return_full_path then FullPath new_path
                 else FileName new_filename)
      else version_loop fs directory base_name extension return_full_path
             fuel' (S version)
  end.

(** [get_unique_filename].  The loop is given one iteration more than the
    file system has entries, which it never uses up
    ([get_unique_filename_total]). *)
Definition get_unique_filename (fs : gset string) (base_path : Path.t)
    (return_full_path : bool) : option unique_name :=
  let path := base_path in
  if negb (Path.exists_ fs path)
  then Some (if return_full_path then FullPath path
             else FileName (Path.name path))
  else
    let directory := Path.parent path in
    let base_name := Path.stem path in
    let extension := Path.suffix path in
    version_loop fs directory base_name extension return_full_path
      (S (size fs)) 2.

(** The path of version [n] of [p]: " - v[n]" between stem and suffix. *)
Definition versioned (p : Path.t) (n : nat) : Path.t :=
  Path.div (Path.parent p) (new_filename (Path.stem p) (Path.suffix p) n).

Module UniqueSamples.

Definition episode : Path.t :=
  Path.Make "/library/shows/Show (2020) {imdb-tt1}"
            "Show (2020) {imdb-tt1} - s01e01.mkv".

(** The directory once the episode has been linked. *)
Definition one_taken : gset string := {[ Path.str episode ]}.

(** The directory once a second file of that name has been linked. *)
Definition two_taken : gset string :=
  {[ Path.str episode;
     "/library/shows/Show (2020) {imdb-tt1}/Show (2020) {imdb-tt1} - s01e01 - v2.mkv" ]}.

End UniqueSamples.

(** ** Exceptions *)

Inductive exn :=
| ValueError (msg : string)
| RuntimeError (msg : string).

(** The outcome of a call that may raise. *)
Inductive outcome (A : Type) :=
| Ok (a : A)
| Raise (e : exn).
Arguments Ok {A} a.
Arguments Raise {A} e.

(** ** Regular expressions

    The fragment of [re] the parser's two patterns are written in, with the
    backtracking order of [re]: the leftmost start, and at each repetition
    the longest run first when greedy and the shortest first when lazy.
    Characters are those of ASCII. *)

Module Re.

(** Character classes. *)
Inductive cls :=
| Any                      (* .   : any character but a line feed *)
| Space                    (* \s *)
| Digit                    (* \d *)
| OneOf (cs : list ascii). (* [...] *)

Definition is_space (a : ascii) : bool :=
  let n := nat_of_ascii a in
  ((9 <=? n) && (n <=? 13) || (28 <=? n) && (n <=? 32))%nat.

Definition is_digit (a : ascii) : bool :=
  let n := nat_of_ascii a in ((48 <=? n) && (n <=? 57))%nat.

Definition is_newline (a : ascii) : bool :=
  (nat_of_ascii a =? 10)%nat.

Definition cls_match (c : cls) (a : ascii) : bool :=
  match c with
  | Any => negb (is_newline a)
  | Space => is_space a
  | Digit => is_digit a
  | OneOf cs => bool_decide (a ∈ cs)
  end.

(** A repetition of a class: [c{min,max}], greedy or lazy. *)
Record rep := Repeat {
  r_cls : cls;
  r_min : nat;
  r_max : option nat;
  r_greedy : bool
}.

Inductive node :=
| Bol                          (* ^ *)
| Eol                          (* $ *)
| Lit (l : list ascii)         (* literal characters *)
| Rep (r : rep)                (* a repetition outside any group *)
| Cap (name : string) (r : rep). (* a group around a repetition *)

(** The values of the groups, the last one closed first. *)
Definition captures := list (string * list ascii).

(** The length of the longest run of [c] at the head of [s]. *)
Fixpoint span (c : cls) (s : list ascii) : nat :=
  match s with
  | a :: s' => if cls_match c a then S (span c s') else O
  | [] => O
  end.

(** The lengths a repetition may take at the head of [s], in the order
    the matcher tries them. *)
Definition counts (r : rep) (s : list ascii) : list nat :=
  let hi := match r_max r with
            | Some m => Nat.min m (span (r_cls r) s)
            | None => span (r_cls r) s
            end in
  let up := seq (r_min r) (S hi - r_min r) in
  if r_greedy r then reverse up else up.

(** The first alternative that succeeds. *)
Fixpoint first_success {A B} (f : A → option B) (l : list A) : option B :=
  match l with
  | [] => None
  | x :: l' => match f x with Some r => Some r | None => first_success f l' end
  end.

(** [l] at the head of [s]: the rest of [s]. *)
Fixpoint strip (l s : list ascii) : option (list ascii) :=
  match l, s with
  | [], _ => Some s
  | a :: l', b :: s' => if Ascii.eqb a b then strip l' s' else None
  | _ :: _, [] => None
  end.

(** [$]: at the end, or before a line feed that ends the string. *)
Definition at_end (s : list ascii) : bool :=
  match s with
  | [] => true
  | [a] => is_newline a
  | _ => false
  end.

(** Match the pattern [p] at offset [pos], where [s] is what is left of
    the string. *)
Fixpoint exec (p : list node) (pos : nat) (s : list ascii) (cs : captures)
    : option captures :=
  match p with
  | [] => Some cs
  | Bol :: p' => if (pos =? 0)%nat then exec p' pos s cs else None
  | Eol :: p' => if at_end s then exec p' pos s cs else None
  | Lit l :: p' =>
      match strip l s with
      | Some s' => exec p' (pos + length l) s' cs
      | None => None
      end
  | Rep r :: p' =>
      first_success (λ n, exec p' (pos + n) (drop n s) cs) (counts r s)
  | Cap name r :: p' =>
      first_success
        (λ n, exec p' (pos + n) (drop n s) ((name, take n s) :: cs))
        (counts r s)
  end.

(** [pattern.search(s)] *)
Definition search (p : list node) (s : list ascii) : option captures :=
  first_success (λ i, exec p i (drop i s) []) (seq 0 (S (length s))).

(** [match.group(name)] *)
Fixpoint group (name : string) (cs : captures) : list ascii :=
  match cs with
  | [] => []
  | (n, v) :: cs' => if bool_decide (n = name) then v else group name cs'
  end.

End Re.

(** A string as the list of its characters, and back. *)
Abbreviation chars := String.list_ascii_of_string.
Abbreviation text := String.string_of_list_ascii.

(** [s.strip()] *)
Fixpoint lstrip (s : list ascii) : list ascii :=
  match s with
  | a :: s' => if Re.is_space a then lstrip s' else s
  | [] => []
  end.

Definition rstrip (s : list ascii) : list ascii := reverse (lstrip (reverse s)).

Definition strip (s : list ascii) : list ascii := lstrip (rstrip s).

(** ** Parser *)

Module Parser.

(** [^(?P<title>.*?)\s*\((?P<year>\d{4})\)\s*\{imdb-tt(?P<imdb_id>\d+)\}$] *)
Definition media_pattern : list Re.node :=
  [ Re.Bol;
    Re.Cap "title" (Re.Repeat Re.Any 0 None false);
    Re.Rep (Re.Repeat Re.Space 0 None true);
    Re.Lit (chars "(");
    Re.Cap "year" (Re.Repeat Re.Digit 4 (Some 4%nat) true);
    Re.Lit (chars ")");
    Re.Rep (Re.Repeat Re.Space 0 None true);
    Re.Lit (chars "{imdb-tt");
    Re.Cap "imdb_id" (Re.Repeat Re.Digit 1 None true);
    Re.Lit (chars "}");
    Re.Eol ].

(** [[sS](\d+)[eE](\d+)] *)
Definition episode_pattern : list Re.node :=
  [ Re.Rep (Re.Repeat (Re.OneOf (chars "sS")) 1 (Some 1%nat) true);
    Re.Cap "1" (Re.Repeat Re.Digit 1 None true);
    Re.Rep (Re.Repeat (Re.OneOf (chars "eE")) 1 (Some 1%nat) true);
    Re.Cap "2" (Re.Repeat Re.Digit 1 None true) ].

(** The dictionary [parse_media] returns. *)
Record media_info := MediaInfo {
  mi_title : string;
  mi_year : string;
  mi_imdb_id : string
}.

(** [Parser.parse_media], on the final component of the path. *)
Definition parse_media (name : string) : outcome media_info :=
  match Re.search media_pattern (chars name) with
  | None => Raise (ValueError ("Media path format not recognized: " +:+ name))
  | Some m =>
      Ok (MediaInfo (text (strip (Re.group "title" m)))
                    (text (Re.group "year" m))
                    (text (Re.group "imdb_id" m)))
  end.

(** [Parser.extract_media_episode] *)
Definition extract_media_episode (media_file : string) : val * val :=
  match Re.search episode_pattern (chars media_file) with
  | Some m =>
      let season := text (Re.group "1" m) in
      let episode := text (Re.group "2" m) in
      (PStr season, PStr episode)
  | None => (PNone, PNone)
  end.

(** [dict.get(key)] *)
Definition get (d : gmap string val) (key : string) : val :=
  default PNone (d !! key).

(** [Parser._determine_media_type] *)
Definition _determine_media_type (parsed_data : gmap string val) : string :=
  if truthy (or_ (get parsed_data "seasons") (get parsed_data "episode"))
  then "show" else "movie".

(** The dictionary [parse_torrent] returns. *)
Record torrent_info := TorrentInfo {
  ti_title : val;
  ti_year : val;
  ti_kind : string
}.

Section external_parser.

(** [PTT.parse_title], the free-form title parser. *)
Variable parse_title : string → gmap string val.

(** [Parser.parse_torrent], on the final component of the path. *)
Definition parse_torrent (name : string) : outcome torrent_info :=
  let parsed_torrent := parse_title name in
  let title := get parsed_torrent "title" in
  let year := get parsed_torrent "year" in
  let kind := _determine_media_type parsed_torrent in
  if negb (truthy title)
  then Raise (ValueError ("Missing title in parsed result for " +:+ name))
  else Ok (TorrentInfo title year kind).

(** [seq[0]] of a list that is known to be true, hence not empty. *)
Definition first_item (v : val) : val :=
  match v with PList (x :: _) => x | _ => PNone end.

(** [Parser.parse_torrent_episode], on the final component of the path. *)
Definition parse_torrent_episode (name : string) : val * val :=
  let parsed_file := parse_title name in
  let season := get parsed_file "seasons" in
  let episode := get parsed_file "episodes" in
  if truthy season && truthy episode
  then (first_item season, first_item episode)
  else if truthy episode then (PNone, first_item episode)
  else (PNone, PNone).

End external_parser.

End Parser.

(** ** Resolver *)

Module Resolver.

Definition SHOW_TYPES : list string := ["tv series"; "tv mini series"].
Definition VALID_TYPES : list string := ["movie"; "show"].

(** A result of the search service: [result.get("kind")] and
    [result.movieID]. *)
Record search_result := SearchResult { sr_kind : val; movieID : val }.

(** A call of the resolver: the queries it sent to the search service, in
    order, and its outcome. *)
Record run (A : Type) := Run { queries : list string; returned : outcome A }.
Arguments Run {A} queries returned.
Arguments queries {A} r.
Arguments returned {A} r.

Definition exn_str (e : exn) : string :=
  match e with ValueError msg => msg | RuntimeError msg => msg end.

Section service.

(** [Cinemagoer.search_movie] *)
Variable search_movie : string → outcome (list search_result).

(** The classification of a search result. *)
Definition result_type (result : search_result) : string :=
  if existsb (eq_str (sr_kind result)) SHOW_TYPES then "show" else "movie".

(** [Resolver.get_imdb_id] *)
Definition get_imdb_id (title year : val) (kind : string) : run val :=
  if negb (truthy title)
  then Run [] (Raise (ValueError "Title cannot be empty"))
  else if negb (bool_decide (kind ∈ VALID_TYPES))
  then Run [] (Raise (ValueError
         ("Invalid media type: " +:+ kind
          +:+ ". Must be one of ['movie', 'show']")))
  else
    let search_str :=
      Py.str title +:+ " "
      +:+ (if truthy year then Py.str year else EmptyString) in
    match search_movie search_str with
    | Raise e =>
        Run [search_str]
            (Raise (RuntimeError ("IMDb API search failed: " +:+ exn_str e)))
    | Ok results =>
        Run [search_str]
            (Ok (match List.find (λ result,
                          bool_decide (result_type result = kind)) results
                 with
                 | Some result => movieID result
                 | None => PNone
                 end))
    end.

End service.

End Resolver.

(** ** Scanners *)

(** [s.lower()] on ASCII. *)
Definition lower_char (a : ascii) : ascii :=
  let n := nat_of_ascii a in
  if ((65 <=? n) && (n <=? 90))%nat then ascii_of_nat (n + 32) else a.

Fixpoint lower (s : string) : string :=
  match s with
  | EmptyString => EmptyString
  | String a s' => String (lower_char a) (lower s')
  end.

Definition VIDEO_EXTENSIONS : list string :=
  [".mkv"; ".mov"; ".avi"; ".mp4"; ".wmv"].

Section scanners.

(** The file system as the scanners read it: [path.glob("**/*")],
    [path.is_file()], [path.stat().st_size], [path.is_symlink()] and
    [path.resolve()]. *)
Variable glob : Path.t → list Path.t.
Variable is_file : Path.t → bool.
Variable st_size : Path.t → Z.
Variable is_symlink : Path.t → bool.
Variable resolve : Path.t → Path.t.

(** [PTT.parse_title] *)
Variable parse_title : string → gmap string val.

(** [LibraryScanner.get_media_files] and [TorrentScanner.get_torrent_files],
    which are the same loop. *)
Definition get_media_files (media_path : Path.t) : list Path.t :=
  filter (λ file_path,
            is_file file_path = true
            ∧ lower (Path.suffix file_path) ∈ VIDEO_EXTENSIONS)
         (glob media_path).

(** The entity the loop of [LibraryScanner.index_media] builds for a
    file. *)
Definition library_media_file (imdb_id : string) (file : Path.t) : entity :=
  let symlink_path := Path.str file in
  let target_path :=
    Py.str (if is_symlink file then PStr (Path.str (resolve file))
            else PNone) in
  let file_size := st_size file in
  let '(season, episode) := Parser.extract_media_episode symlink_path in
  MediaFile_create (PStr target_path) (PInt file_size) (PStr imdb_id)
    PNone (PStr symlink_path) season episode.

(** [LibraryScanner.index_media]: the session its [with] block leaves.
    When the flush of the media fails, the exception leaves the block,
    which rolls the session back. *)
Definition index_media (st : store) (kind imdb_id : string)
    (title year anime : val) (path : Path.t) : store :=
  match Repository.get_by_id st (MediaRef imdb_id) with
  | Some existing => st
  | None =>
      let media := Media_create kind (PStr imdb_id) title year anime in
      match MediaHandler.add st media with
      | None => st
      | Some st1 =>
          let files := get_media_files path in
          foldl (λ st file,
                   (MediaFileHandler.add st
                      (library_media_file imdb_id file)).1)
                st1 files
      end
  end.

(** [max(files, key=lambda file: Path(file).stat().st_size)]: the first
    of the files of the largest size. *)
Definition max_by_size (files : list Path.t) : option Path.t :=
  match files with
  | [] => None
  | file :: files' =>
      Some (foldl (λ best file,
                     if st_size best <? st_size file then file else best)
                  file files')
  end.

(** The entity [TorrentScanner.index_torrent] builds for the file of a
    movie. *)
Definition movie_media_file (torrent_id : Z) (target_path : Path.t) : entity :=
  MediaFile_create (PStr (Path.str target_path)) (PInt (st_size target_path))
    PNone (PInt torrent_id) PNone PNone PNone.

(** The entity it builds for an episode of a show. *)
Definition show_media_file (torrent_id : Z) (file : Path.t)
    (season episode : val) : entity :=
  MediaFile_create (PStr (Path.str file)) (PInt (st_size file))
    PNone (PInt torrent_id) PNone season episode.

(** One iteration of the loop over the files of a show. *)
Definition index_show_file (torrent_id : Z) (st : store) (file : Path.t)
    : store :=
  let '(season, episode) :=
    Parser.parse_torrent_episode parse_title (Path.name file) in
  if truthy season && truthy episode
  then (MediaFileHandler.add st
          (show_media_file torrent_id file season episode)).1
  else st.

(** [TorrentScanner.index_torrent].  [max] raises on an empty list, which
    rolls the session back. *)
Definition index_torrent (st : store) (torrent_path : Path.t)
    (files : list Path.t) (kind : string) (title year : val) : outcome store :=
  let '(st1, torrent_id) :=
    TorrentHandler.add st
      (Torrent_new (PStr (Path.str torrent_path)) title year) in
  if bool_decide (kind = "movie") then
    match max_by_size files with
    | None => Raise (ValueError "max() arg is an empty sequence")
    | Some target_path =>
        Ok (MediaFileHandler.add st1
              (movie_media_file torrent_id target_path)).1
    end
  else Ok (foldl (index_show_file torrent_id) st1 files).

End scanners.

(** ** Sample directories *)

Module ScanSamples.

(** A movie torrent with files of 100, 200 and 50 bytes. *)
Definition movie_dir : Path.t := Path.Make "/downloads" "The.Matrix.1999".
Definition sample : Path.t := Path.Make "/downloads/The.Matrix.1999" "sample.mkv".
Definition feature : Path.t := Path.Make "/downloads/The.Matrix.1999" "matrix.mkv".
Definition extra : Path.t := Path.Make "/downloads/The.Matrix.1999" "extra.mkv".

(** A show torrent with a special (season 0) and a regular episode. *)
Definition show_dir : Path.t := Path.Make "/downloads" "Show.2020".
Definition special : Path.t := Path.Make "/downloads/Show.2020" "Show.S00E01.mkv".
Definition regular : Path.t := Path.Make "/downloads/Show.2020" "Show.S01E01.mkv".

(** A library directory with one regular file and one symbolic link. *)
Definition library_dir : Path.t :=
  Path.Make "/library/movies" "The Matrix (1999) {imdb-tt0133093}".
Definition copied : Path.t :=
  Path.Make "/library/movies/The Matrix (1999) {imdb-tt0133093}" "The Matrix.mkv".
Definition linked : Path.t :=
  Path.Make "/library/movies/The Matrix (1999) {imdb-tt0133093}" "trailer.mkv".

Definition st_size (p : Path.t) : Z :=
  if bool_decide (p = sample) then 100
  else if bool_decide (p = feature) then 200
  else if bool_decide (p = extra) then 50
  else 1500.

Definition is_symlink (p : Path.t) : bool := bool_decide (p = linked).

Definition resolve (p : Path.t) : Path.t :=
  if bool_decide (p = linked)
  then Path.Make "/downloads/The.Matrix.1999" "trailer.mkv" else p.

Definition glob (p : Path.t) : list Path.t :=
  if bool_decide (p = library_dir) then [copied; linked] else [].

Definition is_file (p : Path.t) : bool := true.

(** What the free-form parser returns for the two episodes. *)
Definition parse_title (name : string) : gmap string val :=
  if bool_decide (name = "Show.S00E01.mkv")
  then {["title" := PStr "Show"; "seasons" := PList [PInt 0];
         "episodes" := PList [PInt 1]]}
  else if bool_decide (name = "Show.S01E01.mkv")
  then {["title" := PStr "Show"; "seasons" := PList [PInt 1];
         "episodes" := PList [PInt 1]]}
  else ∅.

End ScanSamples.

(** ** Reading the torrent scanner *)

(** The files of a show that are indexed: those whose season and episode
    are both true values. *)
Definition indexed_episode (parse_title : string → gmap string val)
    (file : Path.t) : bool :=
  let '(season, episode) :=
    Parser.parse_torrent_episode parse_title (Path.name file) in
  truthy season && truthy episode.

(** The files of a show from which both a season and an episode were
    extracted: neither is [None]. *)
Definition extracted_episode (parse_title : string → gmap string val)
    (file : Path.t) : bool :=
  let '(season, episode) :=
    Parser.parse_torrent_episode parse_title (Path.name file) in
  negb (is_none season) && negb (is_none episode).

(** The entity built for an indexed episode. *)
Definition episode_entity (st_size : Path.t → Z)
    (parse_title : string → gmap string val) (torrent_id : Z)
    (file : Path.t) : entity :=
  let '(season, episode) :=
    Parser.parse_torrent_episode parse_title (Path.name file) in
  show_media_file st_size torrent_id file season episode.

(** The session after the media files [entities] have been passed to the
    store's upsert, in order. *)
Definition upsert_all (st : store) (entities : list entity) : store :=
  foldl (λ st e, (MediaFileHandler.add st e).1) st entities.

(** ** Reading the library-name pattern *)

(** What follows the title group in [media_pattern]:
    [\s*\((?P<year>\d{4})\)\s*\{imdb-tt(?P<imdb_id>\d+)\}$]. *)
Definition media_tail : list Re.node := drop 2 Parser.media_pattern.

(** A run of whitespace, of digits, of characters other than a line feed. *)
Definition spaces (s : list ascii) : Prop := Forall (λ a, Re.is_space a = true) s.
Definition digits (s : list ascii) : Prop := Forall (λ a, Re.is_digit a = true) s.
Definition one_line (s : list ascii) : Prop :=
  Forall (λ a, Re.is_newline a = false) s.

(** The strings the tail of the pattern matches: whitespace [a], the year
    [y] in parentheses, whitespace [b], the identifier [d] in its braces,
    and what is left, [e]. *)
Definition tail_form (a y b d e : list ascii) : list ascii :=
  a ++ chars "(" ++ y ++ chars ")" ++ b ++ chars "{imdb-tt" ++ d
    ++ chars "}" ++ e.

(** ** Reading the results of the free-form parser *)

(** An entry of the parser's result as its interface gives it: absent, a
    list, or a string. *)
Definition field_shape (v : val) : Prop :=
  v = PNone ∨ (∃ l, v = PList l) ∨ (∃ s, v = PStr s).

(** The entry holds something: a list or a string that is not empty. *)
Definition holds_items (v : val) : Prop :=
  (∃ x l, v = PList (x :: l)) ∨ (∃ c s, v = PStr (String c s)).

(** ** Reading the tables *)

(** No two torrent rows have the same path. *)
Definition unique_torrent_paths (st : store) : Prop :=
  ∀ i j ti tj p,
    torrents st !! i = Some ti → torrents st !! j = Some tj →
    getattr ti "path" = PStr p → getattr tj "path" = PStr p → i = j.

(** The attributes of two rows agree except for [key]. *)
Definition same_but (key : string) (e e' : entity) : Prop :=
  ∀ k, k ≠ key → getattr e' k = getattr e k.

(** ** More of the sources

    The functions below complete the files the definitions above are taken
    from: the naming of the library ([media/media.py],
    [media/media_file.py]), the category directories
    ([scanners/categories.py]), the two scanning loops and the resolution
    pass ([scanners/]), and the retrieval of a media
    ([services/resolver.py]). *)

(** [sub in s] on strings. *)
Fixpoint contains (sub s : string) : bool :=
  String.prefix sub s
  || match s with
     | EmptyString => false
     | String _ s' => contains sub s'
     end.

(** [s] split at its last "/", when it has one. *)
Fixpoint split_last_slash (s : string) : option (string * string) :=
  match s with
  | EmptyString => None
  | String c s' =>
      match split_last_slash s' with
      | Some (d, n) => Some (String c d, n)
      | None => if Ascii.eqb c "/"%char then Some (EmptyString, s') else None
      end
  end.

(** [Path(s)]: the directory and the final component of a path given as a
    string (a string without "/" names an entry of the current directory). *)
Definition Path_of_str (s : string) : Path.t :=
  match split_last_slash s with
  | Some (d, n) => Path.Make d n
  | None => Path.Make "." s
  end.

(** [Path(s).name] *)
Definition basename (s : string) : string := Path.name (Path_of_str s).

(** [isinstance(media, Movie)], read off the polymorphic identity. *)
Definition is_movie (media : entity) : bool :=
  eq_str (getattr media "media_type") "movie".

(** [Media.get_path]: the directory of a media in the library. *)
Definition Media_get_path (media : entity) (library_base : string)
    (separate_anime : bool) : Path.t :=
  let category :=
    if is_movie media
    then (if truthy (getattr media "anime") && separate_anime
          then "anime_movies" else "movies")
    else (if truthy (getattr media "anime") && separate_anime
          then "anime_shows" else "shows") in
  let media_name :=
    Py.str (getattr media "title") +:+ " (" +:+ Py.str (getattr media "year")
    +:+ ") {imdb-tt" +:+ Py.str (getattr media "id") +:+ "}" in
  Path_of_str (library_base +:+ "/" +:+ category +:+ "/" +:+ media_name).

(** [MediaFile.get_path]: the file name of a media file in the library (the
    text of the path returned), [None] when the file has no media.  The
    target path of a record is a string, the column is not nullable. *)
Definition MediaFile_get_path (st : store) (f : entity) : option string :=
  match media_of st f with
  | None => None
  | Some media =>
      let suffix := Path.suffix (Path_of_str (Py.str (getattr f "target_path"))) in
      Some
        (if truthy (getattr f "episode")
         then Py.str (getattr media "title") +:+ " ("
              +:+ Py.str (getattr media "year") +:+ ") - s"
              +:+ Py.str (getattr f "season") +:+ "e"
              +:+ Py.str (getattr f "episode") +:+ suffix
         else Py.str (getattr media "title") +:+ " ("
              +:+ Py.str (getattr media "year") +:+ ") {imdb-tt"
              +:+ Py.str (getattr media "id") +:+ "}" +:+ suffix)
  end.

(** ** Categories *)

Module Categories.

Record t := Make {
  separate_animes : bool;
  movies : string;
  shows : string;
  anime_movies : string;
  anime_shows : string
}.

(** [Categories.__init__]: a name that is [None] or empty is replaced by
    the default. *)
Definition init (separate_animes : bool)
    (movies shows anime_movies anime_shows : val) : t :=
  Make separate_animes
       (Py.str (or_ movies (PStr "movies")))
       (Py.str (or_ shows (PStr "shows")))
       (Py.str (or_ anime_movies (PStr "anime_movies")))
       (Py.str (or_ anime_shows (PStr "anime_shows"))).

(** [Categories.get_all_paths]: the labelled category directories, in the
    order of the dictionary. *)
Definition get_all_paths (c : t) (library_base : string)
    : list (string * Path.t) :=
  if separate_animes c
  then [("Movies", Path.Make library_base (movies c));
        ("Shows", Path.Make library_base (shows c));
        ("Anime Movies", Path.Make library_base (anime_movies c));
        ("Anime Shows", Path.Make library_base (anime_shows c))]
  else [("Movies", Path.Make library_base (movies c));
        ("Shows", Path.Make library_base (shows c))].

End Categories.

(** ** LibraryScanner, continued *)

(** The dictionary [get_media_info] returns. *)
Record library_info := LibraryInfo {
  li_kind : string;
  li_imdb_id : string;
  li_title : string;
  li_year : string;
  li_anime : bool
}.

(** [LibraryScanner.get_media_info]: [None] when the name of the directory
    is not recognised. *)
Definition get_media_info (media_path : Path.t) : option library_info :=
  let category_name := basename (Path.parent media_path) in
  match Parser.parse_media (Path.name media_path) with
  | Raise _ => None
  | Ok m =>
      let anime := contains "anime" (lower category_name) in
      let kind := if contains "movie" (lower category_name)
                  then "movie" else "show" in
      Some (LibraryInfo kind (Parser.mi_imdb_id m) (Parser.mi_title m)
              (Parser.mi_year m) anime)
  end.

Section library_scan.

Variable glob : Path.t → list Path.t.
Variable is_file : Path.t → bool.
Variable st_size : Path.t → Z.
Variable is_symlink : Path.t → bool.
Variable resolve : Path.t → Path.t.

(** [path.iterdir()], as far as the listing gets, and [path.is_dir()]. *)
Variable iterdir : Path.t → list Path.t.
Variable is_dir : Path.t → bool.

(** [LibraryScanner.get_media_paths] *)
Definition get_media_paths (categories : Categories.t) (library_base : string)
    : list Path.t :=
  mjoin ((λ entry : string * Path.t,
            filter (λ media_path, is_dir media_path = true) (iterdir entry.2))
         <$> Categories.get_all_paths categories library_base).

(** One iteration of the loop of [LibraryScanner.full_scan]. *)
Definition scan_media (st : store) (media_path : Path.t) : store :=
  match get_media_info media_path with
  | Some media_info =>
      index_media glob is_file st_size is_symlink resolve st
        (li_kind media_info) (li_imdb_id media_info)
        (PStr (li_title media_info)) (PStr (li_year media_info))
        (PBool (li_anime media_info)) media_path
  | None => st
  end.

(** [LibraryScanner.full_scan] *)
Definition LibraryScanner_full_scan (st : store) (categories : Categories.t)
    (library_base : string) : store :=
  foldl scan_media st (get_media_paths categories library_base).

End library_scan.

(** ** The season and episode marker *)

(** [u] starts with a season letter directly followed by a digit: the only
    way [episode_pattern] can start to match at the head of [u]. *)
Definition marked_head (u : list ascii) : bool :=
  match u with
  | c :: d :: _ => Re.cls_match (Re.OneOf (chars "sS")) c && Re.is_digit d
  | _ => false
  end.

(** Nowhere in [s] is a season letter directly followed by a digit. *)
Fixpoint unmarked (s : list ascii) : bool :=
  match s with
  | [] => true
  | c :: s' => negb (marked_head (c :: s')) && unmarked s'
  end.

(** ** Queries of the scanners *)

(** [Repository.get(Torrent, condition)]: the torrents that satisfy the
    condition. *)
Definition Repository_get (st : store) (cond : entity → bool)
    : list (Z * entity) :=
  filter (λ row, cond row.2 = true) (map_to_list (torrents st)).

(** [Repository.get_all(Torrent)] *)
Definition Repository_get_all (st : store) : list (Z * entity) :=
  map_to_list (torrents st).

(** ** TorrentScanner, continued *)

(** The dictionary [get_torrent_info] returns. *)
Record scanned_torrent := ScannedTorrent {
  ts_kind : string;
  ts_title : val;
  ts_year : val;
  ts_torrent_path : Path.t;
  ts_files : list Path.t
}.

Section torrent_scan.

Variable glob : Path.t → list Path.t.
Variable is_file : Path.t → bool.
Variable st_size : Path.t → Z.
Variable parse_title : string → gmap string val.
Variable iterdir : Path.t → list Path.t.
Variable is_dir : Path.t → bool.

(** [TorrentScanner.get_torrent_paths] *)
Definition get_torrent_paths (torrent_base : Path.t) : list Path.t :=
  filter (λ torrent_path, is_dir torrent_path = true) (iterdir torrent_base).

(** [TorrentScanner.get_torrent_info]: [None] when the name is not parsed
    or the directory holds no video file. *)
Definition get_torrent_info (torrent_path : Path.t) : option scanned_torrent :=
  match Parser.parse_torrent parse_title (Path.name torrent_path) with
  | Raise _ => None
  | Ok info =>
      let files := get_media_files glob is_file torrent_path in
      match files with
      | [] => None
      | _ :: _ =>
          Some (ScannedTorrent (Parser.ti_kind info) (Parser.ti_title info)
                  (Parser.ti_year info) torrent_path files)
      end
  end.

(** One iteration of the loop of [TorrentScanner.full_scan]; an exception
    of [index_torrent] rolls its session back and is logged. *)
Definition scan_torrent (st : store) (torrent_path : Path.t) : store :=
  match Repository_get st
          (λ t, eq_str (getattr t "path") (Path.str torrent_path)) with
  | _ :: _ => st
  | [] =>
      match get_torrent_info torrent_path with
      | Some torrent_info =>
          match index_torrent st_size parse_title st
                  (ts_torrent_path torrent_info) (ts_files torrent_info)
                  (ts_kind torrent_info) (ts_title torrent_info)
                  (ts_year torrent_info) with
          | Ok st' => st'
          | Raise _ => st
          end
      | None => st
      end
  end.

(** [TorrentScanner.full_scan] *)
Definition TorrentScanner_full_scan (st : store) (torrent_base : Path.t)
    : store :=
  foldl scan_torrent st (get_torrent_paths torrent_base).

End torrent_scan.

(** The session has a torrent whose path is [p]. *)
Definition has_torrent_path (st : store) (p : string) : Prop :=
  ∃ k t, torrents st !! k = Some t ∧ getattr t "path" = PStr p.

(** ** The resolution pass *)

(** The dictionary [Resolver.get_media] returns. *)
Record resolved_media := ResolvedMedia {
  rm_imdb_id : string;
  rm_title : val;
  rm_year : val;
  rm_anime : bool;
  rm_kind : string
}.

Section resolution.

(** [PTT.parse_title], and the resolver the scanner is built with:
    [resolver.get_imdb_id] (an identifier, or [None]) and
    [resolver.get_media]. *)
Variable parse_title : string → gmap string val.
Variable get_imdb_id : val → val → string → outcome (option string).
Variable get_media : string → outcome resolved_media.

(** One iteration of the loop of [add_missing_media_to_torrents], on the
    torrent of key [id]; an exception of the parser or of the resolver is
    logged and the loop goes on.  The result is [None] when the flush of
    the new media fails: the inner [except] logs the error and the torrent
    is not linked, and the failed flush has rolled the transaction of the
    session back. *)
Definition resolve_torrent (st : store) (id : Z) : option store :=
  match torrents st !! id with
  | None => Some st
  | Some torrent =>
      if truthy (getattr torrent "media_id") then Some st
      else
        match Parser.parse_torrent parse_title
                (basename (Py.str (getattr torrent "path"))) with
        | Raise _ => Some st
        | Ok torrent_info =>
            match get_imdb_id (Parser.ti_title torrent_info)
                    (Parser.ti_year torrent_info)
                    (Parser.ti_kind torrent_info) with
            | Raise _ => Some st
            | Ok None => Some st
            | Ok (Some imdb_id) =>
                if bool_decide (imdb_id = EmptyString) then Some st
                else
                  match Repository.get_by_id st (MediaRef imdb_id) with
                  | Some _ =>
                      Some (Repository.update st (TorrentRef id)
                              {["media_id" := PStr imdb_id]})
                  | None =>
                      match get_media imdb_id with
                      | Raise _ => Some st
                      | Ok media_info =>
                          let media :=
                            Media_create (rm_kind media_info)
                              (PStr (rm_imdb_id media_info))
                              (rm_title media_info) (rm_year media_info)
                              (PBool (rm_anime media_info)) in
                          match MediaHandler.add st media with
                          | None => None
                          | Some st1 =>
                              Some (Repository.update st1 (TorrentRef id)
                                      {["media_id" := PStr imdb_id]})
                          end
                      end
                  end
            end
        end
  end.

(** The loop of the pass over the torrents.  After a failed flush the
    session accepts no further work until it is rolled back, which the
    loop never does: no later iteration changes anything. *)
Definition resolve_torrents (st : store) (ids : list Z) : option store :=
  foldl (λ session id, session ≫= λ st, resolve_torrent st id) (Some st) ids.

(** [TorrentScanner.add_missing_media_to_torrents]: the session the pass
    leaves.  The whole loop runs in the one transaction of its [with]
    block, which is committed when the block ends; when a flush has
    failed nothing of the pass is committed, and the session is as it was
    before the pass. *)
Definition add_missing_media_to_torrents (st : store) : store :=
  default st (resolve_torrents st (Repository_get_all st).*1).

End resolution.

(** The records the resolver retrieves can be stored: each is under the
    identifier asked for and has a title and a year. *)
Definition storable (get_media : string → outcome resolved_media) : Prop :=
  ∀ imdb_id media_info, get_media imdb_id = Ok media_info →
    rm_imdb_id media_info = imdb_id ∧
    rm_title media_info ≠ PNone ∧ rm_year media_info ≠ PNone.

(** Every torrent the file points at has a media. *)
Definition settled (st : store) (f : entity) : Prop :=
  ∀ tid t, getattr f "torrent_id" = PInt tid → torrents st !! tid = Some t →
           truthy (getattr t "media_id") = true.

(** From [st] to [st'] media were at most added, and torrents and media
    files at most linked: no row was created or removed, a row changed in
    its [media_id] only, and not at all when it was a torrent that had a
    media or a file of such torrents only. *)
Definition only_links (st st' : store) : Prop :=
  (∀ id m, media st !! id = Some m → media st' !! id = Some m) ∧
  dom (torrents st') = dom (torrents st) ∧
  dom (mediafiles st') = dom (mediafiles st) ∧
  (∀ k t, torrents st !! k = Some t →
     ∃ t', torrents st' !! k = Some t' ∧ same_but "media_id" t t' ∧
           (truthy (getattr t "media_id") = true → t' = t)) ∧
  (∀ k f, mediafiles st !! k = Some f →
     ∃ f', mediafiles st' !! k = Some f' ∧ same_but "media_id" f f' ∧
           (settled st f → f' = f)).

(** A resolver for the sample sessions: it knows one title. *)
Module ResolverSamples.

Definition parse_title (name : string) : gmap string val :=
  {["title" := PStr "The Matrix"; "year" := PInt 1999]}.

Definition get_imdb_id (title year : val) (kind : string)
    : outcome (option string) :=
  if eq_str title "The Matrix" then Ok (Some "0133093") else Ok None.

Definition get_media (imdb_id : string) : outcome resolved_media :=
  Raise (RuntimeError "Failed to retrieve media").

(** A resolver that retrieves the record of the title. *)
Definition retrieve (imdb_id : string) : outcome resolved_media :=
  Ok (ResolvedMedia imdb_id (PStr "The Matrix") (PInt 1999) false "movie").

(** A resolver whose record of the title has no year. *)
Definition retrieve_incomplete (imdb_id : string) : outcome resolved_media :=
  Ok (ResolvedMedia imdb_id (PStr "The Matrix") PNone false "movie").

(** A session that holds no media: an unresolved torrent and its file. *)
Definition pending_session : store :=
  Store ∅ {[1 := Samples.torrent_row PNone]}
        {[1 := Samples.file_row 1 "a.mkv" PNone]}.

End ResolverSamples.

(** ** Resolver, continued *)

(** A record of the service as [get_media] reads it: [media.get("title")],
    [media.get("year")], [media.get("kind")], and the genres and the
    countries when the record has them. *)
Record movie := Movie {
  mv_title : val;
  mv_year : val;
  mv_kind : val;
  mv_genres : option (list string);
  mv_countries : option (list string)
}.

(** [x or []] on an optional list. *)
Definition or_nil (l : option (list string)) : list string :=
  match l with
  | Some (x :: l') => x :: l'
  | _ => []
  end.

(** [Resolver._is_anime] *)
Definition Resolver__is_anime (genres countries : option (list string)) : bool :=
  let genres := or_nil genres in
  let countries := or_nil countries in
  bool_decide ("Anime" ∈ genres)
  || (bool_decide ("Animation" ∈ genres) && bool_decide ("Japan" ∈ countries)).

Section retrieval.

(** [Cinemagoer.get_movie]: a record, a record that is false, or an
    exception; an exception that is not a [ValueError] is given as a
    [RuntimeError], the two are not told apart by [get_media]. *)
Variable get_movie : string → outcome (option movie).

(** [Resolver.get_media] *)
Definition Resolver_get_media (imdb_id : string)
    : Resolver.run resolved_media :=
  if bool_decide (imdb_id = EmptyString)
  then Resolver.Run [] (Raise (ValueError "IMDb ID cannot be empty"))
  else
    match get_movie imdb_id with
    | Ok None =>
        Resolver.Run [imdb_id]
          (Raise (ValueError ("No media found for IMDb ID: " +:+ imdb_id)))
    | Ok (Some media) =>
        Resolver.Run [imdb_id]
          (Ok (ResolvedMedia imdb_id (mv_title media) (mv_year media)
                 (Resolver__is_anime (Some (default [] (mv_genres media)))
                    (Some (default [] (mv_countries media))))
                 (if existsb (eq_str (mv_kind media)) Resolver.SHOW_TYPES
                  then "show" else "movie")))
    | Raise (ValueError msg) => Resolver.Run [imdb_id] (Raise (ValueError msg))
    | Raise e =>
        Resolver.Run [imdb_id]
          (Raise (RuntimeError
                    ("Failed to retrieve media for IMDb ID " +:+ imdb_id
                     +:+ ": " +:+ Resolver.exn_str e)))
    end.

End retrieval.

(** A search service, and a library of one directory, for the samples. *)
Module ServiceSamples.

Definition results : list Resolver.search_result :=
  [Resolver.SearchResult (PStr "tv series") (PStr "0106145");
   Resolver.SearchResult (PStr "video game") (PStr "0277828");
   Resolver.SearchResult (PStr "movie") (PStr "0133093")].

Definition search_movie (query : string)
    : outcome (list Resolver.search_result) :=
  Ok results.

Definition thrones_path : Path.t :=
  Media_get_path Samples.thrones "/library" true.

Definition iterdir (directory : Path.t) : list Path.t := [thrones_path].

Definition is_dir (path : Path.t) : bool := true.

End ServiceSamples.

(** ** The initial scan *)

Section initial_scan.

Variable glob : Path.t → list Path.t.
Variable is_file : Path.t → bool.
Variable st_size : Path.t → Z.
Variable is_symlink : Path.t → bool.
Variable resolve : Path.t → Path.t.
Variable parse_title : string → gmap string val.
Variable iterdir : Path.t → list Path.t.
Variable is_dir : Path.t → bool.
Variable get_imdb_id : val → val → string → outcome (option string).
Variable get_media : string → outcome resolved_media.

(** [__main__.run_initial_scan], for a library scanner with [categories]
    on [library_base] and a torrent scanner on [torrent_base]. *)
Definition run_initial_scan (st : store) (categories : Categories.t)
    (library_base : string) (torrent_base : Path.t) : store :=
  let st1 :=
    LibraryScanner_full_scan glob is_file st_size is_symlink resolve iterdir
      is_dir st categories library_base in
  let st2 :=
    TorrentScanner_full_scan glob is_file st_size parse_title iterdir is_dir
      st1 torrent_base in
  add_missing_media_to_torrents parse_title get_imdb_id get_media st2.

End initial_scan.

(** Every torrent of [st'] is a torrent of [st], with the path it had. *)
Definition paths_kept (st st' : store) : Prop :=
  ∀ k t', torrents st' !! k = Some t' →
    ∃ t, torrents st !! k = Some t ∧ getattr t' "path" = getattr t "path".

(** A file system with one torrent directory, for the samples. *)
Module FileSystemSamples.

Definition torrent_dir : Path.t :=
  Path.Make "/mnt/torrents" "The.Matrix.1999".

Definition video : Path.t :=
  Path.Make "/mnt/torrents/The.Matrix.1999" "The.Matrix.1999.mkv".

Definition iterdir (directory : Path.t) : list Path.t :=
  if bool_decide (directory = Path.Make "/mnt" "torrents")
  then [torrent_dir] else [].

Definition is_dir (path : Path.t) : bool := bool_decide (path = torrent_dir).

Definition glob (directory : Path.t) : list Path.t :=
  if bool_decide (directory = torrent_dir) then [video] else [].

Definition is_file (path : Path.t) : bool := bool_decide (path = video).

Definition st_size (path : Path.t) : Z := 1500.

Definition is_symlink (path : Path.t) : bool := false.

Definition resolve (path : Path.t) : Path.t := path.

End FileSystemSamples.

(** ** Configuration ([config/config.py])

    A configuration value is a scalar (or a list, which the code treats as
    one) or a dictionary; a dictionary is the list of its items, in order,
    and has one item per key.  Keys are strings: a key of another type is
    never a key of the settings. *)

#[warnings="-register-all"]
Inductive cfg :=
| CVal (v : val)
| CDict (items : list (string * cfg)).

(** [items[key]], when [key in items]. *)
Fixpoint assoc_get {A} (key : string) (items : list (string * A)) : option A :=
  match items with
  | [] => None
  | (k, v) :: items' =>
      if bool_decide (k = key) then Some v else assoc_get key items'
  end.

(** [items[key] = value], for a key of [items]. *)
Fixpoint assoc_set {A} (key : string) (value : A) (items : list (string * A))
    : list (string * A) :=
  match items with
  | [] => []
  | (k, v) :: items' =>
      if bool_decide (k = key) then (k, value) :: items'
      else (k, v) :: assoc_set key value items'
  end.

(** The body of the loop of [_update_config_recursive] on a dictionary
    that is not shared, [recur] being the function itself. *)
Definition update_entry
    (recur : cfg → list (string * cfg) → list (string * cfg))
    (target : list (string * cfg)) (key : string) (value : cfg)
    : list (string * cfg) :=
  match assoc_get key target with
  | Some (CDict t) =>
      match value with
      | CDict _ => assoc_set key (CDict (recur value t)) target
      | CVal _ => assoc_set key value target
      end
  | Some (CVal _) => assoc_set key value target
  | None => target
  end.

(** [Config._update_config_recursive(target, source)], as the update it
    makes in place to [target]. *)
Fixpoint _update_config_recursive (source : cfg)
    (target : list (string * cfg)) {struct source} : list (string * cfg) :=
  match source with
  | CVal _ => target
  | CDict items =>
      foldl (λ target '(key, value),
               update_entry _update_config_recursive target key value)
            target items
  end.

(** [Config.DEFAULTS] *)
Definition DEFAULTS : list (string * cfg) :=
  [("paths",
    CDict [("torrents", CVal (PStr "/mnt/remote/realdebrid/torrents/"));
           ("library", CVal (PStr "/mnt/plex"));
           ("database", CVal (PStr "./media_library.db"))]);
   ("directories",
    CDict [("separate_anime", CVal (PBool true));
           ("movies", CVal (PStr "movies"));
           ("shows", CVal (PStr "shows"));
           ("anime_movies", CVal (PStr "anime_movies"));
           ("anime_shows", CVal (PStr "anime_shows"))]);
   ("logging", CDict [("level", CVal (PStr "INFO"))])].

(** An entry of [self._config], which starts as [DEFAULTS.copy()], a copy
    of the outer dictionary only: an entry is still the very object the
    class attribute holds under that key, or a value of the instance's
    own. *)
Inductive slot :=
| Shared
| Own (value : cfg).

(** The state a [Config] lives in: the sections the class attribute
    [DEFAULTS] holds, and [self._config]. *)
Record config_state := ConfigState {
  class_defaults : list (string * cfg);
  _config : list (string * slot)
}.

(** [self._config[key]] *)
Definition config_section (cs : config_state) (key : string) : option cfg :=
  match assoc_get key (_config cs) with
  | Some Shared => assoc_get key (class_defaults cs)
  | Some (Own value) => Some value
  | None => None
  end.

(** [self._config[section][key]], with [None] for a failed lookup. *)
Definition config_get (cs : config_state) (section key : string)
    : option cfg :=
  match config_section cs section with
  | Some (CDict items) => assoc_get key items
  | _ => None
  end.

(** The body of the loop of [_update_config_recursive] on [self._config]
    itself: an update inside a shared section is an update of the section
    the class holds. *)
Definition update_top (cs : config_state) (item : string * cfg)
    : config_state :=
  let '(key, value) := item in
  match assoc_get key (_config cs), config_section cs key with
  | Some Shared, Some (CDict t) =>
      match value with
      | CDict _ =>
          ConfigState
            (assoc_set key (CDict (_update_config_recursive value t))
               (class_defaults cs))
            (_config cs)
      | CVal _ =>
          ConfigState (class_defaults cs)
            (assoc_set key (Own value) (_config cs))
      end
  | Some (Own _), Some (CDict t) =>
      match value with
      | CDict _ =>
          ConfigState (class_defaults cs)
            (assoc_set key (Own (CDict (_update_config_recursive value t)))
               (_config cs))
      | CVal _ =>
          ConfigState (class_defaults cs)
            (assoc_set key (Own value) (_config cs))
      end
  | Some _, _ =>
      ConfigState (class_defaults cs) (assoc_set key (Own value) (_config cs))
  | None, _ => cs
  end.

(** [Config._load_config], given what [yaml.safe_load] returned ([None]
    when there is no file or reading it failed): data that is false or is
    not a dictionary changes nothing. *)
Definition _load_config (cs : config_state) (config_data : option cfg)
    : config_state :=
  match config_data with
  | Some (CDict items) => foldl update_top cs items
  | _ => cs
  end.

(** The first statements of [Config.__init__]: the copy of [DEFAULTS],
    then the load.  The validation follows, in [Config_init]. *)
Definition copy_and_load (defaults : list (string * cfg))
    (config_data : option cfg) : config_state :=
  _load_config
    (ConfigState defaults ((λ item, (item.1, Shared)) <$> defaults))
    config_data.

(** [Config.VALID_LOG_LEVELS] *)
Definition VALID_LOG_LEVELS : list string :=
  ["DEBUG"; "INFO"; "WARNING"; "ERROR"; "CRITICAL"].

(** [log_level in self.VALID_LOG_LEVELS] *)
Definition valid_log_level (log_level : cfg) : bool :=
  match log_level with
  | CVal (PStr level) => bool_decide (level ∈ VALID_LOG_LEVELS)
  | _ => false
  end.

(** [self._config["logging"]["level"] = value], the section being a
    dictionary that has the key: an assignment inside a shared section is
    an assignment in the section the class holds. *)
Definition set_logging_level (cs : config_state) (value : cfg)
    : config_state :=
  match assoc_get "logging" (_config cs), config_section cs "logging" with
  | Some Shared, Some (CDict t) =>
      ConfigState
        (assoc_set "logging" (CDict (assoc_set "level" value t))
           (class_defaults cs))
        (_config cs)
  | Some (Own _), Some (CDict t) =>
      ConfigState (class_defaults cs)
        (assoc_set "logging" (Own (CDict (assoc_set "level" value t)))
           (_config cs))
  | _, _ => cs
  end.

(** [Config.get_directory_names], with [None] for a failed lookup. *)
Definition get_directory_names (cs : config_state)
    : option (list (string * cfg)) :=
  movies ← config_get cs "directories" "movies";
  shows ← config_get cs "directories" "shows";
  anime_movies ← config_get cs "directories" "anime_movies";
  anime_shows ← config_get cs "directories" "anime_shows";
  Some [("movies", movies); ("shows", shows);
        ("anime_movies", anime_movies); ("anime_shows", anime_shows)].

(** An entry of the list of issues [_validate_config] builds, without its
    wording. *)
Inductive issue :=
| TorrentsPathMissing
| LibraryPathMissing
| DatabaseDirectoryMissing
| InvalidLoggingLevel
| InvalidDirectoryName (dir_type : string)
| SeparatorInDirectoryName (dir_type : string).

(** The body of the loop of [_validate_config] over the directory
    names. *)
Definition directory_issues (entry : string * cfg) : list issue :=
  let '(dir_type, dir_name) := entry in
  match dir_name with
  | CVal (PStr name) =>
      if negb (truthy (PStr name)) then [InvalidDirectoryName dir_type]
      else if contains "/" name then [SeparatorInDirectoryName dir_type]
      else []
  | _ => [InvalidDirectoryName dir_type]
  end.

(** [if not ok: issues.append(...)] *)
Definition unless (ok : bool) (entry : issue) : list issue :=
  if ok then [] else [entry].

Section validation.

(** [os.path.exists(value)] on a value of the settings, and
    [os.path.dirname(os.path.abspath(value))]; [None] when the call raises
    (as on a value that is no path). *)
Variable os_path_exists : cfg → option bool.
Variable database_directory : cfg → option string.

(** The checks of [_validate_config] up to the logging level: the issues
    of the paths and the level read, or [None] when a lookup in
    [self._config] or a function of [os.path] raises. *)
Definition path_checks (cs : config_state) : option (list issue * cfg) :=
  torrents_path ← config_get cs "paths" "torrents";
  torrents_found ← os_path_exists torrents_path;
  library_path ← config_get cs "paths" "library";
  library_found ← os_path_exists library_path;
  db_path ← config_get cs "paths" "database";
  db_dir ← database_directory db_path;
  db_dir_found ← (if truthy (PStr db_dir)
                  then os_path_exists (CVal (PStr db_dir)) else Some true);
  log_level ← config_get cs "logging" "level";
  Some (unless torrents_found TorrentsPathMissing
        ++ unless library_found LibraryPathMissing
        ++ unless db_dir_found DatabaseDirectoryMissing,
        log_level).

(** [Config._validate_config]: the state it leaves, and the list of issues
    it returns, or [None] when it raises.  A level that is not among
    [VALID_LOG_LEVELS] is replaced by "INFO" in the section. *)
Definition _validate_config (cs : config_state)
    : config_state * option (list issue) :=
  match path_checks cs with
  | None => (cs, None)
  | Some (path_issues, log_level) =>
      let cs1 := if valid_log_level log_level then cs
                 else set_logging_level cs (CVal (PStr "INFO")) in
      match get_directory_names cs1 with
      | None => (cs1, None)
      | Some names =>
          (cs1,
           Some (path_issues
                 ++ unless (valid_log_level log_level) InvalidLoggingLevel
                 ++ mjoin (directory_issues <$> names)))
      end
  end.

(** [Config.__init__]: the copy of [DEFAULTS], the load and the
    validation.  The state is the one the call leaves, the class attribute
    included; the second component is [None] when the constructor
    raises. *)
Definition Config_init (defaults : list (string * cfg))
    (config_data : option cfg) : config_state * option (list issue) :=
  _validate_config (copy_and_load defaults config_data).

End validation.

Module ConfigSamples.

(** A file that sets the library path, and an unknown key. *)
Definition file : list (string * cfg) :=
  [("paths", CDict [("library", CVal (PStr "/srv/media"));
                    ("cache", CVal (PStr "/tmp/cache"))])].

(** A file that sets a logging level in lower case. *)
Definition debug_file : list (string * cfg) :=
  [("logging", CDict [("level", CVal (PStr "debug"))])].

(** A file system on which none of the paths exists. *)
Definition os_path_exists (value : cfg) : option bool :=
  match value with
  | CVal (PStr _) => Some false
  | _ => None
  end.

Definition database_directory (value : cfg) : option string :=
  match value with
  | CVal (PStr _) => Some "/srv"
  | _ => None
  end.

End ConfigSamples.

(** ** Symlinker ([services/symlinker.py]) *)

(** How a call of the symlinker ends: it returns a path or [None], or it
    raises. *)
Inductive symlink_result :=
| Returns (path : option Path.t)
| RaisesValueError (msg : string)
| RaisesFileNotFoundError (msg : string)
| RaisesOSError.

Section symlinker.

Variable library_base : string.
Variable separate_anime : bool.

(** The file system is the set of the paths that exist, with the three
    operations that change it: [path.mkdir(exist_ok=True)],
    [path.mkdir(parents=True, exist_ok=True)] and
    [path.symlink_to(target)]; [None] stands for an [OSError]. *)
Variable mkdir : gset string → Path.t → option (gset string).
Variable mkdir_parents : gset string → string → option (gset string).
Variable symlink_to : gset string → Path.t → Path.t → option (gset string).

(** [Symlinker.create_media_directory] *)
Definition create_media_directory (fs : gset string) (media : entity)
    : option (gset string * Path.t) :=
  let media_path := Media_get_path media library_base separate_anime in
  match mkdir fs media_path with
  | Some fs' => Some (fs', media_path)
  | None => None
  end.

(** [Symlinker.format_symlink_path]: the file system it leaves, and its
    result.  [get_unique_filename] always returns
    ([get_unique_filename_total]). *)
Definition format_symlink_path (fs : gset string) (st : store)
    (media_file : entity) : gset string * symlink_result :=
  match media_of st media_file with
  | None =>
      (fs, RaisesValueError
             ("MediaFile (id=" +:+ Py.str (getattr media_file "id")
              +:+ ") is not associated with any Media entity"))
  | Some media =>
      match create_media_directory fs media with
      | None => (fs, RaisesOSError)
      | Some (fs', media_path) =>
          let file_path :=
            Path_of_str
              (Path.str media_path +:+ "/"
               +:+ default EmptyString (MediaFile_get_path st media_file)) in
          match get_unique_filename fs' file_path true with
          | Some (FullPath unique_path) => (fs', Returns (Some unique_path))
          | _ => (fs', Returns None)
          end
      end
  end.

(** [Symlinker.create_symlink], on the media file of key [id]: the file
    system and the session it leaves, and its result. *)
Definition create_symlink (fs : gset string) (st : store) (id : Z)
    (media_file : entity) : gset string * store * symlink_result :=
  let symlink_path := getattr media_file "symlink_path" in
  if truthy symlink_path && Path.exists_ fs (Path_of_str (Py.str symlink_path))
  then (fs, st, Returns (Some (Path_of_str (Py.str symlink_path))))
  else
    let target_path :=
      Path_of_str (Py.str (getattr media_file "target_path")) in
    if negb (Path.exists_ fs target_path)
    then (fs, st,
          RaisesFileNotFoundError
            ("Target file not found: " +:+ Path.str target_path))
    else
      match format_symlink_path fs st media_file with
      | (fs1, Returns (Some symlink_path)) =>
          match mkdir_parents fs1 (Path.parent symlink_path) with
          | None => (fs1, st, Returns None)
          | Some fs2 =>
              match symlink_to fs2 symlink_path target_path with
              | None => (fs2, st, Returns None)
              | Some fs3 =>
                  (fs3,
                   Repository.update st (FileRef id)
                     {["symlink_path" := PStr (Path.str symlink_path)]},
                   Returns (Some symlink_path))
              end
          end
      | (fs1, result) => (fs1, st, result)
      end.

End symlinker.

(** A file system for the samples of the symlinker, on which every
    operation succeeds. *)
Module SymlinkSamples.

Definition fs : gset string := {[ "/downloads/matrix/a.mkv" ]}.

Definition mkdir (fs : gset string) (path : Path.t) : option (gset string) :=
  Some ({[ Path.str path ]} ∪ fs).

Definition mkdir_parents (fs : gset string) (path : string)
    : option (gset string) :=
  Some ({[ path ]} ∪ fs).

Definition symlink_to (fs : gset string) (path target : Path.t)
    : option (gset string) :=
  Some ({[ Path.str path ]} ∪ fs).

(** The session of the file the samples link: a file of The Matrix. *)
Definition session : store :=
  Store {["0133093" := Samples.matrix]} ∅
        {[1 := Samples.file_row 1 "a.mkv" (PStr "0133093")]}.

End SymlinkSamples.

(** ** Reading the references *)

(** The media reference of a row, when it is set, is the key of a media of
    the table. *)
Definition ref_ok (table : gmap string entity) (e : entity) : Prop :=
  ∀ id, getattr e "media_id" = PStr id → is_Some (table !! id).

(** No torrent and no media file of the session refers to a media that the
    session does not have. *)
Definition refs_ok (st : store) : Prop :=
  (∀ k t, torrents st !! k = Some t → ref_ok (media st) t) ∧
  (∀ k f, mediafiles st !! k = Some f → ref_ok (media st) f).

(** A service that has one record, for the samples. *)
Module RetrievalSamples.

Definition get_movie (imdb_id : string) : outcome (option movie) :=
  if bool_decide (imdb_id = "0133093")
  then Ok (Some (Movie (PStr "The Matrix") (PInt 1999) (PStr "movie")
                   (Some ["Action"; "Sci-Fi"]) (Some ["United States"])))
  else Ok None.

End RetrievalSamples.

(** ** The linking loop of [__main__.main] *)

(** [file.file_size], an integer: the column is not nullable. *)
Definition file_size_of (f : entity) : Z :=
  match getattr f "file_size" with PInt z => z | _ => 0 end.

(** [sorted(files, key=lambda file: file.file_size, reverse=True)]: by
    decreasing size, files of equal size in the order they had. *)
Fixpoint insert_by_size (x : Z * entity) (l : list (Z * entity))
    : list (Z * entity) :=
  match l with
  | [] => [x]
  | y :: l' =>
      if file_size_of y.2 <? file_size_of x.2 then x :: y :: l'
      else y :: insert_by_size x l'
  end.

Definition sorted_by_size (l : list (Z * entity)) : list (Z * entity) :=
  foldl (λ acc x, insert_by_size x acc) [] l.

(** [torrent.files] *)
Definition files_of (st : store) (tid : Z) : list (Z * entity) :=
  filter (λ row, in_torrent tid row.2 = true) (map_to_list (mediafiles st)).

(** How the loop ends: it completes, and the session is committed; or a
    call raises, the session is rolled back and the exception leaves
    [main]. *)
Inductive link_run :=
| Completed (fs : gset string) (st : store)
| Aborted (fs : gset string) (result : symlink_result).

Section main_loop.

Variable library_base : string.
Variable separate_anime : bool.
Variable mkdir : gset string → Path.t → option (gset string).
Variable mkdir_parents : gset string → string → option (gset string).
Variable symlink_to : gset string → Path.t → Path.t → option (gset string).

(** The body of the inner loop, on the media file of key [id] as it is in
    the session when the loop reaches it. *)
Definition link_file (fs : gset string) (st : store) (row : Z * entity)
    : link_run :=
  let media_file := default row.2 (mediafiles st !! row.1) in
  if negb (truthy (getattr media_file "symlink_path"))
  then
    match create_symlink library_base separate_anime mkdir mkdir_parents
            symlink_to fs st row.1 media_file with
    | (fs', st', Returns _) => Completed fs' st'
    | (fs', _, result) => Aborted fs' result
    end
  else Completed fs st.

(** The inner loop. *)
Fixpoint link_files (rows : list (Z * entity)) (fs : gset string)
    (st : store) : link_run :=
  match rows with
  | [] => Completed fs st
  | row :: rows' =>
      match link_file fs st row with
      | Completed fs' st' => link_files rows' fs' st'
      | Aborted fs' result => Aborted fs' result
      end
  end.

(** The outer loop. *)
Fixpoint link_torrents (rows : list (Z * entity)) (fs : gset string)
    (st : store) : link_run :=
  match rows with
  | [] => Completed fs st
  | torrent :: rows' =>
      match link_files (sorted_by_size (files_of st torrent.1)) fs st with
      | Completed fs' st' => link_torrents rows' fs' st'
      | Aborted fs' result => Aborted fs' result
      end
  end.

(** The linking loop of [main]. *)
Definition main_link_loop (fs : gset string) (st : store) : link_run :=
  link_torrents (Repository_get_all st) fs st.

End main_loop.

(** ** Reading the categories *)

(** The directory name [Media.get_path] files a media under. *)
Definition media_category (media : entity) (separate_anime : bool) : string :=
  if is_movie media
  then (if truthy (getattr media "anime") && separate_anime
        then "anime_movies" else "movies")
  else (if truthy (getattr media "anime") && separate_anime
        then "anime_shows" else "shows").

(** The directory names a [Categories] scans. *)
Definition category_names (c : Categories.t) : list string :=
  if Categories.separate_animes c
  then [Categories.movies c; Categories.shows c; Categories.anime_movies c;
        Categories.anime_shows c]
  else [Categories.movies c; Categories.shows c].

(* ================================================================== *)
(** * Properties *)

(** ** Python values *)

Section py_lemmas.

Lemma is_none_true v : is_none v = true ↔ v = PNone.
Proof. destruct v; simpl; split; congruence. Qed.

Lemma is_none_false v : is_none v = false ↔ v ≠ PNone.
Proof. destruct v; simpl; split; congruence. Qed.

Lemma truthy_not_none v : truthy v = true → v ≠ PNone.
Proof. by destruct v. Qed.

Lemma truthy_or a b : truthy (or_ a b) = truthy a || truthy b.
Proof. unfold or_. by destruct (truthy a) eqn:E. Qed.

Lemma getattr_setattr_eq e k v : getattr (setattr e k v) k = v.
Proof. unfold getattr, setattr. by rewrite lookup_insert_eq. Qed.

Lemma getattr_setattr_ne e k k' v :
  k ≠ k' → getattr (setattr e k v) k' = getattr e k'.
Proof. intros. unfold getattr, setattr. by rewrite lookup_insert_ne. Qed.

End py_lemmas.

(** ** The entity store *)

Section store_lemmas.

Lemma first_match_Some `{Countable K} cond (table : gmap K entity) k e :
  first_match cond table = Some (k, e) → table !! k = Some e ∧ cond e = true.
Proof.
  unfold first_match. intros Hhd.
  apply head_Some_elem_of in Hhd.
  apply list_elem_of_filter in Hhd as [Hc Hin].
  by apply elem_of_map_to_list in Hin.
Qed.

Lemma first_match_None `{Countable K} cond (table : gmap K entity) :
  first_match cond table = None ↔ ∀ k e, table !! k = Some e → cond e = false.
Proof.
  unfold first_match. rewrite head_None. split.
  - intros Hnil k e Hk. destruct (cond e) eqn:Hc; [|done].
    assert ((k, e) ∈ filter (λ row : K * entity, cond row.2 = true)
              (map_to_list table)) as Hin.
    { apply list_elem_of_filter. split; [done|]. by apply elem_of_map_to_list. }
    rewrite Hnil in Hin. by apply not_elem_of_nil in Hin.
  - intros Hall.
    destruct (filter _ (map_to_list table)) as [|[k e] l] eqn:E; [done|].
    assert ((k, e) ∈ filter (λ row : K * entity, cond row.2 = true)
              (map_to_list table)) as Hin by (rewrite E; left).
    apply list_elem_of_filter in Hin as [Hc Hin%elem_of_map_to_list].
    simpl in Hc. rewrite (Hall _ _ Hin) in Hc. done.
Qed.

Lemma first_match_is_Some `{Countable K} cond (table : gmap K entity) k e :
  table !! k = Some e → cond e = true → is_Some (first_match cond table).
Proof.
  intros Hk Hc. destruct (first_match cond table) eqn:E; [by eexists|].
  rewrite first_match_None in E. rewrite (E _ _ Hk) in Hc. done.
Qed.

Lemma fresh_key_bound (table : gmap Z entity) k :
  is_Some (table !! k) → k < fresh_key table.
Proof.
  unfold fresh_key.
  revert k. apply (map_fold_weak_ind (λ r (m : gmap Z entity),
    ∀ k, is_Some (m !! k) → k < 1 + r) (λ k _ acc, Z.max k acc)).
  - intros k [? Hk]. by rewrite lookup_empty in Hk.
  - intros i x m r Hi IH k [y Hk].
    destruct (decide (i = k)) as [->|Hne]; [lia|].
    rewrite lookup_insert_ne in Hk by done.
    specialize (IH k (ex_intro _ y Hk)). lia.
Qed.

Lemma fresh_key_fresh (table : gmap Z entity) : table !! fresh_key table = None.
Proof.
  destruct (table !! fresh_key table) eqn:E; [|done].
  pose proof (fresh_key_bound table (fresh_key table) (ex_intro _ _ E)). lia.
Qed.

(** What [EntityHandler.update] leaves in each attribute. *)
Lemma update_getattr e kwargs key :
  getattr (EntityHandler.update e kwargs) key =
  if is_none (getattr e key) then default PNone (kwargs !! key)
  else getattr e key.
Proof.
  unfold EntityHandler.update. revert key.
  apply (map_fold_weak_ind (λ r (m : gmap string val),
    ∀ key, getattr r key =
      if is_none (getattr e key) then default PNone (m !! key)
      else getattr e key) EntityHandler.update_step).
  - intros key. rewrite lookup_empty. simpl. by destruct (is_none _) eqn:E;
      [apply is_none_true in E|].
  - intros i x m r Hi IH key. unfold EntityHandler.update_step.
    pose proof (IH i) as IHi. rewrite Hi in IHi. simpl in IHi.
    destruct (decide (i = key)) as [->|Hne].
    + rewrite lookup_insert_eq. simpl.
      destruct (is_none (getattr e key)) eqn:Ee.
      * rewrite IHi. simpl. apply getattr_setattr_eq.
      * rewrite IHi, Ee. done.
    + rewrite lookup_insert_ne by done.
      destruct (is_none (getattr r i)).
      * rewrite getattr_setattr_ne by done. apply IH.
      * apply IH.
Qed.

Lemma update_keeps_set e kwargs key :
  getattr e key ≠ PNone →
  getattr (EntityHandler.update e kwargs) key = getattr e key.
Proof.
  intros Hset. rewrite update_getattr.
  apply is_none_false in Hset. by rewrite Hset.
Qed.

Lemma update_fills_unset e kwargs key :
  getattr e key = PNone →
  getattr (EntityHandler.update e kwargs) key = default PNone (kwargs !! key).
Proof.
  intros Hunset. rewrite update_getattr.
  apply is_none_true in Hunset. by rewrite Hunset.
Qed.

(** The target of a store update is afterwards its own filled copy,
    whatever the class: the side effects of the two overriding handlers
    write to other rows only. *)
Lemma repository_update_target st r kwargs e :
  deref st r = Some e →
  deref (Repository.update st r kwargs) r = Some (EntityHandler.update e kwargs).
Proof.
  destruct r as [id|id|id]; simpl; intros He.
  - rewrite He. simpl. apply lookup_insert_eq.
  - unfold TorrentHandler.update. rewrite He.
    destruct (_ && _).
    + unfold TorrentHandler._propagate_media_id_to_files. simpl.
      rewrite lookup_insert_eq.
      destruct (negb _); simpl; apply lookup_insert_eq.
    + simpl. apply lookup_insert_eq.
  - unfold MediaFileHandler.update. rewrite He.
    destruct (torrent_of _ _) as [[tid t]|]; [destruct (media_of _ _)|];
      simpl; apply lookup_insert_eq.
Qed.

End store_lemmas.

(** ** Fill-only update *)

(** C1.  A store update, on an entity of any class and for any attribute,
    leaves an attribute that is already set as it is and gives an unset one
    the value passed for it (none when the call names no value for it); so
    an attribute changes only when it was [None].  In particular a media
    file whose season is unset takes "01" from a first update and keeps it
    through a second update that passes "02". *)
Theorem fill_only_update :
  (∀ st r kwargs e,
     deref st r = Some e →
     ∃ e', deref (Repository.update st r kwargs) r = Some e' ∧
       ∀ key,
         (getattr e key ≠ PNone → getattr e' key = getattr e key) ∧
         (getattr e key = PNone →
            getattr e' key = default PNone (kwargs !! key)) ∧
         (getattr e' key ≠ getattr e key → getattr e key = PNone)) ∧
  (∀ st id f,
     mediafiles st !! id = Some f →
     getattr f "season" = PNone →
     let st1 := Repository.update st (FileRef id) {["season" := PStr "01"]} in
     let st2 := Repository.update st1 (FileRef id) {["season" := PStr "02"]} in
     (∃ f1, mediafiles st1 !! id = Some f1 ∧ getattr f1 "season" = PStr "01") ∧
     (∃ f2, mediafiles st2 !! id = Some f2 ∧ getattr f2 "season" = PStr "01")).
Proof.
  split.
  - intros st r kwargs e He.
    exists (EntityHandler.update e kwargs). split.
    + by apply repository_update_target.
    + intros key. split; [|split].
      * apply update_keeps_set.
      * apply update_fills_unset.
      * intros Hchg. destruct (is_none (getattr e key)) eqn:E.
        -- by apply is_none_true.
        -- apply is_none_false in E. by rewrite update_keeps_set in Hchg.
  - intros st id f Hf Hseason st1 st2.
    pose proof (repository_update_target st (FileRef id)
                  {["season" := PStr "01"]} f Hf) as H1.
    fold st1 in H1. simpl in H1.
    pose proof (repository_update_target st1 (FileRef id)
                  {["season" := PStr "02"]} _ H1) as H2.
    fold st2 in H2. simpl in H2.
    assert (getattr (EntityHandler.update f {["season" := PStr "01"]}) "season"
            = PStr "01") as Hs1.
    { rewrite update_fills_unset by done. by rewrite lookup_singleton_eq. }
    split.
    + eexists. split; [exact H1|exact Hs1].
    + eexists. split; [exact H2|].
      rewrite update_keeps_set; [exact Hs1|]. by rewrite Hs1.
Qed.

(** ** Fan-out of a torrent's media reference *)

Section fan_out.

(** What the loop of [_propagate_media_id_to_files] does to a file. *)
Lemma propagate_lookup st tid t fid :
  torrents st !! tid = Some t →
  truthy (getattr t "media_id") = true →
  mediafiles (TorrentHandler._propagate_media_id_to_files st tid) !! fid =
  (λ f, if in_torrent tid f
        then setattr f "media_id" (getattr t "media_id") else f)
    <$> mediafiles st !! fid.
Proof.
  intros Ht Hm. unfold TorrentHandler._propagate_media_id_to_files.
  rewrite Ht, Hm. simpl. apply lookup_fmap.
Qed.

(** When an update moves a torrent's media reference from unset to a
    value, every file of the torrent holds that value afterwards, whether
    or not it was linked before. *)
Lemma torrent_update_fan_out st tid t kwargs m fid f :
  torrents st !! tid = Some t →
  getattr t "media_id" = PNone →
  kwargs !! "media_id" = Some m →
  truthy m = true →
  mediafiles st !! fid = Some f →
  in_torrent tid f = true →
  mediafiles (Repository.update st (TorrentRef tid) kwargs) !! fid =
  Some (setattr f "media_id" m).
Proof.
  intros Ht Hold Hkw Hm Hf Hin. simpl. unfold TorrentHandler.update.
  rewrite Ht, Hold. simpl.
  assert (getattr (EntityHandler.update t kwargs) "media_id" = m) as Hnew.
  { rewrite update_fills_unset by done. by rewrite Hkw. }
  rewrite Hnew.
  assert (is_none m = false) as ->.
  { apply is_none_false. by apply truthy_not_none. }
  simpl. erewrite propagate_lookup.
  - simpl. rewrite Hf. simpl. by rewrite Hin, Hnew.
  - simpl. apply lookup_insert_eq.
  - by rewrite Hnew.
Qed.

End fan_out.

(** C2.  The fan-out as the code performs it, on a torrent with an unlinked
    file and a file already linked to "0944947": once the torrent's media
    reference moves from unset to "0133093", the unlinked file holds
    "0133093", and so does the file that was linked, whose former reference
    is lost. *)
Theorem torrent_update_relinks_linked_file :
  let st' := Repository.update Samples.fanout_session (TorrentRef 1)
               {["media_id" := PStr "0133093"]} in
  (λ f, getattr f "media_id") <$> mediafiles Samples.fanout_session !! 1
    = Some PNone ∧
  (λ f, getattr f "media_id") <$> mediafiles Samples.fanout_session !! 2
    = Some (PStr "0944947") ∧
  (λ t, getattr t "media_id") <$> torrents st' !! 1 = Some (PStr "0133093") ∧
  (λ f, getattr f "media_id") <$> mediafiles st' !! 1 = Some (PStr "0133093") ∧
  (λ f, getattr f "media_id") <$> mediafiles st' !! 2 = Some (PStr "0133093").
Proof. vm_compute. repeat split. Qed.

(** ** Back-fill of the parent torrent from a file *)

(** After the inherited update of a file that has both a torrent and a
    media, the torrent's media reference is the file's, whatever it was. *)
Lemma mediafile_update_backfill st id f kwargs tid t m :
  mediafiles st !! id = Some f →
  let f' := EntityHandler.update f kwargs in
  getattr f' "torrent_id" = PInt tid →
  torrents st !! tid = Some t →
  media_of st f' = Some m →
  torrents (Repository.update st (FileRef id) kwargs) !! tid =
  Some (setattr t "media_id" (getattr f' "media_id")).
Proof.
  intros Hf f' Htid Ht Hm. simpl. unfold MediaFileHandler.update.
  rewrite Hf. fold f'. unfold torrent_of, media_of in *. simpl.
  rewrite Htid, Ht. simpl.
  destruct (getattr f' "media_id"); try done.
  rewrite Hm. simpl. apply lookup_insert_eq.
Qed.

(** C3.  The side effect of a media-file update as the code performs it, on
    a torrent already resolved to "0133093" whose file is linked to
    "0944947": an update of the file (here of its season) replaces the
    torrent's media reference by the file's. *)
Theorem mediafile_update_reassigns_torrent_media :
  let st' := Repository.update Samples.backfill_session (FileRef 1)
               {["season" := PStr "01"]} in
  (λ t, getattr t "media_id") <$> torrents Samples.backfill_session !! 1
    = Some (PStr "0133093") ∧
  (λ f, getattr f "media_id") <$> mediafiles st' !! 1 = Some (PStr "0944947") ∧
  (λ t, getattr t "media_id") <$> torrents st' !! 1 = Some (PStr "0944947").
Proof. vm_compute. repeat split. Qed.

(** ** Upsert of media files *)

Section upsert.

Lemma extract_attributes_lookup e key :
  default PNone (EntityHandler._extract_attributes e !! key) =
  if String.prefix "_" key then PNone else getattr e key.
Proof.
  unfold EntityHandler._extract_attributes, getattr.
  rewrite map_lookup_filter. destruct (e !! key) as [v|]; simpl.
  - destruct (String.prefix "_" key) eqn:Hp; simpl; [done|].
    by destruct v.
  - by destruct (String.prefix "_" key).
Qed.

Lemma mediafile_update_files st id f kwargs :
  mediafiles st !! id = Some f →
  mediafiles (MediaFileHandler.update st id kwargs) =
  <[id := EntityHandler.update f kwargs]> (mediafiles st).
Proof.
  intros Hf. unfold MediaFileHandler.update. rewrite Hf.
  destruct (torrent_of _ _) as [[tid t]|]; [destruct (media_of _ _)|]; done.
Qed.

Lemma get_by_path_lookup_path st e :
  MediaFileHandler.get_by_path st
    (or_ (getattr e "symlink_path") (getattr e "target_path")) =
  first_match (holds_path (lookup_path e)) (mediafiles st).
Proof. reflexivity. Qed.

End upsert.

(** C4, as amended.  [MediaFileHandler.add] looks the incoming entity up by
    one path, its symlink path when it has one and its target path
    otherwise.  When a stored row holds that path as target or symlink
    path, the insert merges into such a row: the row returned is one of
    them, each of its attributes keeps its value when set and otherwise
    takes the incoming entity's (non-private) attribute, no row is created
    and no other row changes.  When no stored row holds that path, the
    entity is inserted under a fresh key. *)
Theorem mediafile_upsert_by_lookup_path st e :
  let st' := (MediaFileHandler.add st e).1 in
  let id := (MediaFileHandler.add st e).2 in
  ((∃ k x, mediafiles st !! k = Some x ∧ holds_path (lookup_path e) x = true) →
     ∃ x x',
       mediafiles st !! id = Some x ∧ holds_path (lookup_path e) x = true ∧
       mediafiles st' !! id = Some x' ∧
       (∀ key, getattr x' key =
                 if is_none (getattr x key)
                 then (if String.prefix "_" key then PNone else getattr e key)
                 else getattr x key) ∧
       dom (mediafiles st') = dom (mediafiles st) ∧
       (∀ k, k ≠ id → mediafiles st' !! k = mediafiles st !! k)) ∧
  ((∀ k x, mediafiles st !! k = Some x → holds_path (lookup_path e) x = false) →
     mediafiles st !! id = None ∧
     mediafiles st' = <[id := setattr e "id" (PInt id)]> (mediafiles st)).
Proof.
  intros st' id. subst st' id. unfold MediaFileHandler.add.
  rewrite get_by_path_lookup_path. split.
  - intros (k & x & Hk & Hp).
    destruct (first_match_is_Some _ _ _ _ Hk Hp) as [[id x0] Hfm].
    rewrite Hfm. simpl.
    apply first_match_Some in Hfm as [Hid Hp0].
    exists x0, (EntityHandler.update x0 (EntityHandler._extract_attributes e)).
    rewrite (mediafile_update_files _ _ _ _ Hid).
    split; [done|]. split; [done|]. split; [apply lookup_insert_eq|].
    split; [|split].
    + intros key. rewrite update_getattr.
      by rewrite extract_attributes_lookup.
    + apply dom_insert_lookup_L. by eexists.
    + intros k' Hne. by rewrite lookup_insert_ne.
  - intros Hnone. apply first_match_None in Hnone. rewrite Hnone. simpl.
    split; [apply fresh_key_fresh|done].
Qed.

(** The merge case of the upsert at the torrent scanner's view of a file
    the session already holds. *)
Lemma mediafile_upsert_by_lookup_path_witness :
  let st' := (MediaFileHandler.add Samples.plain_session Samples.torrent_file).1 in
  let id := (MediaFileHandler.add Samples.plain_session Samples.torrent_file).2 in
  ∃ x x',
    mediafiles Samples.plain_session !! id = Some x ∧
    holds_path (lookup_path Samples.torrent_file) x = true ∧
    mediafiles st' !! id = Some x' ∧
    (∀ key, getattr x' key =
              if is_none (getattr x key)
              then (if String.prefix "_" key then PNone
                    else getattr Samples.torrent_file key)
              else getattr x key) ∧
    dom (mediafiles st') = dom (mediafiles Samples.plain_session) ∧
    (∀ k, k ≠ id → mediafiles st' !! k = mediafiles Samples.plain_session !! k).
Proof.
  apply (proj1 (mediafile_upsert_by_lookup_path Samples.plain_session
                  Samples.torrent_file)).
  exists 1, (Samples.file_row 1 "a.mkv" PNone). split; vm_compute; reflexivity.
Defined.

(** C4, as the specification states it, fails: the session holds a file
    with target path "/downloads/matrix/a.mkv"; the library's symbolic link
    to that file carries the same target path, but is looked up by its
    symlink path, so it is inserted as a second row with that target path. *)
Lemma upsert_duplicates_target_path :
  let st' := (MediaFileHandler.add Samples.plain_session Samples.library_link).1 in
  let id := (MediaFileHandler.add Samples.plain_session Samples.library_link).2 in
  (∃ x, mediafiles Samples.plain_session !! 1 = Some x
        ∧ shares_path Samples.library_link x) ∧
  id = 2 ∧
  size (mediafiles st') = 2%nat ∧
  (λ f, getattr f "target_path") <$> mediafiles st' !! 1
    = Some (PStr "/downloads/matrix/a.mkv") ∧
  (λ f, getattr f "target_path") <$> mediafiles st' !! 2
    = Some (PStr "/downloads/matrix/a.mkv").
Proof.
  split.
  - eexists. split; [reflexivity|].
    exists "/downloads/matrix/a.mkv". split; [left|]; vm_compute; reflexivity.
  - vm_compute. repeat split.
Qed.

(** ** Strings *)

Section string_lemmas.

Lemma list_ascii_app s1 s2 :
  String.list_ascii_of_string (s1 +:+ s2) =
  String.list_ascii_of_string s1 ++ String.list_ascii_of_string s2.
Proof.
  induction s1 as [|c s1 IH]; [done|].
  change (String c s1 +:+ s2) with (String c (s1 +:+ s2)).
  simpl. by rewrite IH.
Qed.

Lemma list_ascii_inj s1 s2 :
  String.list_ascii_of_string s1 = String.list_ascii_of_string s2 → s1 = s2.
Proof.
  intros Heq.
  rewrite <- (String.string_of_list_ascii_of_string s1), Heq.
  apply String.string_of_list_ascii_of_string.
Qed.

Lemma string_app_inv_tail s1 s2 t : s1 +:+ t = s2 +:+ t → s1 = s2.
Proof.
  intros Heq. apply list_ascii_inj.
  apply (f_equal String.list_ascii_of_string) in Heq.
  rewrite !list_ascii_app in Heq. by apply app_inv_tail in Heq.
Qed.

Lemma string_app_inv_head s t1 t2 : s +:+ t1 = s +:+ t2 → t1 = t2.
Proof. apply (inj (String.app s)). Qed.

End string_lemmas.

(** ** Collision versioning *)

Section versioning.

Variable fs : gset string.
Variable p : Path.t.

Lemma new_filename_inj base_name extension n m :
  new_filename base_name extension n = new_filename base_name extension m →
  n = m.
Proof.
  unfold new_filename. intros Heq.
  apply string_app_inv_head, string_app_inv_head in Heq.
  apply string_app_inv_tail in Heq. by apply (inj pretty) in Heq.
Qed.

Lemma versioned_str_inj n m :
  Path.str (versioned p n) = Path.str (versioned p m) → n = m.
Proof.
  unfold Path.str, versioned. simpl. intros Heq.
  apply string_app_inv_head, string_app_inv_head in Heq.
  by apply new_filename_inj in Heq.
Qed.

(** Not every one of [size fs + 1] successive versions can be taken. *)
Lemma versions_not_all_taken v :
  ¬ ∀ k, (v ≤ k < v + S (size fs))%nat →
         Path.exists_ fs (versioned p k) = true.
Proof.
  intros Hall.
  set (names := (λ k, Path.str (versioned p k)) <$> seq v (S (size fs))).
  assert (NoDup names) as Hnd.
  { apply NoDup_fmap_2_strong; [|apply NoDup_seq].
    intros n m _ _. apply versioned_str_inj. }
  assert (list_to_set names ⊆ fs) as Hsub.
  { intros x Hx. apply elem_of_list_to_set in Hx.
    apply list_elem_of_fmap in Hx as (k & -> & Hk).
    apply elem_of_seq in Hk.
    specialize (Hall k ltac:(lia)). unfold Path.exists_ in Hall.
    by apply bool_decide_eq_true in Hall. }
  apply subseteq_size in Hsub.
  rewrite size_list_to_set in Hsub by done.
  unfold names in Hsub. rewrite length_fmap, length_seq in Hsub. lia.
Qed.

(** Among the versions from [v] on there is a first free one, within
    [size fs + 1] steps. *)
Lemma first_free_version v :
  ∃ n, (v ≤ n < v + S (size fs))%nat ∧
       Path.exists_ fs (versioned p n) = false ∧
       ∀ k, (v ≤ k < n)%nat → Path.exists_ fs (versioned p k) = true.
Proof.
  assert (∀ m,
    (∀ k, (v ≤ k < v + m)%nat → Path.exists_ fs (versioned p k) = true) ∨
    (∃ n, (v ≤ n < v + m)%nat ∧
          Path.exists_ fs (versioned p n) = false ∧
          ∀ k, (v ≤ k < n)%nat → Path.exists_ fs (versioned p k) = true))
    as Hsearch.
  { induction m as [|m [IH|IH]].
    - left. intros k Hk. lia.
    - destruct (Path.exists_ fs (versioned p (v + m))) eqn:E.
      + left. intros k Hk.
        destruct (decide (k = v + m)%nat) as [->|]; [done|]. apply IH. lia.
      + right. exists (v + m)%nat. split; [lia|]. split; [done|].
        intros k Hk. apply IH. lia.
    - right. destruct IH as (n & Hn & Hfree & Hbelow).
      exists n. split; [lia|done]. }
  destruct (Hsearch (S (size fs))) as [Hall|Hfound]; [|done].
  by apply versions_not_all_taken in Hall.
Qed.

(** The loop returns the first free version at or after the one it is
    started at, when its fuel reaches that far. *)
Lemma version_loop_first_free full fuel v n :
  (v ≤ n < v + fuel)%nat →
  Path.exists_ fs (versioned p n) = false →
  (∀ k, (v ≤ k < n)%nat → Path.exists_ fs (versioned p k) = true) →
  version_loop fs (Path.parent p) (Path.stem p) (Path.suffix p) full fuel v =
  Some (if full then FullPath (versioned p n)
        else FileName (Path.name (versioned p n))).
Proof.
  revert v. induction fuel as [|fuel IH]; intros v Hn Hfree Hbelow; [lia|].
  simpl. fold (versioned p v).
  destruct (decide (v = n)) as [->|Hne].
  - by rewrite Hfree.
  - rewrite (Hbelow v) by lia. simpl.
    apply IH; [lia|done|]. intros k Hk. apply Hbelow. lia.
Qed.

(** The bound on the loop is never reached: a result is always returned. *)
Lemma get_unique_filename_total full :
  is_Some (get_unique_filename fs p full).
Proof.
  unfold get_unique_filename.
  destruct (Path.exists_ fs p); cbn [negb]; [|by eexists].
  destruct (first_free_version 2) as (n & Hn & Hfree & Hbelow).
  rewrite (version_loop_first_free full _ 2 n); [by eexists|lia|done|done].
Qed.

End versioning.

(** C6.  [get_unique_filename] returns the exact name when no file exists
    at it.  Otherwise it returns the name of version [n], the stem followed
    by " - v[n]" and the extension, where [n] is the first free integer from
    2 on: version [n] is free and every version from 2 up to [n] is taken,
    the loop having tried them in increasing order.  So with only the exact
    name taken the result carries " - v2", and with " - v2" taken as well it
    carries " - v3", as for "Show (2020) {imdb-tt1} - s01e01.mkv". *)
Theorem get_unique_filename_first_free_version :
  (∀ fs p full,
     Path.exists_ fs p = false →
     get_unique_filename fs p full =
     Some (if full then FullPath p else FileName (Path.name p))) ∧
  (∀ fs p full,
     Path.exists_ fs p = true →
     ∃ n, (2 ≤ n)%nat ∧
       get_unique_filename fs p full =
       Some (if full then FullPath (versioned p n)
             else FileName (Path.stem p +:+ " - v" +:+ pretty n
                            +:+ Path.suffix p)) ∧
       Path.exists_ fs (versioned p n) = false ∧
       ∀ k, (2 ≤ k < n)%nat → Path.exists_ fs (versioned p k) = true) ∧
  (∀ fs p full,
     Path.exists_ fs p = true →
     Path.exists_ fs (versioned p 2) = false →
     get_unique_filename fs p full =
     Some (if full then FullPath (versioned p 2)
           else FileName (Path.stem p +:+ " - v2" +:+ Path.suffix p))) ∧
  (∀ fs p full,
     Path.exists_ fs p = true →
     Path.exists_ fs (versioned p 2) = true →
     Path.exists_ fs (versioned p 3) = false →
     get_unique_filename fs p full =
     Some (if full then FullPath (versioned p 3)
           else FileName (Path.stem p +:+ " - v3" +:+ Path.suffix p))) ∧
  get_unique_filename UniqueSamples.one_taken UniqueSamples.episode false =
    Some (FileName "Show (2020) {imdb-tt1} - s01e01 - v2.mkv") ∧
  get_unique_filename UniqueSamples.two_taken UniqueSamples.episode false =
    Some (FileName "Show (2020) {imdb-tt1} - s01e01 - v3.mkv").
Proof.
  split; [|split; [|split; [|split; [|split]]]].
  - intros fs p full Hfree. unfold get_unique_filename. by rewrite Hfree.
  - intros fs p full Htaken. unfold get_unique_filename. rewrite Htaken.
    cbn [negb].
    destruct (first_free_version fs p 2) as (n & Hn & Hfree & Hbelow).
    exists n. split; [lia|]. split; [|done].
    rewrite (version_loop_first_free fs p full _ 2 n); [done|lia|done|done].
  - intros fs p full Htaken Hfree. unfold get_unique_filename.
    rewrite Htaken. cbn [negb].
    rewrite (version_loop_first_free fs p full _ 2 2);
      [by destruct full|lia|done|intros k Hk; lia].
  - intros fs p full Htaken Htaken2 Hfree. unfold get_unique_filename.
    rewrite Htaken. cbn [negb].
    destruct (first_free_version fs p 2) as (n & Hn & Hfree' & Hbelow).
    assert (n = 3%nat) as ->.
    { destruct (decide (n = 2%nat)) as [->|]; [congruence|].
      destruct (decide (n = 3%nat)) as [->|]; [done|].
      rewrite (Hbelow 3%nat) in Hfree by lia. done. }
    rewrite (version_loop_first_free fs p full _ 2 3);
      [by destruct full|lia|done|done].
  - vm_compute. reflexivity.
  - vm_compute. reflexivity.
Qed.

(** ** Classification of torrent names *)

Lemma determine_media_type_show parsed_data :
  Parser._determine_media_type parsed_data = "show" ↔
  truthy (Parser.get parsed_data "seasons") = true
  ∨ truthy (Parser.get parsed_data "episode") = true.
Proof.
  unfold Parser._determine_media_type. rewrite truthy_or.
  destruct (truthy (Parser.get parsed_data "seasons")),
           (truthy (Parser.get parsed_data "episode")); simpl;
    intuition congruence.
Qed.

Lemma determine_media_type_movie parsed_data :
  Parser._determine_media_type parsed_data = "movie" ↔
  ¬ (truthy (Parser.get parsed_data "seasons") = true
     ∨ truthy (Parser.get parsed_data "episode") = true).
Proof.
  unfold Parser._determine_media_type. rewrite truthy_or.
  destruct (truthy (Parser.get parsed_data "seasons")),
           (truthy (Parser.get parsed_data "episode")); simpl;
    intuition congruence.
Qed.

Lemma truthy_holds_items v :
  field_shape v → truthy v = true ↔ holds_items v.
Proof.
  intros [->|[[l ->]|[s ->]]]; unfold holds_items; simpl.
  - split; [done|]. intros [(x & l & ?)|(c & s & ?)]; done.
  - destruct l as [|x l]; split; try done.
    + intros [(x & l & ?)|(c & s & ?)]; done.
    + intros _. left. by exists x, l.
  - destruct s as [|c s]; split; try done.
    + intros [(x & l & ?)|(c & s & ?)]; done.
    + intros _. right. by exists c, s.
Qed.

(** C9.  For every result of the free-form parser whose "title", "seasons"
    and "episode" entries are absent, lists or strings, [parse_torrent]
    fails with a [ValueError] when no title was extracted (the entry is
    absent or empty); otherwise it returns the title and year of the result
    and classifies the name as "show" exactly when season metadata or
    single-episode metadata is present (the "seasons" or the "episode"
    entry holds something), and as "movie" exactly when neither is. *)
Theorem parse_torrent_classifies (parse_title : string → gmap string val) name :
  let parsed := parse_title name in
  field_shape (Parser.get parsed "title") →
  field_shape (Parser.get parsed "seasons") →
  field_shape (Parser.get parsed "episode") →
  (¬ holds_items (Parser.get parsed "title") →
     ∃ msg, Parser.parse_torrent parse_title name = Raise (ValueError msg)) ∧
  (holds_items (Parser.get parsed "title") →
     ∃ info,
       Parser.parse_torrent parse_title name = Ok info ∧
       Parser.ti_title info = Parser.get parsed "title" ∧
       Parser.ti_year info = Parser.get parsed "year" ∧
       (Parser.ti_kind info = "show" ↔
          holds_items (Parser.get parsed "seasons")
          ∨ holds_items (Parser.get parsed "episode")) ∧
       (Parser.ti_kind info = "movie" ↔
          ¬ (holds_items (Parser.get parsed "seasons")
             ∨ holds_items (Parser.get parsed "episode")))).
Proof.
  intros parsed Htitle Hseasons Hepisode.
  pose proof (truthy_holds_items _ Htitle) as Ht.
  pose proof (truthy_holds_items _ Hseasons) as Hs.
  pose proof (truthy_holds_items _ Hepisode) as He.
  unfold Parser.parse_torrent. fold parsed. split.
  - intros Hno. destruct (truthy (Parser.get parsed "title")).
    + exfalso. by apply Hno, Ht.
    + simpl. by eexists.
  - intros Hyes%Ht. rewrite Hyes. simpl. eexists. split; [done|]. simpl.
    split; [done|]. split; [done|].
    pose proof (determine_media_type_show parsed) as Hshow.
    pose proof (determine_media_type_movie parsed) as Hmovie.
    tauto.
Qed.

(** ** Validation in the resolver *)

(** C10.  [get_imdb_id] raises a [ValueError] without having sent any query
    to the search service whenever the title is empty (or none) or the kind
    is neither "movie" nor "show". *)
Theorem get_imdb_id_validates_first
    (search_movie : string → outcome (list Resolver.search_result))
    (title year : val) (kind : string) :
  truthy title = false ∨ (kind ≠ "movie" ∧ kind ≠ "show") →
  ∃ msg,
    Resolver.get_imdb_id search_movie title year kind =
    Resolver.Run [] (Raise (ValueError msg)).
Proof.
  intros Hbad. unfold Resolver.get_imdb_id.
  destruct (truthy title) eqn:Ht; simpl; [|by eexists].
  destruct Hbad as [|[Hm Hs]]; [done|].
  rewrite bool_decide_eq_false_2; [by eexists|].
  unfold Resolver.VALID_TYPES. rewrite !elem_of_cons, elem_of_nil. tauto.
Qed.

(** With a title and a valid kind the service is asked once, so the
    validation is what keeps it from being contacted. *)
Lemma get_imdb_id_queries_once search_movie title year kind :
  truthy title = true → kind = "movie" ∨ kind = "show" →
  length (Resolver.queries
            (Resolver.get_imdb_id search_movie title year kind)) = 1%nat.
Proof.
  intros Ht Hk. unfold Resolver.get_imdb_id. rewrite Ht. simpl.
  rewrite bool_decide_eq_true_2
    by (unfold Resolver.VALID_TYPES; rewrite !elem_of_cons; tauto).
  simpl. by destruct (search_movie _).
Qed.

(** ** Selection of the files of a torrent *)

Section selection.

Variable st_size : Path.t → Z.
Variable parse_title : string → gmap string val.

(** The running maximum of [max]: the accumulator is the first largest
    file seen so far. *)
Lemma foldl_max_first pre best mid files :
  (∀ x, x ∈ pre → st_size x < st_size best) →
  (∀ x, x ∈ mid → st_size x ≤ st_size best) →
  let r := foldl (λ best file,
                    if st_size best <? st_size file then file else best)
                 best files in
  ∃ l1 l2, pre ++ best :: mid ++ files = l1 ++ r :: l2 ∧
           (∀ x, x ∈ l1 → st_size x < st_size r) ∧
           (∀ x, x ∈ l2 → st_size x ≤ st_size r).
Proof.
  revert pre best mid. induction files as [|y files IH]; intros pre best mid Hpre Hmid.
  - simpl. exists pre, mid. by rewrite app_nil_r.
  - simpl. destruct (Z.ltb_spec (st_size best) (st_size y)) as [Hlt|Hge].
    + destruct (IH (pre ++ best :: mid) y []) as (l1 & l2 & Heq & H1 & H2).
      * intros x [Hx|Hx]%elem_of_app.
        -- specialize (Hpre x Hx). lia.
        -- apply elem_of_cons in Hx as [->|Hx]; [done|].
           specialize (Hmid x Hx). lia.
      * intros x Hx. by apply elem_of_nil in Hx.
      * exists l1, l2. split; [|done]. rewrite <- Heq. simpl.
        by rewrite <- app_assoc.
    + destruct (IH pre best (mid ++ [y])) as (l1 & l2 & Heq & H1 & H2).
      * done.
      * intros x [Hx|Hx]%elem_of_app; [by apply Hmid|].
        apply list_elem_of_singleton in Hx as ->. done.
      * exists l1, l2. split; [|done]. rewrite <- Heq.
        by rewrite <- app_assoc.
Qed.

(** [max] returns a file of the list, no file is larger, and the files
    before it are strictly smaller. *)
Lemma max_by_size_first_largest files :
  files ≠ [] →
  ∃ largest l1 l2,
    max_by_size st_size files = Some largest ∧
    files = l1 ++ largest :: l2 ∧
    (∀ x, x ∈ l1 → st_size x < st_size largest) ∧
    (∀ x, x ∈ files → st_size x ≤ st_size largest).
Proof.
  destruct files as [|file files]; [done|]. intros _. simpl.
  destruct (foldl_max_first [] file [] files) as (l1 & l2 & Heq & H1 & H2).
  - intros x Hx. by apply elem_of_nil in Hx.
  - intros x Hx. by apply elem_of_nil in Hx.
  - simpl in Heq. eexists _, l1, l2. split; [done|]. split; [done|].
    split; [done|]. rewrite Heq. intros x [Hx|Hx]%elem_of_app.
    + specialize (H1 x Hx). lia.
    + apply elem_of_cons in Hx as [->|Hx]; [lia|by apply H2].
Qed.

Lemma index_show_files_filter torrent_id st files :
  foldl (index_show_file st_size parse_title torrent_id) st files =
  upsert_all st
    (episode_entity st_size parse_title torrent_id <$>
       filter (λ file, indexed_episode parse_title file = true) files).
Proof.
  unfold upsert_all.
  revert st. induction files as [|file files IH]; intros st; [done|].
  simpl. rewrite IH. clear IH.
  assert (index_show_file st_size parse_title torrent_id st file =
          if indexed_episode parse_title file
          then (MediaFileHandler.add st
                  (episode_entity st_size parse_title torrent_id file)).1
          else st) as ->.
  { unfold index_show_file, indexed_episode, episode_entity.
    by destruct (Parser.parse_torrent_episode parse_title (Path.name file)). }
  destruct (indexed_episode parse_title file) eqn:E.
  - by rewrite filter_cons_True.
  - rewrite filter_cons_False; [done|]. by rewrite E.
Qed.

End selection.

Lemma mediafile_add_fresh st e :
  (∀ k x, mediafiles st !! k = Some x → holds_path (lookup_path e) x = false) →
  MediaFileHandler.add st e =
  (Store (media st) (torrents st)
         (<[fresh_key (mediafiles st) :=
              setattr e "id" (PInt (fresh_key (mediafiles st)))]>
            (mediafiles st)),
   fresh_key (mediafiles st)).
Proof.
  intros Hnone. unfold MediaFileHandler.add.
  rewrite get_by_path_lookup_path.
  apply first_match_None in Hnone. by rewrite Hnone.
Qed.

Lemma movie_media_file_lookup_path st_size torrent_id target_path :
  lookup_path (movie_media_file st_size torrent_id target_path) =
  Path.str target_path.
Proof. reflexivity. Qed.

(** What [index_torrent] hands to the store's media-file upsert, for a
    file list that is not empty: for kind "movie", one media file, built
    from the first of the files of the largest size (a new row when no
    stored row holds its path); for kind "show", one media file for each
    file that passes the truth test [if season and episode], in the order
    of the list.  On an empty session, the files of 100, 200 and 50 bytes
    of a movie leave the 200-byte file as the only media file. *)
Lemma index_torrent_selects :
  (∀ (st_size : Path.t → Z) (parse_title : string → gmap string val)
     st torrent_path files title year,
     files ≠ [] →
     let added := TorrentHandler.add st
                    (Torrent_new (PStr (Path.str torrent_path)) title year) in
     let st1 := added.1 in
     let torrent_id := added.2 in
     (∃ largest l1 l2,
        files = l1 ++ largest :: l2 ∧
        (∀ x, x ∈ l1 → st_size x < st_size largest) ∧
        (∀ x, x ∈ files → st_size x ≤ st_size largest) ∧
        index_torrent st_size parse_title st torrent_path files "movie"
          title year =
        Ok (upsert_all st1 [movie_media_file st_size torrent_id largest]) ∧
        ((∀ k x, mediafiles st1 !! k = Some x →
                 holds_path (Path.str largest) x = false) →
         mediafiles
           (upsert_all st1 [movie_media_file st_size torrent_id largest]) =
         <[fresh_key (mediafiles st1) :=
             setattr (movie_media_file st_size torrent_id largest) "id"
               (PInt (fresh_key (mediafiles st1)))]> (mediafiles st1))) ∧
     index_torrent st_size parse_title st torrent_path files "show"
       title year =
     Ok (upsert_all st1
           (episode_entity st_size parse_title torrent_id <$>
              filter (λ file, indexed_episode parse_title file = true)
                     files))) ∧
  (∃ st',
     index_torrent ScanSamples.st_size ScanSamples.parse_title empty_store
       ScanSamples.movie_dir
       [ScanSamples.sample; ScanSamples.feature; ScanSamples.extra]
       "movie" (PStr "The Matrix") (PInt 1999) = Ok st' ∧
     (λ f, (getattr f "target_path", getattr f "file_size"))
       <$> mediafiles st' =
     {[1 := (PStr "/downloads/The.Matrix.1999/matrix.mkv", PInt 200)]}).
Proof.
  split.
  - intros st_size parse_title st torrent_path files title year Hne
      added st1 torrent_id.
    unfold index_torrent. fold added.
    rewrite (surjective_pairing added). fold st1 torrent_id. split.
    + destruct (max_by_size_first_largest st_size files Hne)
        as (largest & l1 & l2 & Hmax & Hsplit & Hbefore & Hall).
      exists largest, l1, l2. split; [done|]. split; [done|]. split; [done|].
      rewrite bool_decide_eq_true_2 by done. rewrite Hmax.
      split; [done|].
      intros Hfresh. unfold upsert_all. simpl.
      rewrite mediafile_add_fresh; [done|].
      by rewrite movie_media_file_lookup_path.
    + rewrite bool_decide_eq_false_2 by done.
      by rewrite index_show_files_filter.
  - eexists. split; [vm_compute; reflexivity|]. vm_compute. reflexivity.
Qed.

(** The selection at the three files of the sample movie. *)
Lemma index_torrent_selects_witness :
  let added := TorrentHandler.add empty_store
                 (Torrent_new (PStr (Path.str ScanSamples.movie_dir))
                    (PStr "The Matrix") (PInt 1999)) in
  let files := [ScanSamples.sample; ScanSamples.feature; ScanSamples.extra] in
  ∃ largest l1 l2,
    files = l1 ++ largest :: l2 ∧
    (∀ x, x ∈ l1 → ScanSamples.st_size x < ScanSamples.st_size largest) ∧
    (∀ x, x ∈ files → ScanSamples.st_size x ≤ ScanSamples.st_size largest) ∧
    index_torrent ScanSamples.st_size ScanSamples.parse_title empty_store
      ScanSamples.movie_dir files "movie" (PStr "The Matrix") (PInt 1999) =
    Ok (upsert_all added.1
          [movie_media_file ScanSamples.st_size added.2 largest]) ∧
    ((∀ k x, mediafiles added.1 !! k = Some x →
             holds_path (Path.str largest) x = false) →
     mediafiles
       (upsert_all added.1
          [movie_media_file ScanSamples.st_size added.2 largest]) =
     <[fresh_key (mediafiles added.1) :=
         setattr (movie_media_file ScanSamples.st_size added.2 largest) "id"
           (PInt (fresh_key (mediafiles added.1)))]> (mediafiles added.1)).
Proof.
  apply (proj1 index_torrent_selects ScanSamples.st_size
           ScanSamples.parse_title empty_store ScanSamples.movie_dir
           [ScanSamples.sample; ScanSamples.feature; ScanSamples.extra]
           (PStr "The Matrix") (PInt 1999)).
  discriminate.
Defined.

(** C7.  The selection of a show's files as the code performs it, on a
    torrent holding "Show.S00E01.mkv" and "Show.S01E01.mkv": a season and
    an episode are extracted from both files (season 0 and episode 1 from
    the first), yet only the second becomes a media file.  The guard
    [if season and episode] tests the truth of the two values, and the
    season 0 of a special is false, so a file from which both were
    extracted is dropped. *)
Theorem index_torrent_drops_season_zero :
  Parser.parse_torrent_episode ScanSamples.parse_title
    (Path.name ScanSamples.special) = (PInt 0, PInt 1) ∧
  extracted_episode ScanSamples.parse_title ScanSamples.special = true ∧
  ∃ st',
    index_torrent ScanSamples.st_size ScanSamples.parse_title empty_store
      ScanSamples.show_dir [ScanSamples.special; ScanSamples.regular]
      "show" (PStr "Show") (PInt 2020) = Ok st' ∧
    (λ f, getattr f "target_path") <$> mediafiles st' =
    {[1 := PStr "/downloads/Show.2020/Show.S01E01.mkv"]}.
Proof.
  split; [vm_compute; reflexivity|]. split; [vm_compute; reflexivity|].
  eexists. split; [vm_compute; reflexivity|]. vm_compute. reflexivity.
Qed.

(** ** Registration of library files *)

(** The attributes of the media file the library scanner builds for a
    discovered file: the target path of a file that is not a symbolic link
    is the text [str(None)]. *)
Lemma library_media_file_attributes st_size is_symlink resolve imdb_id file :
  let e := library_media_file st_size is_symlink resolve imdb_id file in
  getattr e "symlink_path" = PStr (Path.str file) ∧
  getattr e "target_path" =
    PStr (if is_symlink file then Path.str (resolve file) else "None") ∧
  getattr e "file_size" = PInt (st_size file) ∧
  getattr e "media_id" = PStr imdb_id ∧
  (getattr e "season", getattr e "episode") =
    Parser.extract_media_episode (Path.str file).
Proof.
  unfold library_media_file.
  destruct (Parser.extract_media_episode (Path.str file)) as [season episode].
  destruct (is_symlink file); repeat split.
Qed.

(** C5.  The library scanner as the code performs it, on a new media
    directory holding a regular file and a symbolic link: both rows carry
    the discovered path as symlink path and the size of the file; the link's
    target path is its resolution, but the regular file's target path is the
    text "None" rather than no value. *)
Theorem index_media_regular_file_target :
  let st' := index_media ScanSamples.glob ScanSamples.is_file
               ScanSamples.st_size ScanSamples.is_symlink ScanSamples.resolve
               empty_store "movie" "0133093" (PStr "The Matrix") (PStr "1999")
               (PBool false) ScanSamples.library_dir in
  ScanSamples.is_symlink ScanSamples.copied = false ∧
  ScanSamples.is_symlink ScanSamples.linked = true ∧
  (λ f, (getattr f "symlink_path", getattr f "target_path",
         getattr f "file_size", getattr f "season", getattr f "episode"))
    <$> mediafiles st' =
  {[1 := (PStr "/library/movies/The Matrix (1999) {imdb-tt0133093}/The Matrix.mkv",
          PStr "None", PInt 1500, PNone, PNone);
    2 := (PStr "/library/movies/The Matrix (1999) {imdb-tt0133093}/trailer.mkv",
          PStr "/downloads/The.Matrix.1999/trailer.mkv", PInt 1500,
          PNone, PNone)]}.
Proof. vm_compute. repeat split. Qed.

(** ** The matcher *)

Section matcher.

Context {A B : Type}.
Implicit Types (f : A → option B) (l : list A).

Lemma first_success_Some f l r :
  Re.first_success f l = Some r → ∃ x, x ∈ l ∧ f x = Some r.
Proof.
  induction l as [|x l IH]; [done|]. simpl.
  destruct (f x) eqn:E.
  - intros [= ->]. exists x. split; [left|done].
  - intros (y & Hy & Hfy)%IH. exists y. split; [by right|done].
Qed.

Lemma first_success_skip f l1 l2 :
  (∀ x, x ∈ l1 → f x = None) →
  Re.first_success f (l1 ++ l2) = Re.first_success f l2.
Proof.
  induction l1 as [|x l1 IH]; [done|]. intros Hnone. simpl.
  rewrite (Hnone x) by left. apply IH. intros y Hy. apply Hnone. by right.
Qed.

Lemma first_success_here f x l r :
  f x = Some r → Re.first_success f (x :: l) = Some r.
Proof. intros Hx. simpl. by rewrite Hx. Qed.

End matcher.

Section runs.

Implicit Types (c : Re.cls) (s : list ascii).

Lemma span_le_length c s : (Re.span c s ≤ length s)%nat.
Proof. induction s as [|a s IH]; simpl; [lia|]. destruct (Re.cls_match c a); simpl; lia. Qed.

Lemma span_take c s n :
  (n ≤ Re.span c s)%nat → Forall (λ a, Re.cls_match c a = true) (take n s).
Proof.
  revert n. induction s as [|a s IH]; intros n Hn.
  - by rewrite take_nil.
  - destruct n as [|n]; [constructor|]. simpl in *.
    destruct (Re.cls_match c a) eqn:E; [|lia].
    constructor; [done|]. apply IH. lia.
Qed.

Lemma span_app c l s :
  Forall (λ a, Re.cls_match c a = true) l →
  Re.span c (l ++ s) = (length l + Re.span c s)%nat.
Proof.
  induction 1 as [|a l Ha _ IH]; [done|]. simpl. by rewrite Ha, IH.
Qed.

Lemma counts_bounds (r : Re.rep) s n :
  n ∈ Re.counts r s →
  (Re.r_min r ≤ n ≤ Re.span (Re.r_cls r) s)%nat ∧
  ∀ m, Re.r_max r = Some m → (n ≤ m)%nat.
Proof.
  unfold Re.counts. intros Hn.
  assert (n ∈ seq (Re.r_min r)
            (S (match Re.r_max r with
                | Some m => Nat.min m (Re.span (Re.r_cls r) s)
                | None => Re.span (Re.r_cls r) s
                end) - Re.r_min r)) as Hseq.
  { destruct (Re.r_greedy r); [by rewrite elem_of_reverse in Hn|done]. }
  apply elem_of_seq in Hseq.
  destruct (Re.r_max r) as [m|]; split; try lia.
  - intros m' [= <-]. lia.
  - done.
Qed.

(** A greedy repetition first takes the longest run. *)
Lemma counts_greedy c lo hi s :
  (lo ≤ Re.span c s)%nat →
  (∀ m, hi = Some m → (lo ≤ m)%nat) →
  ∃ rest,
    Re.counts (Re.Repeat c lo hi true) s =
    match hi with
    | Some m => Nat.min m (Re.span c s)
    | None => Re.span c s
    end :: rest.
Proof.
  intros Hlo Hhi. unfold Re.counts. simpl.
  set (top := match hi with
              | Some m => Nat.min m (Re.span c s)
              | None => Re.span c s
              end).
  assert (lo ≤ top)%nat as Hle.
  { unfold top. destruct hi as [m|]; [|done]. specialize (Hhi m eq_refl). lia. }
  replace (S top - lo)%nat with (S (top - lo)) by lia.
  rewrite seq_S, reverse_app. simpl.
  replace (lo + (top - lo))%nat with top by lia. by eexists.
Qed.

(** A lazy repetition from zero tries every length in increasing order. *)
Lemma counts_lazy c s :
  Re.counts (Re.Repeat c 0 None false) s = seq 0 (S (Re.span c s)).
Proof. reflexivity. Qed.

Lemma strip_Some l s s' : Re.strip l s = Some s' → s = l ++ s'.
Proof.
  revert s. induction l as [|a l IH]; intros s; simpl.
  - by intros [= ->].
  - destruct s as [|b s]; [done|].
    destruct (Ascii.eqb_spec a b) as [->|]; [|done].
    intros ->%IH. done.
Qed.

Lemma strip_app l s : Re.strip l (l ++ s) = Some s.
Proof.
  induction l as [|a l IH]; [done|]. simpl. by rewrite Ascii.eqb_refl.
Qed.

Lemma run_unique (P : ascii → bool) l1 l2 x1 x2 r1 r2 :
  Forall (λ a, P a = true) l1 → Forall (λ a, P a = true) l2 →
  P x1 = false → P x2 = false →
  l1 ++ x1 :: r1 = l2 ++ x2 :: r2 →
  l1 = l2 ∧ x1 :: r1 = x2 :: r2.
Proof.
  intros H1. revert l2. induction H1 as [|a l1 Ha _ IH]; intros l2 H2 Hx1 Hx2 Heq.
  - destruct H2 as [|b l2 Hb _]; [done|].
    simpl in Heq. injection Heq as -> _. congruence.
  - destruct H2 as [|b l2 Hb H2].
    + simpl in Heq. injection Heq as -> _. congruence.
    + simpl in Heq. injection Heq as -> Heq.
      destruct (IH l2 H2 Hx1 Hx2 Heq) as [-> ?]. done.
Qed.

End runs.

(** ** Stripping whitespace *)

Section stripping.

Implicit Types s : list ascii.

Lemma lstrip_split s : ∃ ws, s = ws ++ lstrip s ∧ spaces ws.
Proof.
  induction s as [|a s (ws & Heq & Hws)]; [exists []; split; [done|constructor]|].
  simpl.
  destruct (Re.is_space a) eqn:E.
  - exists (a :: ws). split; [simpl; by f_equal|constructor; [exact E|exact Hws]].
  - exists []. split; [done|constructor].
Qed.

Lemma lstrip_head s a s' : lstrip s = a :: s' → Re.is_space a = false.
Proof.
  induction s as [|b s IH]; [done|]. simpl.
  destruct (Re.is_space b) eqn:E; [done|]. by intros [= <- _].
Qed.

Lemma lstrip_idem s : lstrip (lstrip s) = lstrip s.
Proof.
  destruct (lstrip s) as [|a s'] eqn:E; [done|].
  simpl. by rewrite (lstrip_head _ _ _ E).
Qed.

Lemma rstrip_idem s : rstrip (rstrip s) = rstrip s.
Proof. unfold rstrip. by rewrite reverse_involutive, lstrip_idem. Qed.

Lemma rstrip_split s : ∃ ws, s = rstrip s ++ ws ∧ spaces ws.
Proof.
  destruct (lstrip_split (reverse s)) as (ws & Heq & Hws).
  exists (reverse ws). split.
  - unfold rstrip. rewrite <- reverse_app, <- Heq. by rewrite reverse_involutive.
  - by apply Forall_reverse.
Qed.

(** No proper suffix of a right-stripped string is made of whitespace. *)
Lemma rstrip_suffix s n :
  (n < length (rstrip s))%nat → ¬ spaces (drop n (rstrip s)).
Proof.
  unfold rstrip. destruct (lstrip (reverse s)) as [|a l] eqn:E; [simpl; lia|].
  apply lstrip_head in E. rewrite reverse_cons, length_app. simpl.
  intros Hn Hsp. rewrite drop_app_le in Hsp by lia.
  apply Forall_app in Hsp as [_ Hsp].
  apply Forall_cons in Hsp as [Hsp _]. congruence.
Qed.

End stripping.

(** ** The library-name pattern *)

Section media_pattern.

Implicit Types a b y d u : list ascii.

Lemma exec_tail_sound pos u cs m :
  Re.exec media_tail pos u cs = Some m →
  ∃ a y b d e,
    u = tail_form a y b d e ∧
    spaces a ∧ digits y ∧ length y = 4%nat ∧ spaces b ∧
    digits d ∧ d ≠ [] ∧ Re.at_end e = true ∧
    m = ("imdb_id", d) :: ("year", y) :: cs.
Proof.
  unfold media_tail, Parser.media_pattern. cbn [drop Re.exec].
  intros (n1 & Hn1 & H)%first_success_Some.
  apply counts_bounds in Hn1 as [[_ Hn1] _]. simpl in Hn1.
  destruct (Re.strip _ (drop n1 u)) as [u1|] eqn:E1; [|done].
  apply strip_Some in E1.
  apply first_success_Some in H as (n2 & Hn2 & H).
  apply counts_bounds in Hn2 as [[Hn2 Hn2'] Hn2'']. simpl in Hn2, Hn2', Hn2''.
  specialize (Hn2'' _ eq_refl). assert (n2 = 4%nat) as -> by lia.
  destruct (Re.strip _ (drop 4 u1)) as [u2|] eqn:E2; [|done].
  apply strip_Some in E2.
  apply first_success_Some in H as (n3 & Hn3 & H).
  apply counts_bounds in Hn3 as [[_ Hn3] _]. simpl in Hn3.
  destruct (Re.strip _ (drop n3 u2)) as [u3|] eqn:E3; [|done].
  apply strip_Some in E3.
  apply first_success_Some in H as (n4 & Hn4 & H).
  apply counts_bounds in Hn4 as [[Hn4 Hn4'] _]. simpl in Hn4, Hn4'.
  destruct (Re.strip _ (drop n4 u3)) as [u4|] eqn:E4; [|done].
  apply strip_Some in E4.
  destruct (Re.at_end u4) eqn:E5; [|done].
  injection H as <-.
  exists (take n1 u), (take 4 u1), (take n3 u2), (take n4 u3), u4.
  split; [|split; [|split; [|split; [|split; [|split; [|split; [|split]]]]]]].
  - unfold tail_form.
    rewrite <- E4, take_drop, <- E3, take_drop, <- E2, take_drop, <- E1.
    by rewrite take_drop.
  - by apply (span_take Re.Space).
  - by apply (span_take Re.Digit).
  - pose proof (span_le_length Re.Digit u1). rewrite length_take. lia.
  - by apply (span_take Re.Space).
  - by apply (span_take Re.Digit).
  - pose proof (span_le_length Re.Digit u3).
    intros Hnil%(f_equal length). rewrite length_take in Hnil. simpl in Hnil. lia.
  - done.
  - done.
Qed.


Lemma greedy_step {B} c lo hi (l s : list ascii) (f : nat → option B) r :
  Forall (λ ch, Re.cls_match c ch = true) l →
  Re.span c s = 0%nat →
  (lo ≤ length l)%nat →
  (∀ m, hi = Some m → length l = m) →
  f (length l) = Some r →
  Re.first_success f (Re.counts (Re.Repeat c lo hi true) (l ++ s)) = Some r.
Proof.
  intros Hl Hs Hlo Hhi Hf.
  assert (Re.span c (l ++ s) = length l) as Hspan.
  { rewrite span_app by done. lia. }
  destruct (counts_greedy c lo hi (l ++ s)) as [rest ->].
  - lia.
  - intros m Hm. specialize (Hhi m Hm). lia.
  - apply first_success_here. rewrite Hspan.
    destruct hi as [m|]; [|done]. rewrite <- (Hhi m eq_refl).
    by rewrite Nat.min_id.
Qed.

Lemma exec_tail_complete pos a y b d cs :
  spaces a → digits y → length y = 4%nat → spaces b → digits d → d ≠ [] →
  Re.exec media_tail pos (tail_form a y b d []) cs =
  Some (("imdb_id", d) :: ("year", y) :: cs).
Proof.
  intros Ha Hy Hy4 Hb Hd Hd0.
  unfold media_tail, Parser.media_pattern, tail_form. cbn [drop Re.exec].
  apply (greedy_step Re.Space); [done|done|lia|done|].
  rewrite drop_app_length, strip_app.
  apply (greedy_step Re.Digit); [done|done|lia|by intros m [= <-]|].
  rewrite drop_app_length, take_app_length, strip_app.
  apply (greedy_step Re.Space); [done|done|lia|done|].
  rewrite drop_app_length, strip_app.
  apply (greedy_step Re.Digit); [done|done| |done|].
  { destruct d; [done|simpl; lia]. }
  by rewrite drop_app_length, take_app_length, strip_app.
Qed.

Lemma tail_form_unique x a y b d x' a' y' b' d' :
  x ++ tail_form a y b d [] = x' ++ tail_form a' y' b' d' [] →
  length y = length y' → spaces b → spaces b' → digits d → digits d' →
  x ++ a = x' ++ a' ∧ y = y' ∧ b = b' ∧ d = d'.
Proof.
  intros Heq Hy Hb Hb' Hd Hd'. apply (f_equal reverse) in Heq.
  unfold tail_form in Heq. rewrite !reverse_app in Heq.
  rewrite <- !app_assoc in Heq. simpl in Heq.
  injection Heq as Heq.
  apply (run_unique Re.is_digit) in Heq as [Hdd Heq];
    [|by apply Forall_reverse|by apply Forall_reverse|done|done].
  injection Heq as Heq.
  apply (run_unique Re.is_space) in Heq as [Hbb Heq];
    [|by apply Forall_reverse|by apply Forall_reverse|done|done].
  injection Heq as Heq.
  apply app_inj_1 in Heq as [Hyy Heq]; [|by rewrite !length_reverse].
  injection Heq as Heq. rewrite <- !reverse_app in Heq.
  apply (inj reverse) in Heq, Hyy, Hbb, Hdd. done.
Qed.

Lemma exec_media_pattern_eq s :
  Re.exec Parser.media_pattern 0 s [] =
  Re.first_success
    (λ n, Re.exec media_tail (0 + n) (drop n s) [("title", take n s)])
    (Re.counts (Re.Repeat Re.Any 0 None false) s).
Proof. reflexivity. Qed.

Lemma search_media_pattern t w y b d :
  one_line (rstrip t) → spaces w → digits y → length y = 4%nat →
  spaces b → digits d → d ≠ [] →
  Re.search Parser.media_pattern (t ++ tail_form w y b d []) =
  Some [("imdb_id", d); ("year", y); ("title", rstrip t)].
Proof.
  intros Hline Hw Hy Hy4 Hb Hd Hd0.
  destruct (rstrip_split t) as (ws & Ht & Hws).
  set (t' := rstrip t) in *.
  assert (t ++ tail_form w y b d [] = t' ++ tail_form (ws ++ w) y b d [])
    as Hname.
  { rewrite Ht at 1. unfold tail_form. by rewrite <- !app_assoc. }
  rewrite Hname. clear Hname.
  assert (spaces (ws ++ w)) as Hsp by (by apply Forall_app).
  set (name := t' ++ tail_form (ws ++ w) y b d []).
  unfold Re.search. apply first_success_here.
  rewrite drop_0, exec_media_pattern_eq, counts_lazy.
  assert (length t' ≤ Re.span Re.Any name)%nat as Hspan.
  { unfold name. rewrite span_app; [lia|].
    eapply Forall_impl; [exact Hline|]. intros c Hc. simpl. by rewrite Hc. }
  replace (S (Re.span Re.Any name))
    with (length t' + S (Re.span Re.Any name - length t'))%nat by lia.
  rewrite seq_app. rewrite first_success_skip.
  - apply first_success_here. cbn [Nat.add]. unfold name.
    rewrite drop_app_length, take_app_length.
    by apply exec_tail_complete.
  - intros n Hn%elem_of_seq.
    destruct (Re.exec media_tail (0 + n) (drop n name) [("title", take n name)])
      as [m|] eqn:E; [|done]. exfalso.
    apply exec_tail_sound in E
      as (a' & y' & b' & d' & e & Hform & Ha' & Hy' & Hy4' & Hb' & Hd' & _ & He & _).
    assert (name = take n name ++ tail_form a' y' b' d' e) as Hsplit.
    { rewrite <- Hform. by rewrite take_drop. }
    assert (e = []) as ->.
    { destruct e as [|c [|??]]; [done| |done]. exfalso.
      apply (f_equal reverse) in Hsplit. unfold name, tail_form in Hsplit.
      rewrite !reverse_app in Hsplit. rewrite <- !app_assoc in Hsplit.
      simpl in Hsplit. injection Hsplit as <- _. done. }
    unfold name in Hsplit at 1.
    apply tail_form_unique in Hsplit as (Hpre & _); [|congruence|done..].
    apply (f_equal (drop n)) in Hpre.
    rewrite (drop_app_le t') in Hpre by lia.
    assert (length (take n name) = n) as Hlen.
    { rewrite length_take. unfold name. rewrite length_app. lia. }
    rewrite <- Hlen in Hpre at 2. rewrite drop_app_length in Hpre.
    rewrite <- Hpre in Ha'. apply Forall_app in Ha' as [Ha' _].
    apply (rstrip_suffix t n); [fold t'; lia|exact Ha'].
Qed.


Lemma exec_media_pattern_start i u :
  i ≠ 0%nat → Re.exec Parser.media_pattern i u [] = None.
Proof.
  intros Hi. unfold Parser.media_pattern. cbn [Re.exec].
  by destruct (Nat.eqb_spec i 0).
Qed.

(** A name the pattern is found in holds the bracketed identifier. *)
Lemma search_media_pattern_sound s m :
  Re.search Parser.media_pattern s = Some m →
  ∃ pre d post,
    s = pre ++ chars "{imdb-tt" ++ d ++ chars "}" ++ post ∧
    digits d ∧ d ≠ [].
Proof.
  unfold Re.search. intros (i & _ & Hi)%first_success_Some.
  destruct (decide (i = 0%nat)) as [->|Hne];
    [|by rewrite exec_media_pattern_start in Hi].
  rewrite drop_0, exec_media_pattern_eq in Hi.
  apply first_success_Some in Hi as (n & _ & Hn).
  apply exec_tail_sound in Hn
    as (a & y & b & d & e & Hform & _ & _ & _ & _ & Hd & Hd0 & _).
  exists (take n s ++ a ++ chars "(" ++ y ++ chars ")" ++ b), d, e.
  split; [|done]. rewrite <- (take_drop n s) at 1. rewrite Hform.
  unfold tail_form. by rewrite <- !app_assoc.
Qed.

Lemma media_groups_title (d y t : list ascii) :
  Re.group "title" [("imdb_id", d); ("year", y); ("title", t)] = t.
Proof. reflexivity. Qed.

Lemma media_groups_year (d y t : list ascii) :
  Re.group "year" [("imdb_id", d); ("year", y); ("title", t)] = y.
Proof. reflexivity. Qed.

Lemma media_groups_id (d y t : list ascii) :
  Re.group "imdb_id" [("imdb_id", d); ("year", y); ("title", t)] = d.
Proof. reflexivity. Qed.

Lemma chars_length s : length (chars s) = String.length s.
Proof. induction s as [|c s IH]; simpl; [done|by rewrite IH]. Qed.

End media_pattern.

(** C8.  For every name [Title (Year) {imdb-ttID}] (a title whose text,
    up to trailing whitespace, holds no line feed; any whitespace, or none,
    before the year and before the identifier; a year of four digits; an
    identifier of one or more digits) [parse_media] returns the title
    stripped of surrounding whitespace, the year and the identifier, as
    strings.  For every name that holds no bracketed identifier
    ["{imdb-tt" digits "}"] it fails with a [ValueError]. *)
Theorem parse_media_round_trip :
  (∀ title w1 year w2 id : string,
     one_line (rstrip (chars title)) →
     spaces (chars w1) → digits (chars year) → String.length year = 4%nat →
     spaces (chars w2) → digits (chars id) → id ≠ EmptyString →
     Parser.parse_media
       (title +:+ w1 +:+ "(" +:+ year +:+ ")" +:+ w2 +:+ "{imdb-tt" +:+ id
        +:+ "}") =
     Ok (Parser.MediaInfo (text (strip (chars title))) year id)) ∧
  (∀ name : string,
     (¬ ∃ pre id post : string,
          digits (chars id) ∧ id ≠ EmptyString ∧
          name = pre +:+ "{imdb-tt" +:+ id +:+ "}" +:+ post) →
     Parser.parse_media name =
     Raise (ValueError ("Media path format not recognized: " +:+ name))) ∧
  Parser.parse_media "  Blade Runner (The Final Cut)   (1982) {imdb-tt0083658}" =
    Ok (Parser.MediaInfo "Blade Runner (The Final Cut)" "1982" "0083658") ∧
  Parser.parse_media "The Matrix (1999)" =
    Raise (ValueError "Media path format not recognized: The Matrix (1999)").
Proof.
  split; [|split; [|split]].
  - intros title w1 year w2 id Hline Hw1 Hy Hy4 Hw2 Hid Hid0.
    unfold Parser.parse_media.
    assert (chars (title +:+ w1 +:+ "(" +:+ year +:+ ")" +:+ w2
                   +:+ "{imdb-tt" +:+ id +:+ "}") =
            chars title ++ tail_form (chars w1) (chars year) (chars w2)
                             (chars id) []) as ->.
    { unfold tail_form. rewrite !list_ascii_app. by rewrite app_nil_r. }
    rewrite search_media_pattern; try done.
    + rewrite media_groups_title, media_groups_year, media_groups_id.
      unfold strip at 1. rewrite rstrip_idem.
      by rewrite !String.string_of_list_ascii_of_string.
    + by rewrite chars_length.
    + intros Hnil. apply Hid0. apply list_ascii_inj. by rewrite Hnil.
  - intros name Hmissing. unfold Parser.parse_media.
    destruct (Re.search Parser.media_pattern (chars name)) as [m|] eqn:E;
      [|done].
    exfalso. apply Hmissing.
    apply search_media_pattern_sound in E as (pre & d & post & Hname & Hd & Hd0).
    exists (text pre), (text d), (text post).
    rewrite String.list_ascii_of_string_of_list_ascii. split; [done|]. split.
    + intros Hnil. apply Hd0.
      apply (f_equal chars) in Hnil.
      by rewrite String.list_ascii_of_string_of_list_ascii in Hnil.
    + apply list_ascii_inj. rewrite Hname, !list_ascii_app.
      by rewrite !String.list_ascii_of_string_of_list_ascii.
  - vm_compute. reflexivity.
  - vm_compute. reflexivity.
Qed.

(** The round trip at "The Matrix (1999) {imdb-tt0133093}". *)
Lemma parse_media_round_trip_witness :
  Parser.parse_media
    ("The Matrix" +:+ " " +:+ "(" +:+ "1999" +:+ ")" +:+ " " +:+ "{imdb-tt"
     +:+ "0133093" +:+ "}") =
  Ok (Parser.MediaInfo (text (strip (chars "The Matrix"))) "1999" "0133093").
Proof.
  apply (proj1 parse_media_round_trip "The Matrix" " " "1999" " " "0133093");
    try (vm_compute; repeat constructor); discriminate.
Defined.

(** ** The properties at sample inputs *)

(** The fill-only update at the file of the plain session. *)
Lemma fill_only_update_witness :
  (∃ e',
     deref (Repository.update Samples.plain_session (FileRef 1)
              {["season" := PStr "01"]}) (FileRef 1) = Some e' ∧
     ∀ key,
       (getattr (Samples.file_row 1 "a.mkv" PNone) key ≠ PNone →
          getattr e' key = getattr (Samples.file_row 1 "a.mkv" PNone) key) ∧
       (getattr (Samples.file_row 1 "a.mkv" PNone) key = PNone →
          getattr e' key =
          default PNone (({["season" := PStr "01"]} : gmap string val) !! key)) ∧
       (getattr e' key ≠ getattr (Samples.file_row 1 "a.mkv" PNone) key →
          getattr (Samples.file_row 1 "a.mkv" PNone) key = PNone)) ∧
  (let st1 := Repository.update Samples.plain_session (FileRef 1)
                {["season" := PStr "01"]} in
   let st2 := Repository.update st1 (FileRef 1) {["season" := PStr "02"]} in
   (∃ f1, mediafiles st1 !! 1 = Some f1 ∧ getattr f1 "season" = PStr "01") ∧
   (∃ f2, mediafiles st2 !! 1 = Some f2 ∧ getattr f2 "season" = PStr "01")).
Proof.
  split.
  - apply (proj1 fill_only_update Samples.plain_session (FileRef 1)).
    reflexivity.
  - apply (proj2 fill_only_update Samples.plain_session 1
             (Samples.file_row 1 "a.mkv" PNone)); reflexivity.
Defined.

(** The versioning at the episode whose exact name is taken. *)
Lemma get_unique_filename_first_free_version_witness :
  ∃ n, (2 ≤ n)%nat ∧
    get_unique_filename UniqueSamples.one_taken UniqueSamples.episode true =
    Some (FullPath (versioned UniqueSamples.episode n)) ∧
    Path.exists_ UniqueSamples.one_taken (versioned UniqueSamples.episode n)
      = false ∧
    ∀ k, (2 ≤ k < n)%nat →
         Path.exists_ UniqueSamples.one_taken (versioned UniqueSamples.episode k)
         = true.
Proof.
  apply (proj1 (proj2 get_unique_filename_first_free_version)
           UniqueSamples.one_taken UniqueSamples.episode true).
  vm_compute. reflexivity.
Defined.

(** The classification at a name the free-form parser finds a season in. *)
Lemma parse_torrent_classifies_witness :
  ∃ info,
    Parser.parse_torrent ScanSamples.parse_title "Show.S01E01.mkv" = Ok info ∧
    Parser.ti_title info =
      Parser.get (ScanSamples.parse_title "Show.S01E01.mkv") "title" ∧
    Parser.ti_year info =
      Parser.get (ScanSamples.parse_title "Show.S01E01.mkv") "year" ∧
    (Parser.ti_kind info = "show" ↔
       holds_items (Parser.get (ScanSamples.parse_title "Show.S01E01.mkv")
                      "seasons")
       ∨ holds_items (Parser.get (ScanSamples.parse_title "Show.S01E01.mkv")
                        "episode")) ∧
    (Parser.ti_kind info = "movie" ↔
       ¬ (holds_items (Parser.get (ScanSamples.parse_title "Show.S01E01.mkv")
                         "seasons")
          ∨ holds_items (Parser.get (ScanSamples.parse_title "Show.S01E01.mkv")
                           "episode"))).
Proof.
  apply (parse_torrent_classifies ScanSamples.parse_title "Show.S01E01.mkv").
  - right. right. by exists "Show".
  - right. left. by exists [PInt 1].
  - by left.
  - right. by exists "S"%char, "how".
Defined.

(** The validation at an empty title. *)
Lemma get_imdb_id_validates_first_witness :
  ∃ msg,
    Resolver.get_imdb_id (λ _, Ok []) (PStr EmptyString) (PStr "1999") "movie" =
    Resolver.Run [] (Raise (ValueError msg)).
Proof.
  apply (get_imdb_id_validates_first (λ _, Ok []) (PStr EmptyString)
           (PStr "1999") "movie").
  left. reflexivity.
Defined.

(* ================================================================== *)
(** * Further properties of the entity store *)

Section store_frames.

(** What [EntityHandler.update] leaves under each key of the dictionary. *)
Lemma update_lookup e kwargs key :
  EntityHandler.update e kwargs !! key =
  match kwargs !! key with
  | Some v => if is_none (getattr e key) then Some v else e !! key
  | None => e !! key
  end.
Proof.
  unfold EntityHandler.update. revert key.
  apply (map_fold_weak_ind (λ r (m : gmap string val),
    ∀ key, r !! key =
      match m !! key with
      | Some v => if is_none (getattr e key) then Some v else e !! key
      | None => e !! key
      end) EntityHandler.update_step).
  - intros key. by rewrite lookup_empty.
  - intros i x m r Hi IH key. unfold EntityHandler.update_step.
    assert (getattr r i = getattr e i) as Hri.
    { unfold getattr at 1. rewrite (IH i), Hi. done. }
    rewrite Hri. destruct (decide (i = key)) as [->|Hne].
    + rewrite lookup_insert_eq.
      destruct (is_none (getattr e key)).
      * unfold setattr. by rewrite lookup_insert_eq.
      * rewrite (IH key), Hi. done.
    + rewrite lookup_insert_ne by done.
      destruct (is_none (getattr e i)).
      * unfold setattr. rewrite lookup_insert_ne by done. apply IH.
      * apply IH.
Qed.

Lemma update_idempotent e kwargs :
  EntityHandler.update (EntityHandler.update e kwargs) kwargs =
  EntityHandler.update e kwargs.
Proof.
  apply map_eq. intros key. rewrite (update_lookup (EntityHandler.update _ _)).
  rewrite update_getattr, update_lookup.
  destruct (kwargs !! key) as [v|] eqn:Hk; [|done]. simpl.
  destruct (is_none (getattr e key)) eqn:He; [|by rewrite He].
  by destruct (is_none v).
Qed.

Lemma update_empty e : EntityHandler.update e ∅ = e.
Proof. unfold EntityHandler.update. apply map_fold_empty. Qed.

Lemma setattr_setattr e k v : setattr (setattr e k v) k v = setattr e k v.
Proof. unfold setattr. apply insert_insert_eq. Qed.

Lemma store_eq st st' :
  media st = media st' → torrents st = torrents st' →
  mediafiles st = mediafiles st' → st = st'.
Proof. destruct st, st'. simpl. by intros -> -> ->. Qed.

End store_frames.

(** An update that has nothing to fill and nothing to propagate leaves the
    session as it is. *)
Lemma torrent_update_fixed st id e kwargs :
  torrents st !! id = Some e →
  EntityHandler.update e kwargs = e →
  TorrentHandler.update st id kwargs = st.
Proof.
  intros He Hfix. unfold TorrentHandler.update. rewrite He, Hfix.
  assert (is_none (getattr e "media_id")
          && negb (is_none (getattr e "media_id")) = false) as ->
    by (by destruct (is_none _)).
  apply store_eq; simpl; [done| |done]. by apply insert_id.
Qed.

Lemma mediafile_update_fixed st id e kwargs :
  mediafiles st !! id = Some e →
  EntityHandler.update e kwargs = e →
  (∀ tid t, torrent_of st e = Some (tid, t) → is_Some (media_of st e) →
            t !! "media_id" = Some (getattr e "media_id")) →
  MediaFileHandler.update st id kwargs = st.
Proof.
  intros He Hfix Hback. unfold MediaFileHandler.update. rewrite He, Hfix.
  assert (Store (media st) (torrents st) (<[id := e]> (mediafiles st)) = st)
    as -> by (apply store_eq; simpl; [done|done|by apply insert_id]).
  destruct (torrent_of st e) as [[tid t]|] eqn:Ht; [|done].
  destruct (media_of st e) as [m|] eqn:Hm; [|done].
  specialize (Hback tid t eq_refl (ex_intro _ m eq_refl)).
  unfold torrent_of in Ht.
  destruct (getattr e "torrent_id") as [| |tid'| |]; try done.
  destruct (torrents st !! tid') as [t'|] eqn:Ht'; [|done].
  simpl in Ht. injection Ht as -> ->.
  apply store_eq; simpl; [done| |done].
  apply insert_id. rewrite Ht'. f_equal. symmetry. unfold setattr.
  by apply insert_id.
Qed.

(** X1.  A store update is idempotent: repeating [Repository.update] with
    the same entity and the same values leaves the whole session as the
    first call left it, for every class of entity (the fill, the fan-out of
    a torrent and the back-fill from a media file included). *)
Theorem repository_update_idempotent st r kwargs :
  Repository.update (Repository.update st r kwargs) r kwargs =
  Repository.update st r kwargs.
Proof.
  destruct (deref st r) as [e|] eqn:He.
  - pose proof (repository_update_target st r kwargs e He) as Ht.
    destruct r as [id|id|id]; simpl in *.
    + rewrite He. simpl. rewrite lookup_insert_eq.
      apply store_eq; simpl; [|done..].
      by rewrite insert_insert_eq, update_idempotent.
    + by apply (torrent_update_fixed _ _ _ _ Ht), update_idempotent.
    + apply (mediafile_update_fixed _ _ _ _ Ht); [apply update_idempotent|].
      intros tid t Htor Hmed. revert Htor Hmed.
      unfold MediaFileHandler.update. rewrite He.
      set (e' := EntityHandler.update e kwargs).
      set (st1 := Store (media st) (torrents st) (<[id:=e']> (mediafiles st))).
      destruct (torrent_of st1 e') as [[tid1 t1]|] eqn:Ht1;
        [destruct (media_of st1 e') as [m|] eqn:Hm1|].
      * unfold torrent_of in *. simpl in *.
        destruct (getattr e' "torrent_id") as [| |tid'| |]; try done.
        destruct (torrents st !! tid') as [t'|] eqn:Ht'; [|done].
        simpl in Ht1. injection Ht1 as <- <-.
        rewrite lookup_insert_eq. simpl. intros [= <- <-] _.
        unfold setattr. apply lookup_insert_eq.
      * intros _. unfold media_of in *. simpl in *. rewrite Hm1.
        by intros [? ?].
      * by rewrite Ht1.
  - destruct r as [id|id|id]; simpl in *.
    + by rewrite He, He.
    + unfold TorrentHandler.update. by rewrite He, He.
    + unfold MediaFileHandler.update. by rewrite He, He.
Qed.

(** X2.  [MediaHandler.add] looks the identifier up among the rows of the
    class of the entity.  When it returns, the row under the identifier is
    the one that was there before when there was one and the entity
    otherwise, and no other media row, torrent or media file has changed;
    a later entity with that identifier is then ignored when the stored
    row is an instance of its class, and makes the flush fail when it is
    not (a [Show] under the identifier of a stored [Movie]).  The flush
    fails exactly when the identifier is held by a row that is no instance
    of the class of the entity, or when the identifier is free and a
    column that must not be null is [None]. *)
Theorem media_add_by_class st e id :
  getattr e "id" = PStr id →
  (∀ st', MediaHandler.add st e = Some st' →
     media st' !! id = Some (default e (media st !! id)) ∧
     (∀ j, j ≠ id → media st' !! j = media st !! j) ∧
     torrents st' = torrents st ∧ mediafiles st' = mediafiles st ∧
     (∀ e2, getattr e2 "id" = PStr id →
        MediaHandler.add st' e2 =
        if MediaHandler.is_instance (default e (media st !! id))
             (MediaHandler.model_class e2)
        then Some st' else None)) ∧
  (MediaHandler.add st e = None ↔
   match media st !! id with
   | Some row =>
       MediaHandler.is_instance row (MediaHandler.model_class e) = false
   | None => MediaHandler.not_null e = false
   end).
Proof.
  intros Hid. unfold MediaHandler.add at 1 3, MediaHandler.get_by_id.
  rewrite Hid.
  destruct (media st !! id) as [row|] eqn:Hrow; cbn [from_option Datatypes.id].
  - destruct (MediaHandler.is_instance row (MediaHandler.model_class e))
      eqn:Hinst.
    + split; [|by split].
      intros st' [= <-]. rewrite Hrow. split_and!; try done.
      intros e2 He2. unfold MediaHandler.add, MediaHandler.get_by_id.
      rewrite He2, Hrow.
      by destruct (MediaHandler.is_instance row
                     (MediaHandler.model_class e2)).
    + split; [done|]. by split.
  - destruct (MediaHandler.not_null e) eqn:Hnn.
    + split; [|by split].
      intros st' [= <-]. cbn [media torrents mediafiles].
      rewrite lookup_insert_eq. split_and!; try done.
      * intros j Hj. by rewrite lookup_insert_ne.
      * intros e2 He2. unfold MediaHandler.add, MediaHandler.get_by_id.
        rewrite He2. cbn [media]. rewrite lookup_insert_eq.
        by destruct (MediaHandler.is_instance e
                       (MediaHandler.model_class e2)).
    + split; [done|]. by split.
Qed.

(** The theorem at a show that arrives under the identifier of the stored
    movie "The Matrix": the flush fails. *)
Lemma media_add_by_class_witness :
  (∀ st', MediaHandler.add Samples.fanout_session
            (Media_create "show" (PStr "0133093") (PStr "The Matrix")
               (PInt 1999) (PBool false)) = Some st' →
     media st' !! "0133093" =
       Some (default (Media_create "show" (PStr "0133093")
                        (PStr "The Matrix") (PInt 1999) (PBool false))
               (media Samples.fanout_session !! "0133093")) ∧
     (∀ j, j ≠ "0133093" →
           media st' !! j = media Samples.fanout_session !! j) ∧
     torrents st' = torrents Samples.fanout_session ∧
     mediafiles st' = mediafiles Samples.fanout_session ∧
     (∀ e2, getattr e2 "id" = PStr "0133093" →
        MediaHandler.add st' e2 =
        if MediaHandler.is_instance
             (default (Media_create "show" (PStr "0133093")
                         (PStr "The Matrix") (PInt 1999) (PBool false))
                (media Samples.fanout_session !! "0133093"))
             (MediaHandler.model_class e2)
        then Some st' else None)) ∧
  (MediaHandler.add Samples.fanout_session
     (Media_create "show" (PStr "0133093") (PStr "The Matrix")
        (PInt 1999) (PBool false)) = None ↔
   match media Samples.fanout_session !! "0133093" with
   | Some row =>
       MediaHandler.is_instance row
         (MediaHandler.model_class
            (Media_create "show" (PStr "0133093") (PStr "The Matrix")
               (PInt 1999) (PBool false))) = false
   | None =>
       MediaHandler.not_null
         (Media_create "show" (PStr "0133093") (PStr "The Matrix")
            (PInt 1999) (PBool false)) = false
   end).
Proof.
  apply (media_add_by_class Samples.fanout_session
           (Media_create "show" (PStr "0133093") (PStr "The Matrix")
              (PInt 1999) (PBool false)) "0133093").
  reflexivity.
Defined.

(** The insert of a media the factory built, under a free identifier. *)
Lemma media_add_absent st kind imdb_id title year anime :
  media st !! imdb_id = None →
  MediaHandler.add st (Media_create kind (PStr imdb_id) title year anime) =
  if MediaHandler.not_null (Media_create kind (PStr imdb_id) title year anime)
  then Some (Store (<[imdb_id :=
                        Media_create kind (PStr imdb_id) title year anime]>
                      (media st))
                   (torrents st) (mediafiles st))
  else None.
Proof.
  intros Hm. unfold MediaHandler.add, MediaHandler.get_by_id.
  change (getattr (Media_create kind (PStr imdb_id) title year anime) "id")
    with (PStr imdb_id).
  cbv iota beta. by rewrite Hm.
Qed.

(** What [MediaHandler.add] leaves when it returns: the session as it
    was, or the session with the entity under its free identifier. *)
Lemma media_add_Some st e st' :
  MediaHandler.add st e = Some st' →
  st' = st ∨
  ∃ id, getattr e "id" = PStr id ∧ media st !! id = None ∧
        st' = Store (<[id := e]> (media st)) (torrents st) (mediafiles st).
Proof.
  unfold MediaHandler.add, MediaHandler.get_by_id.
  destruct (getattr e "id") as [| | |id|]; try done.
  destruct (media st !! id) as [row|] eqn:Hrow.
  - destruct (MediaHandler.is_instance row _); [|done].
    intros [= <-]. by left.
  - destruct (MediaHandler.not_null e); [|done].
    intros [= <-]. right. by exists id.
Qed.

Lemma not_null_create kind imdb_id title year anime :
  MediaHandler.not_null (Media_create kind imdb_id title year anime) =
  negb (is_none title) && negb (is_none year) && negb (is_none anime).
Proof. reflexivity. Qed.

Section torrent_add.

Lemma torrent_get_by_path_str st p :
  TorrentHandler.get_by_path st (PStr p) =
  first_match (λ t, eq_str (getattr t "path") p) (torrents st).
Proof. reflexivity. Qed.

Lemma eq_str_true v s : eq_str v s = true ↔ v = PStr s.
Proof.
  destruct v; simpl; try (split; [done|discriminate]).
  rewrite bool_decide_eq_true. split; [by intros ->|by intros [= ->]].
Qed.

End torrent_add.

(** X3.  [TorrentHandler.add] keeps torrent paths unique.  On a session in
    which no two torrents share a path, adding a torrent with path [p]
    returns a row with that path, which is the one [get_by_path] finds;
    rows that existed are unchanged, as are media and media files; no two
    torrents share a path afterwards; and adding the torrent again changes
    nothing and returns the same row. *)
Theorem torrent_add_keeps_paths_unique st e p :
  getattr e "path" = PStr p →
  unique_torrent_paths st →
  let st' := (TorrentHandler.add st e).1 in
  let id := (TorrentHandler.add st e).2 in
  (∃ t, torrents st' !! id = Some t ∧ getattr t "path" = PStr p ∧
        TorrentHandler.get_by_path st' (PStr p) = Some (id, t)) ∧
  (∀ k t, torrents st !! k = Some t → torrents st' !! k = Some t) ∧
  media st' = media st ∧ mediafiles st' = mediafiles st ∧
  unique_torrent_paths st' ∧
  TorrentHandler.add st' e = (st', id).
Proof.
  intros Hp Huniq st' id. subst st' id.
  destruct (first_match (λ t, eq_str (getattr t "path") p) (torrents st))
    as [[k x]|] eqn:Hfm.
  - assert (TorrentHandler.add st e = (st, k)) as Hadd.
    { unfold TorrentHandler.add. by rewrite Hp, torrent_get_by_path_str, Hfm. }
    rewrite Hadd. simpl.
    pose proof Hfm as [Hk Hx%eq_str_true]%first_match_Some.
    split; [|by repeat split].
    exists x. split; [done|]. split; [done|].
    by rewrite torrent_get_by_path_str.
  - pose proof Hfm as Hnone. rewrite first_match_None in Hnone.
    set (id := fresh_key (torrents st)).
    set (row := setattr e "id" (PInt id)).
    set (st' := Store (media st) (<[id := row]> (torrents st)) (mediafiles st)).
    assert (TorrentHandler.add st e = (st', id)) as Hadd.
    { unfold TorrentHandler.add. by rewrite Hp, torrent_get_by_path_str, Hfm. }
    rewrite Hadd. simpl.
    assert (getattr row "path" = PStr p) as Hrow
      by (unfold row; by rewrite getattr_setattr_ne).
    assert (torrents st !! id = None) as Hfresh by apply fresh_key_fresh.
    assert (unique_torrent_paths st') as Huniq'.
    { intros i j ti tj q Hi Hj Hqi Hqj. simpl in Hi, Hj.
      destruct (decide (i = id)) as [->|Hni], (decide (j = id)) as [->|Hnj];
        [done| | |].
      - rewrite lookup_insert_eq in Hi. injection Hi as <-.
        rewrite lookup_insert_ne in Hj by done.
        assert (q = p) as -> by congruence.
        apply eq_str_true in Hqj. by rewrite (Hnone _ _ Hj) in Hqj.
      - rewrite lookup_insert_eq in Hj. injection Hj as <-.
        rewrite lookup_insert_ne in Hi by done.
        assert (q = p) as -> by congruence.
        apply eq_str_true in Hqi. by rewrite (Hnone _ _ Hi) in Hqi.
      - rewrite lookup_insert_ne in Hi, Hj by done. by eapply Huniq. }
    assert (TorrentHandler.get_by_path st' (PStr p) = Some (id, row)) as Hget.
    { rewrite torrent_get_by_path_str. simpl.
      destruct (first_match_is_Some (λ t, eq_str (getattr t "path") p)
                  (<[id := row]> (torrents st)) id row) as [[k x] Hkx].
      { apply lookup_insert_eq. }
      { by apply eq_str_true. }
      rewrite Hkx. apply first_match_Some in Hkx as [Hk Hx%eq_str_true].
      assert (k = id) as ->.
      { eapply (Huniq' k id x row p); simpl;
          [done|apply lookup_insert_eq|done|done]. }
      rewrite lookup_insert_eq in Hk. by injection Hk as ->. }
    split; [|split; [|split; [done|split; [done|split; [done|]]]]].
    + exists row. split; [apply lookup_insert_eq|]. done.
    + intros k t Hk. rewrite lookup_insert_ne; [done|]. congruence.
    + unfold TorrentHandler.add. rewrite Hp. by rewrite Hget.
Qed.

Lemma torrent_add_keeps_paths_unique_witness :
  let e := Torrent_new (PStr "/downloads/Show.2020") (PStr "Show") (PInt 2020) in
  let st' := (TorrentHandler.add empty_store e).1 in
  let id := (TorrentHandler.add empty_store e).2 in
  (∃ t, torrents st' !! id = Some t ∧
        getattr t "path" = PStr "/downloads/Show.2020" ∧
        TorrentHandler.get_by_path st' (PStr "/downloads/Show.2020")
        = Some (id, t)) ∧
  (∀ k t, torrents empty_store !! k = Some t → torrents st' !! k = Some t) ∧
  media st' = media empty_store ∧ mediafiles st' = mediafiles empty_store ∧
  unique_torrent_paths st' ∧
  TorrentHandler.add st' e = (st', id).
Proof.
  apply (torrent_add_keeps_paths_unique empty_store
           (Torrent_new (PStr "/downloads/Show.2020") (PStr "Show") (PInt 2020))
           "/downloads/Show.2020").
  - reflexivity.
  - intros i j ti tj p Hi. simpl in Hi. by rewrite lookup_empty in Hi.
Defined.

Section fan_out_frame.

Lemma same_but_refl key e : same_but key e e.
Proof. by intros k _. Qed.

Lemma same_but_setattr key e v : same_but key e (setattr e key v).
Proof. intros k Hk. by rewrite getattr_setattr_ne. Qed.

Lemma propagate_frame st tid :
  let st' := TorrentHandler._propagate_media_id_to_files st tid in
  media st' = media st ∧ torrents st' = torrents st ∧
  ∀ fid, ∃ g,
    mediafiles st' !! fid = g <$> mediafiles st !! fid ∧
    ∀ f, same_but "media_id" f (g f) ∧ (in_torrent tid f = false → g f = f).
Proof.
  unfold TorrentHandler._propagate_media_id_to_files.
  destruct (torrents st !! tid) as [t|]; simpl.
  2:{ repeat split. intros fid. exists id. split; [by rewrite option_fmap_id|].
      intros f. split; [apply same_but_refl|done]. }
  destruct (negb (truthy (getattr t "media_id"))); simpl.
  { repeat split. intros fid. exists id. split; [by rewrite option_fmap_id|].
    intros f. split; [apply same_but_refl|done]. }
  repeat split. intros fid. eexists. split; [apply lookup_fmap|].
  intros f. simpl. destruct (in_torrent tid f).
  - split; [apply same_but_setattr|done].
  - split; [apply same_but_refl|done].
Qed.

End fan_out_frame.

(** X4.  What an update of a torrent leaves alone.  It changes no media
    row and no other torrent; it neither creates nor removes a media file; a
    media file of another torrent is unchanged, and one of this torrent
    changes at most in its [media_id].  When the torrent was already
    resolved, no media file changes at all: the fan-out runs only on the
    move of the reference from unset to set. *)
Theorem torrent_update_frame st id kwargs :
  let st' := Repository.update st (TorrentRef id) kwargs in
  media st' = media st ∧
  (∀ j, j ≠ id → torrents st' !! j = torrents st !! j) ∧
  dom (mediafiles st') = dom (mediafiles st) ∧
  (∀ fid f, mediafiles st !! fid = Some f →
     ∃ f', mediafiles st' !! fid = Some f' ∧ same_but "media_id" f f' ∧
           (in_torrent id f = false → f' = f)) ∧
  (∀ e, torrents st !! id = Some e → getattr e "media_id" ≠ PNone →
        mediafiles st' = mediafiles st).
Proof.
  simpl. unfold TorrentHandler.update.
  destruct (torrents st !! id) as [e|] eqn:He.
  2:{ repeat split; try done. intros fid f Hf. exists f.
      split; [done|]. split; [apply same_but_refl|done]. }
  set (e' := EntityHandler.update e kwargs).
  set (st1 := Store (media st) (<[id := e']> (torrents st)) (mediafiles st)).
  destruct (is_none (getattr e "media_id")
            && negb (is_none (getattr e' "media_id"))) eqn:Hc.
  - destruct (propagate_frame st1 id) as (Hm & Ht & Hf). simpl in *.
    rewrite Hm, Ht. split; [done|]. split.
    { intros j Hj. by rewrite lookup_insert_ne. }
    split.
    { apply set_eq. intros fid. rewrite !elem_of_dom.
      destruct (Hf fid) as (g & -> & _).
      by rewrite fmap_is_Some. }
    split.
    { intros fid f Hfid. destruct (Hf fid) as (g & Hg & Hsame).
      exists (g f). rewrite Hg, Hfid. split; [done|]. apply Hsame. }
    intros e0 [= <-] Hset. apply andb_true_iff in Hc as [Hnone _].
    apply is_none_true in Hnone. done.
  - simpl. split; [done|]. split.
    { intros j Hj. by rewrite lookup_insert_ne. }
    split; [done|]. split; [|done].
    intros fid f Hfid. exists f. split; [done|].
    split; [apply same_but_refl|done].
Qed.

(** X5.  What an update of a media file leaves alone.  It changes no media
    row and no other media file (the siblings of the file are not filled
    from it); it neither creates nor removes a torrent; and a torrent
    changes at most in its [media_id], and only when it is the torrent the
    updated file points at. *)
Theorem mediafile_update_frame st id kwargs :
  let st' := Repository.update st (FileRef id) kwargs in
  media st' = media st ∧
  (∀ j, j ≠ id → mediafiles st' !! j = mediafiles st !! j) ∧
  dom (torrents st') = dom (torrents st) ∧
  (∀ tid t, torrents st !! tid = Some t →
     ∃ t', torrents st' !! tid = Some t' ∧ same_but "media_id" t t' ∧
           (∀ f', mediafiles st' !! id = Some f' →
                  getattr f' "torrent_id" ≠ PInt tid → t' = t)).
Proof.
  simpl. unfold MediaFileHandler.update.
  destruct (mediafiles st !! id) as [e|] eqn:He.
  2:{ repeat split; try done. intros tid t Ht. exists t.
      split; [done|]. split; [apply same_but_refl|done]. }
  set (e' := EntityHandler.update e kwargs).
  set (st1 := Store (media st) (torrents st) (<[id := e']> (mediafiles st))).
  assert (∀ tid t, torrents st !! tid = Some t →
            ∃ t', torrents st !! tid = Some t' ∧ same_but "media_id" t t' ∧
                  (∀ f' : entity, Some e' = Some f' →
                     getattr f' "torrent_id" ≠ PInt tid → t' = t)) as Hsame.
  { intros tid t Ht. exists t. split; [done|].
    split; [apply same_but_refl|done]. }
  destruct (torrent_of st1 e') as [[tid t]|] eqn:Ht;
    [destruct (media_of st1 e') as [m|] eqn:Hm|]; simpl.
  - unfold torrent_of in Ht. simpl in Ht.
    destruct (getattr e' "torrent_id") as [| |tid'| |] eqn:Htid; try done.
    destruct (torrents st !! tid') as [t'|] eqn:Ht'; [|done].
    simpl in Ht. injection Ht as -> ->.
    split; [done|]. split.
    { intros j Hj. by rewrite lookup_insert_ne. }
    split.
    { apply dom_insert_lookup_L. by eexists. }
    intros tid0 t0 Ht0. rewrite lookup_insert_eq.
    destruct (decide (tid = tid0)) as [->|Hne].
    + rewrite lookup_insert_eq. eexists. split; [done|].
      rewrite Ht' in Ht0. injection Ht0 as ->.
      split; [apply same_but_setattr|].
      intros f' [= <-]. by rewrite Htid.
    + rewrite lookup_insert_ne by done. exists t0. split; [done|].
      split; [apply same_but_refl|done].
  - split; [done|]. split.
    { intros j Hj. by rewrite lookup_insert_ne. }
    split; [done|]. intros tid0 t0 Ht0. rewrite lookup_insert_eq.
    by apply Hsame.
  - split; [done|]. split.
    { intros j Hj. by rewrite lookup_insert_ne. }
    split; [done|]. intros tid0 t0 Ht0. rewrite lookup_insert_eq.
    by apply Hsame.
Qed.

Section upsert_round_trip.

Lemma holds_path_update p x kwargs :
  holds_path p x = true → holds_path p (EntityHandler.update x kwargs) = true.
Proof.
  unfold holds_path. intros [Ht|Hs]%orb_true_iff; apply orb_true_iff.
  - left. apply eq_str_true in Ht. apply eq_str_true.
    rewrite update_keeps_set; [done|]. by rewrite Ht.
  - right. apply eq_str_true in Hs. apply eq_str_true.
    rewrite update_keeps_set; [done|]. by rewrite Hs.
Qed.

Lemma holds_lookup_path e p :
  or_ (getattr e "symlink_path") (getattr e "target_path") = PStr p →
  lookup_path e = p ∧ holds_path p (setattr e "id" (PInt 0)) = true
  ∧ ∀ id, holds_path p (setattr e "id" (PInt id)) = true.
Proof.
  intros Hor. unfold lookup_path. rewrite Hor. split; [done|].
  assert (∀ id, holds_path p (setattr e "id" (PInt id)) = true) as Hall.
  { intros id. unfold holds_path. rewrite !getattr_setattr_ne by done.
    unfold or_ in Hor. apply orb_true_iff.
    destruct (truthy (getattr e "symlink_path")); [right|left];
      by apply eq_str_true. }
  split; [apply Hall|exact Hall].
Qed.

Lemma mediafile_get_by_path_str st p :
  MediaFileHandler.get_by_path st (PStr p) =
  first_match (holds_path p) (mediafiles st).
Proof. reflexivity. Qed.

End upsert_round_trip.

(** X6.  Insert and lookup of media files agree.  After
    [MediaFileHandler.add] of an entity that carries a path [p] (its symlink
    path, or its target path when it has no symlink path), the row returned
    holds [p], [get_by_path] finds a row for [p], and adding the entity a
    second time creates no further row. *)
Theorem mediafile_add_then_found st e p :
  or_ (getattr e "symlink_path") (getattr e "target_path") = PStr p →
  let st' := (MediaFileHandler.add st e).1 in
  let id := (MediaFileHandler.add st e).2 in
  (∃ x, mediafiles st' !! id = Some x ∧ holds_path p x = true) ∧
  is_Some (MediaFileHandler.get_by_path st' (PStr p)) ∧
  dom (mediafiles (MediaFileHandler.add st' e).1) = dom (mediafiles st').
Proof.
  intros Hor st' id.
  destruct (holds_lookup_path e p Hor) as (Hlp & _ & Hrow).
  assert (∃ x, mediafiles st' !! id = Some x ∧ holds_path p x = true) as Hx.
  { subst st' id. unfold MediaFileHandler.add.
    rewrite get_by_path_lookup_path, Hlp.
    destruct (first_match (holds_path p) (mediafiles st)) as [[k x]|] eqn:Hfm;
      simpl.
    - apply first_match_Some in Hfm as [Hk Hp].
      rewrite (mediafile_update_files _ _ _ _ Hk), lookup_insert_eq.
      eexists. split; [done|]. by apply holds_path_update.
    - rewrite lookup_insert_eq. eexists. split; [done|]. apply Hrow. }
  split; [done|]. destruct Hx as (x & Hid & Hp).
  assert (is_Some (first_match (holds_path p) (mediafiles st'))) as [[k y] Hfm]
    by (by eapply first_match_is_Some).
  split; [by rewrite mediafile_get_by_path_str, Hfm|].
  unfold MediaFileHandler.add at 1.
  rewrite get_by_path_lookup_path, Hlp, Hfm. simpl.
  apply first_match_Some in Hfm as [Hk _].
  rewrite (mediafile_update_files _ _ _ _ Hk).
  apply dom_insert_lookup_L. by eexists.
Qed.

Lemma mediafile_add_then_found_witness :
  let st' := (MediaFileHandler.add Samples.plain_session
                Samples.library_link).1 in
  let id := (MediaFileHandler.add Samples.plain_session
               Samples.library_link).2 in
  (∃ x, mediafiles st' !! id = Some x ∧
        holds_path "/library/movies/The Matrix (1999) {imdb-tt0133093}/a.mkv" x
        = true) ∧
  is_Some (MediaFileHandler.get_by_path st'
             (PStr "/library/movies/The Matrix (1999) {imdb-tt0133093}/a.mkv")) ∧
  dom (mediafiles (MediaFileHandler.add st' Samples.library_link).1)
  = dom (mediafiles st').
Proof.
  apply (mediafile_add_then_found Samples.plain_session Samples.library_link
           "/library/movies/The Matrix (1999) {imdb-tt0133093}/a.mkv").
  reflexivity.
Defined.

(** X7.  The fan-out is idempotent and confined to the torrent: running
    [_propagate_media_id_to_files] a second time changes nothing, and a run
    changes no media row, no torrent and no media file of another
    torrent. *)
Theorem propagate_idempotent st tid :
  let st' := TorrentHandler._propagate_media_id_to_files st tid in
  TorrentHandler._propagate_media_id_to_files st' tid = st' ∧
  media st' = media st ∧ torrents st' = torrents st ∧
  (∀ fid f, mediafiles st !! fid = Some f → in_torrent tid f = false →
            mediafiles st' !! fid = Some f).
Proof.
  simpl. split.
  - unfold TorrentHandler._propagate_media_id_to_files.
    destruct (torrents st !! tid) as [t|] eqn:Ht; [|by rewrite Ht].
    destruct (negb (truthy (getattr t "media_id"))) eqn:Hm; [by rewrite Ht, Hm|].
    simpl. rewrite Ht, Hm. apply store_eq; simpl; [done|done|].
    rewrite <- map_fmap_compose. apply map_fmap_ext. intros fid f _. simpl.
    destruct (in_torrent tid f) eqn:Hin; [|by rewrite Hin].
    assert (in_torrent tid (setattr f "media_id" (getattr t "media_id")) = true)
      as -> by (unfold in_torrent; by rewrite getattr_setattr_ne).
    apply setattr_setattr.
  - destruct (propagate_frame st tid) as (Hm & Ht & Hf). simpl in *.
    split; [done|]. split; [done|]. intros fid f Hfid Hin.
    destruct (Hf fid) as (g & -> & Hg). rewrite Hfid. simpl.
    f_equal. by apply Hg.
Qed.

(* ================================================================== *)
(** * Further properties of the parser *)

Section strip_more.

Implicit Types s : list ascii.

Lemma lstrip_suffix s : ∃ ws, s = ws ++ lstrip s.
Proof. destruct (lstrip_split s) as (ws & Heq & _). by exists ws. Qed.

Lemma rstrip_no_trailing s l c : rstrip s = l ++ [c] → Re.is_space c = false.
Proof.
  unfold rstrip. destruct (lstrip (reverse s)) as [|a r] eqn:E.
  - intros H. by destruct l.
  - rewrite reverse_cons. intros [_ <-]%app_inj_tail.
    by apply lstrip_head in E.
Qed.

(** A string that does not end in whitespace is its own right strip. *)
Lemma rstrip_fixed s :
  (∀ l c, s = l ++ [c] → Re.is_space c = false) → rstrip s = s.
Proof.
  intros Hlast. unfold rstrip.
  destruct (reverse s) as [|c r] eqn:E.
  - simpl. apply (inj reverse). by rewrite reverse_involutive, E.
  - assert (s = reverse r ++ [c]) as Hs.
    { apply (inj reverse). by rewrite E, reverse_app, reverse_involutive. }
    simpl. rewrite (Hlast _ _ Hs). by rewrite <- E, reverse_involutive.
Qed.

Lemma strip_idem s : strip (strip s) = strip s.
Proof.
  unfold strip at 1. rewrite rstrip_fixed; [apply lstrip_idem|].
  intros l c Hl. unfold strip in Hl.
  destruct (lstrip_suffix (rstrip s)) as (ws & Hws).
  rewrite Hl in Hws. rewrite app_assoc in Hws.
  by apply rstrip_no_trailing in Hws.
Qed.

Lemma strip_rstrip s : rstrip (strip s) = strip s.
Proof.
  apply rstrip_fixed. intros l c Hl. unfold strip in Hl.
  destruct (lstrip_suffix (rstrip s)) as (ws & Hws).
  rewrite Hl in Hws. rewrite app_assoc in Hws.
  by apply rstrip_no_trailing in Hws.
Qed.

Lemma one_line_lstrip s : one_line s → one_line (lstrip s).
Proof.
  intros H. destruct (lstrip_suffix s) as (ws & Hws).
  rewrite Hws in H. by apply Forall_app in H as [_ H].
Qed.

Lemma one_line_rstrip s : one_line s → one_line (rstrip s).
Proof.
  intros H. destruct (rstrip_split s) as (ws & Hws & _).
  rewrite Hws in H. by apply Forall_app in H as [H _].
Qed.

End strip_more.

Section parse_media_more.

(** The parse of a name of the library form. *)
Lemma parse_media_of_form (title w1 year w2 id : list ascii) :
  one_line (rstrip title) → spaces w1 → digits year → length year = 4%nat →
  spaces w2 → digits id → id ≠ [] →
  Parser.parse_media (text (title ++ tail_form w1 year w2 id [])) =
  Ok (Parser.MediaInfo (text (strip title)) (text year) (text id)).
Proof.
  intros. unfold Parser.parse_media.
  rewrite String.list_ascii_of_string_of_list_ascii.
  rewrite search_media_pattern by done.
  rewrite media_groups_title, media_groups_year, media_groups_id.
  unfold strip at 1. by rewrite rstrip_idem.
Qed.

(** What a successful parse captured. *)
Lemma parse_media_inv name info :
  Parser.parse_media name = Ok info →
  ∃ n a y b d e,
    chars name = take n (chars name) ++ tail_form a y b d e ∧
    one_line (take n (chars name)) ∧
    spaces a ∧ digits y ∧ length y = 4%nat ∧ spaces b ∧
    digits d ∧ d ≠ [] ∧ Re.at_end e = true ∧
    info = Parser.MediaInfo (text (strip (take n (chars name))))
             (text y) (text d).
Proof.
  unfold Parser.parse_media.
  destruct (Re.search Parser.media_pattern (chars name)) as [m|] eqn:E;
    [|done].
  intros [= <-]. unfold Re.search in E.
  apply first_success_Some in E as (i & _ & Hi).
  destruct (decide (i = 0%nat)) as [->|Hne];
    [|by rewrite exec_media_pattern_start in Hi].
  rewrite drop_0, exec_media_pattern_eq in Hi.
  apply first_success_Some in Hi as (n & Hn & Hex).
  apply counts_bounds in Hn as [[_ Hn] _]. simpl in Hn.
  apply exec_tail_sound in Hex
    as (a & y & b & d & e & Hform & Ha & Hy & Hy4 & Hb & Hd & Hd0 & He & ->).
  exists n, a, y, b, d, e.
  split; [by rewrite <- Hform, take_drop|].
  split.
  { eapply Forall_impl; [apply (span_take Re.Any _ _ Hn)|].
    intros c Hc. simpl in Hc. by destruct (Re.is_newline c). }
  rewrite media_groups_title, media_groups_year, media_groups_id.
  done.
Qed.

End parse_media_more.

(** X8.  What [parse_media] returns is well formed and canonical: the year
    is four digits, the identifier is one or more digits, the title has no
    surrounding whitespace and no line feed; and the name rendered from the
    result, [title (year) {imdb-ttID}], parses to the same result. *)
Theorem parse_media_canonical name info :
  Parser.parse_media name = Ok info →
  digits (chars (Parser.mi_year info)) ∧
  String.length (Parser.mi_year info) = 4%nat ∧
  digits (chars (Parser.mi_imdb_id info)) ∧
  Parser.mi_imdb_id info ≠ EmptyString ∧
  strip (chars (Parser.mi_title info)) = chars (Parser.mi_title info) ∧
  one_line (chars (Parser.mi_title info)) ∧
  Parser.parse_media
    (Parser.mi_title info +:+ " (" +:+ Parser.mi_year info +:+ ") {imdb-tt"
     +:+ Parser.mi_imdb_id info +:+ "}") = Ok info.
Proof.
  intros (n & a & y & b & d & e & _ & Hline & _ & Hy & Hy4 & _ & Hd & Hd0 & _
          & ->)%parse_media_inv.
  simpl. rewrite !String.list_ascii_of_string_of_list_ascii.
  set (t := take n (chars name)) in *.
  assert (one_line (strip t)) as Hst
    by (by apply one_line_lstrip, one_line_rstrip).
  split; [done|]. split; [by rewrite <- chars_length,
    String.list_ascii_of_string_of_list_ascii|].
  split; [done|]. split.
  { intros Hnil%(f_equal chars).
    by rewrite String.list_ascii_of_string_of_list_ascii in Hnil. }
  split; [apply strip_idem|]. split; [done|].
  assert (text (strip t) +:+ " (" +:+ text y +:+ ") {imdb-tt" +:+ text d
          +:+ "}" =
          text (strip t ++ tail_form (chars " ") y (chars " ") d [])) as ->.
  { apply list_ascii_inj. unfold tail_form.
    rewrite !list_ascii_app, !String.list_ascii_of_string_of_list_ascii.
    rewrite <- ?app_assoc. simpl. done. }
  rewrite parse_media_of_form; try done.
  - by rewrite strip_idem.
  - by rewrite strip_rstrip.
  - by repeat constructor.
  - by repeat constructor.
Qed.

Lemma parse_media_canonical_witness :
  Parser.parse_media "Blade Runner (The Final Cut) (1982) {imdb-tt0083658}" =
  Ok (Parser.MediaInfo "Blade Runner (The Final Cut)" "1982" "0083658").
Proof.
  apply (parse_media_canonical
           "  Blade Runner (The Final Cut)   (1982) {imdb-tt0083658}"
           (Parser.MediaInfo "Blade Runner (The Final Cut)" "1982" "0083658")).
  vm_compute. reflexivity.
Defined.

Section episode_pattern.

Implicit Types (u season episode post : list ascii) (c e : ascii).

Lemma digit_not_mark (cs : list ascii) c :
  Forall (λ x, Re.is_digit x = false) cs →
  Re.is_digit c = true → Re.cls_match (Re.OneOf cs) c = false.
Proof.
  intros Hcs Hc. simpl. apply bool_decide_eq_false. intros Hin.
  rewrite Forall_forall in Hcs. specialize (Hcs c Hin). congruence.
Qed.

Lemma mark_not_digit (cs : list ascii) c :
  Forall (λ x, Re.is_digit x = false) cs →
  c ∈ cs → Re.is_digit c = false.
Proof. intros Hcs Hc. rewrite Forall_forall in Hcs. by apply Hcs. Qed.

Lemma season_letters : Forall (λ x, Re.is_digit x = false) (chars "sS").
Proof. by repeat constructor. Qed.

Lemma episode_letters : Forall (λ x, Re.is_digit x = false) (chars "eE").
Proof. by repeat constructor. Qed.

Lemma span_digits_head c u : Re.is_digit c = false → Re.span Re.Digit (c :: u) = 0%nat.
Proof. intros H. simpl. by rewrite H. Qed.

Lemma span_mark_digits (cs : list ascii) u v :
  Forall (λ x, Re.is_digit x = false) cs →
  digits u → u ≠ [] → Re.span (Re.OneOf cs) (u ++ v) = 0%nat.
Proof.
  intros Hcs Hu Hne. destruct Hu as [|d u Hd _]; [done|].
  cbn [app Re.span]. by rewrite (digit_not_mark cs d Hcs Hd).
Qed.

(** The match of [episode_pattern] at the head of a string of its form. *)
Lemma exec_episode_complete pos c season e episode post :
  c ∈ chars "sS" → digits season → season ≠ [] →
  e ∈ chars "eE" → digits episode → episode ≠ [] →
  Re.span Re.Digit post = 0%nat →
  Re.exec Parser.episode_pattern pos (c :: season ++ e :: episode ++ post) []
  = Some [("2", episode); ("1", season)].
Proof.
  intros Hc Hs Hs0 He Hep Hep0 Hpost.
  unfold Parser.episode_pattern. cbn [Re.exec].
  apply (greedy_step (Re.OneOf (chars "sS")) 1 (Some 1%nat) [c]).
  { constructor; [|done]. by apply bool_decide_eq_true. }
  { by apply span_mark_digits; [apply season_letters|..]. }
  { simpl. lia. }
  { by intros m [= <-]. }
  cbn [length drop app]. rewrite ?drop_0.
  apply (greedy_step Re.Digit 1 None season).
  { done. }
  { apply span_digits_head, (mark_not_digit _ _ episode_letters He). }
  { destruct season; [done|simpl; lia]. }
  { done. }
  cbv beta. rewrite ?drop_0, drop_app_length, take_app_length.
  apply (greedy_step (Re.OneOf (chars "eE")) 1 (Some 1%nat) [e]).
  { constructor; [|done]. by apply bool_decide_eq_true. }
  { by apply span_mark_digits; [apply episode_letters|..]. }
  { simpl. lia. }
  { by intros m [= <-]. }
  cbn [length drop app]. rewrite ?drop_0.
  apply (greedy_step Re.Digit 1 None episode).
  { done. }
  { done. }
  { destruct episode; [done|simpl; lia]. }
  { done. }
  cbv beta. cbn [Re.exec]. by rewrite take_app_length.
Qed.

(** The strings at whose head [episode_pattern] matches. *)
Lemma exec_episode_sound pos u m :
  Re.exec Parser.episode_pattern pos u [] = Some m →
  ∃ c season e episode post,
    u = c :: season ++ e :: episode ++ post ∧
    c ∈ chars "sS" ∧ digits season ∧ season ≠ [] ∧
    e ∈ chars "eE" ∧ digits episode ∧ episode ≠ [] ∧
    Re.span Re.Digit post = 0%nat ∧
    m = [("2", episode); ("1", season)].
Proof.
  unfold Parser.episode_pattern. cbn [Re.exec].
  intros (n1 & Hn1 & H)%first_success_Some.
  apply counts_bounds in Hn1 as [[Hn1 Hn1'] Hn1''].
  cbn [Re.r_cls Re.r_min Re.r_max] in Hn1, Hn1', Hn1''.
  specialize (Hn1'' _ eq_refl). assert (n1 = 1%nat) as -> by lia.
  destruct u as [|c u]; [simpl in Hn1'; lia|].
  cbn [Re.span Re.cls_match] in Hn1'. destruct (bool_decide (c ∈ chars "sS")) eqn:Ec; [|lia].
  apply bool_decide_eq_true in Ec. cbn [drop] in H. rewrite ?drop_0 in H.
  clear Hn1 Hn1'.
  apply first_success_Some in H as (n2 & Hn2 & H).
  apply counts_bounds in Hn2 as [[Hn2 Hn2'] _]. simpl in Hn2, Hn2'.
  apply first_success_Some in H as (n3 & Hn3 & H).
  apply counts_bounds in Hn3 as [[Hn3 Hn3'] Hn3''].
  cbn [Re.r_cls Re.r_min Re.r_max] in Hn3, Hn3', Hn3''.
  specialize (Hn3'' _ eq_refl). assert (n3 = 1%nat) as -> by lia.
  destruct (drop n2 u) as [|e u2] eqn:E2; [simpl in Hn3'; lia|].
  cbn [Re.span Re.cls_match] in Hn3'. destruct (bool_decide (e ∈ chars "eE")) eqn:Ee; [|lia].
  apply bool_decide_eq_true in Ee. cbn [drop] in H. rewrite ?drop_0 in H.
  clear Hn3 Hn3'.
  assert (u = take n2 u ++ e :: u2) as Hu by (by rewrite <- E2, take_drop).
  destruct (decide (1 ≤ Re.span Re.Digit u2)%nat) as [Hsp|Hsp].
  - destruct (counts_greedy Re.Digit 1 None u2 Hsp) as [rest Hrest]; [done|].
    rewrite Hrest in H. simpl in H. injection H as <-.
    exists c, (take n2 u), e, (take (Re.span Re.Digit u2) u2),
      (drop (Re.span Re.Digit u2) u2).
    split; [by rewrite take_drop, <- Hu|].
    split; [done|]. split; [by apply (span_take Re.Digit)|].
    split.
    { pose proof (span_le_length Re.Digit u).
      intros Hnil%(f_equal length). rewrite length_take in Hnil.
      simpl in Hnil. lia. }
    split; [done|]. split; [by apply (span_take Re.Digit)|].
    split.
    { pose proof (span_le_length Re.Digit u2).
      intros Hnil%(f_equal length). rewrite length_take in Hnil.
      simpl in Hnil. lia. }
    split; [|done].
    pose proof (span_take Re.Digit u2 _ (le_n _)) as Htk.
    pose proof (span_app Re.Digit _ (drop (Re.span Re.Digit u2) u2) Htk) as Happ.
    rewrite take_drop, length_take in Happ.
    pose proof (span_le_length Re.Digit u2). lia.
  - unfold Re.counts in H. simpl in H.
    replace (Re.span Re.Digit u2 - 0)%nat with 0%nat in H by lia.
    done.
Qed.

(** Where the pattern cannot start to match. *)
Lemma exec_episode_none pos u :
  marked_head u = false → Re.exec Parser.episode_pattern pos u [] = None.
Proof.
  intros Hu. destruct (Re.exec _ _ _ _) as [m|] eqn:E; [|done].
  apply exec_episode_sound in E
    as (c & season & e & episode & post & -> & Hc & Hs & Hs0 & _).
  destruct Hs as [|d season Hd _]; [done|].
  cbn [app marked_head Re.cls_match] in Hu.
  by rewrite (bool_decide_eq_true_2 _ Hc), Hd in Hu.
Qed.

Lemma unmarked_drop s u i :
  unmarked s = true → Re.span Re.Digit u = 0%nat → (i < length s)%nat →
  marked_head (drop i (s ++ u)) = false.
Proof.
  revert i. induction s as [|c s IH]; intros i Hs Hu Hi; [simpl in Hi; lia|].
  cbn [unmarked] in Hs. apply andb_true_iff in Hs as [Hhd Hs].
  destruct i as [|i].
  - cbn [drop]. destruct s as [|d s].
    + destruct u as [|d u]; [done|]. simpl in Hu |- *.
      destruct (Re.is_digit d); [done|]. by rewrite andb_false_r.
    + by apply negb_true_iff in Hhd.
  - cbn [drop app]. apply IH; [done|done|simpl in Hi; lia].
Qed.

(** The first match in a string whose head has no marker. *)
Lemma search_episode pre c season e episode post :
  unmarked pre = true →
  c ∈ chars "sS" → digits season → season ≠ [] →
  e ∈ chars "eE" → digits episode → episode ≠ [] →
  Re.span Re.Digit post = 0%nat →
  Re.search Parser.episode_pattern
    (pre ++ c :: season ++ e :: episode ++ post)
  = Some [("2", episode); ("1", season)].
Proof.
  intros Hpre Hc Hs Hs0 He Hep Hep0 Hpost. unfold Re.search.
  rewrite length_app. cbn [length].
  replace (S (length pre + S (length (season ++ e :: episode ++ post))))
    with (length pre + S (S (length (season ++ e :: episode ++ post))))%nat
    by lia.
  rewrite seq_app. rewrite first_success_skip.
  - cbn [seq Nat.add]. apply first_success_here.
    rewrite drop_app_length. by apply exec_episode_complete.
  - intros i [_ Hi]%elem_of_seq. apply exec_episode_none.
    apply unmarked_drop; [done| |simpl in Hi; lia].
    apply span_digits_head, (mark_not_digit _ _ season_letters Hc).
Qed.

Lemma extract_media_episode_form (pre : string) c (season : string) e
    (episode post : string) :
  unmarked (chars pre) = true →
  c ∈ chars "sS" → digits (chars season) → season ≠ EmptyString →
  e ∈ chars "eE" → digits (chars episode) → episode ≠ EmptyString →
  Re.span Re.Digit (chars post) = 0%nat →
  Parser.extract_media_episode
    (pre +:+ String c season +:+ String e episode +:+ post)
  = (PStr season, PStr episode).
Proof.
  intros Hpre Hc Hs Hs0 He Hep Hep0 Hpost.
  unfold Parser.extract_media_episode.
  rewrite !list_ascii_app. cbn [String.list_ascii_of_string app].
  rewrite <- ?app_assoc. cbn [app].
  rewrite (search_episode (chars pre) c (chars season) e (chars episode)
             (chars post)); try done.
  - change (Re.group "1" [("2", chars episode); ("1", chars season)])
      with (chars season).
    change (Re.group "2" [("2", chars episode); ("1", chars season)])
      with (chars episode).
    by rewrite !String.string_of_list_ascii_of_string.
  - by destruct season.
  - by destruct episode.
Qed.

End episode_pattern.

(** X9.  [extract_media_episode] returns both numbers or neither.  When it
    returns them, the name holds a season letter, a run of digits, an
    episode letter and a run of digits that no digit follows, and the two
    runs are returned as they are written, leading zeros included. *)
Theorem extract_media_episode_both_or_neither (media_file : string) :
  Parser.extract_media_episode media_file = (PNone, PNone) ∨
  ∃ pre c season e episode post,
    chars media_file = pre ++ c :: season ++ e :: episode ++ post ∧
    c ∈ chars "sS" ∧ e ∈ chars "eE" ∧
    digits season ∧ season ≠ [] ∧ digits episode ∧ episode ≠ [] ∧
    Re.span Re.Digit post = 0%nat ∧
    Parser.extract_media_episode media_file =
      (PStr (text season), PStr (text episode)).
Proof.
  unfold Parser.extract_media_episode.
  destruct (Re.search _ _) as [m|] eqn:E; [right|by left].
  unfold Re.search in E. apply first_success_Some in E as (i & _ & Hi).
  apply exec_episode_sound in Hi
    as (c & season & e & episode & post & Hu & Hc & Hs & Hs0 & He & Hep
        & Hep0 & Hpost & ->).
  exists (take i (chars media_file)), c, season, e, episode, post.
  split; [by rewrite <- Hu, take_drop|]. done.
Qed.

(** X10.  In a name made of a head in which no season letter is directly
    followed by a digit, then a season letter, digits, an episode letter and
    digits, and a rest that does not start with a digit,
    [extract_media_episode] finds exactly these two runs of digits. *)
Theorem extract_media_episode_reads_marker (pre : string) (c : ascii)
    (season : string) (e : ascii) (episode post : string) :
  unmarked (chars pre) = true →
  c ∈ chars "sS" → digits (chars season) → season ≠ EmptyString →
  e ∈ chars "eE" → digits (chars episode) → episode ≠ EmptyString →
  Re.span Re.Digit (chars post) = 0%nat →
  Parser.extract_media_episode
    (pre +:+ String c season +:+ String e episode +:+ post)
  = (PStr season, PStr episode).
Proof.
  intros Hpre Hc Hs Hs0 He Hep Hep0 Hpost.
  assert (chars (pre +:+ String c season +:+ String e episode +:+ post) =
          chars pre ++ c :: chars season ++ e :: chars episode ++ chars post)
    as Hname.
  { rewrite !list_ascii_app. cbn [String.list_ascii_of_string app].
    by rewrite <- ?app_assoc. }
  unfold Parser.extract_media_episode. rewrite Hname.
  rewrite search_episode; try done.
  - change (Re.group "1" [("2", chars episode); ("1", chars season)])
      with (chars season).
    change (Re.group "2" [("2", chars episode); ("1", chars season)])
      with (chars episode).
    by rewrite !String.string_of_list_ascii_of_string.
  - by destruct season.
  - by destruct episode.
Qed.

Lemma extract_media_episode_reads_marker_witness :
  Parser.extract_media_episode
    ("/library/shows/Game of Thrones (2011) {imdb-tt0944947}/Game of Thrones (2011) - "
     +:+ String "s" "01" +:+ String "e" "02" +:+ ".mkv")
  = (PStr "01", PStr "02").
Proof.
  apply (extract_media_episode_reads_marker
           "/library/shows/Game of Thrones (2011) {imdb-tt0944947}/Game of Thrones (2011) - "
           "s" "01" "e" "02" ".mkv").
  - reflexivity.
  - apply list_elem_of_here.
  - repeat constructor.
  - discriminate.
  - apply list_elem_of_here.
  - repeat constructor.
  - discriminate.
  - reflexivity.
Defined.

(* ================================================================== *)
(** * Further properties of the naming of the library *)

Section paths.

Lemma append_assoc (a b c : string) : (a +:+ b) +:+ c = a +:+ (b +:+ c).
Proof. apply list_ascii_inj. by rewrite !list_ascii_app, app_assoc. Qed.

Lemma split_last_slash_None s :
  split_last_slash s = None ↔ "/"%char ∉ chars s.
Proof.
  induction s as [|c s IH]; simpl.
  - split; [intros _; apply not_elem_of_nil|done].
  - rewrite not_elem_of_cons.
    destruct (split_last_slash s) as [[d n]|].
    + split; [done|]. intros [_ Hs]. by apply IH in Hs.
    + destruct (Ascii.eqb_spec c "/"%char) as [->|Hne].
      * split; [done|]. by intros [? _].
      * split; [|done]. intros _. split; [done|]. by apply IH.
Qed.

Lemma split_last_slash_app b n :
  split_last_slash n = None →
  split_last_slash (b +:+ "/" +:+ n) = Some (b, n).
Proof.
  intros Hn. induction b as [|c b IH].
  - change (split_last_slash (String "/" n) = Some (EmptyString, n)).
    cbn [split_last_slash]. by rewrite Hn.
  - change (split_last_slash (String c (b +:+ "/" +:+ n)) =
            Some (String c b, n)).
    cbn [split_last_slash]. by rewrite IH.
Qed.

Lemma Path_of_str_join b n :
  "/"%char ∉ chars n → Path_of_str (b +:+ "/" +:+ n) = Path.Make b n.
Proof.
  intros Hn%split_last_slash_None. unfold Path_of_str.
  by rewrite split_last_slash_app.
Qed.

Lemma digits_no_slash (l : list ascii) : digits l → "/"%char ∉ l.
Proof.
  intros Hl Hin. unfold digits in Hl. rewrite Forall_forall in Hl.
  by specialize (Hl _ Hin).
Qed.

(** A suffix starts with its dot. *)
Lemma substring_from_dot s i :
  Path.rfind_dot s = Some i →
  ∃ rest, String.substring i (String.length s - i) s = String "." rest.
Proof.
  revert i. induction s as [|c s IH]; intros i; simpl; [done|].
  destruct (Path.rfind_dot s) as [j|].
  - intros [= <-]. destruct (IH j eq_refl) as [rest Hrest].
    exists rest. exact Hrest.
  - destruct (Ascii.eqb_spec c "."%char) as [->|]; [|done].
    intros [= <-]. by eexists.
Qed.

Lemma suffix_shape p :
  Path.suffix p = EmptyString ∨ ∃ rest, Path.suffix p = String "." rest.
Proof.
  unfold Path.suffix. destruct (Path.rfind_dot (Path.name p)) as [i|] eqn:E;
    [|by left].
  destruct (Path.splits_at _ _); [|by left]. right.
  by apply substring_from_dot.
Qed.

Lemma suffix_no_digit p : Re.span Re.Digit (chars (Path.suffix p)) = 0%nat.
Proof.
  destruct (suffix_shape p) as [->|[rest ->]]; reflexivity.
Qed.

End paths.

(** X11.  The directory [Media.get_path] names is read back by the library
    scanner: for a title without "/" and without line feed, a year of four
    digits and an identifier of digits, [get_media_info] finds the same
    kind, identifier and year, the title without surrounding whitespace,
    and the anime flag only when anime are kept in separate categories. *)
Theorem media_directory_read_back (media : entity) (library_base : string)
    (separate_anime : bool) (title year id : string) :
  Py.str (getattr media "title") = title →
  Py.str (getattr media "year") = year →
  Py.str (getattr media "id") = id →
  one_line (rstrip (chars title)) → "/"%char ∉ chars title →
  digits (chars year) → String.length year = 4%nat →
  digits (chars id) → id ≠ EmptyString →
  get_media_info (Media_get_path media library_base separate_anime) =
  Some (LibraryInfo (if is_movie media then "movie" else "show") id
          (text (strip (chars title))) year
          (truthy (getattr media "anime") && separate_anime)).
Proof.
  intros Ht Hy Hi Hline Hslash Hyd Hy4 Hid Hi0.
  unfold Media_get_path. rewrite Ht, Hy, Hi.
  set (category := if is_movie media then _ else _).
  rewrite <- (append_assoc "/" category), <- (append_assoc library_base).
  rewrite Path_of_str_join.
  2:{ rewrite !list_ascii_app, !elem_of_app.
      pose proof (digits_no_slash _ Hyd). pose proof (digits_no_slash _ Hid).
      cbn [String.list_ascii_of_string].
      rewrite !elem_of_cons, elem_of_nil. intuition congruence. }
  unfold get_media_info. cbn [Path.parent Path.name].
  assert (title +:+ " (" +:+ year +:+ ") {imdb-tt" +:+ id +:+ "}" =
          text (chars title
                ++ tail_form (chars " ") (chars year) (chars " ") (chars id) []))
    as ->.
  { apply list_ascii_inj. unfold tail_form.
    rewrite !list_ascii_app, !String.list_ascii_of_string_of_list_ascii.
    rewrite <- ?app_assoc. simpl. done. }
  rewrite parse_media_of_form; try done.
  - cbn [Parser.mi_imdb_id Parser.mi_title Parser.mi_year].
    rewrite !String.string_of_list_ascii_of_string.
    assert (basename (library_base +:+ "/" +:+ category) = category) as ->.
    { unfold basename. rewrite Path_of_str_join; [done|].
      apply split_last_slash_None. unfold category.
      by destruct (is_movie media), (truthy _ && separate_anime). }
    unfold category.
    by destruct (is_movie media), (truthy _ && separate_anime).
  - by repeat constructor.
  - by rewrite chars_length.
  - by repeat constructor.
  - by destruct id.
Qed.

Lemma media_directory_read_back_witness :
  get_media_info
    (Media_get_path (Media_create "movie" (PStr "0245429") (PStr " Spirited Away ")
                       (PInt 2001) (PBool true)) "/library" false) =
  Some (LibraryInfo "movie" "0245429" "Spirited Away" "2001" false).
Proof.
  apply (media_directory_read_back
           (Media_create "movie" (PStr "0245429") (PStr " Spirited Away ")
              (PInt 2001) (PBool true))
           "/library" false " Spirited Away " "2001" "0245429").
  - reflexivity.
  - vm_compute. reflexivity.
  - reflexivity.
  - vm_compute. repeat constructor.
  - apply split_last_slash_None. reflexivity.
  - vm_compute. repeat constructor.
  - reflexivity.
  - repeat constructor.
  - discriminate.
Defined.

(** X12.  The name [MediaFile.get_path] gives an episode is read back by the
    library scanner: when the season and the episode of the file are written
    with digits, and no season letter is directly followed by a digit in the
    directory, the title or the year, [extract_media_episode] finds this
    season and this episode in the path of the link. *)
Theorem episode_name_read_back (st : store) (f media : entity)
    (directory target season episode : string) :
  media_of st f = Some media →
  getattr f "target_path" = PStr target →
  truthy (getattr f "episode") = true →
  Py.str (getattr f "season") = season →
  Py.str (getattr f "episode") = episode →
  digits (chars season) → season ≠ EmptyString →
  digits (chars episode) → episode ≠ EmptyString →
  unmarked (chars (directory +:+ "/" +:+ Py.str (getattr media "title")
                   +:+ " (" +:+ Py.str (getattr media "year") +:+ ") - "))
    = true →
  ∃ name,
    MediaFile_get_path st f = Some name ∧
    Parser.extract_media_episode (directory +:+ "/" +:+ name) =
      (PStr season, PStr episode).
Proof.
  intros Hm Ht Hep Hs He Hsd Hs0 Hed He0 Hun.
  unfold MediaFile_get_path. rewrite Hm, Hep, Hs, He. eexists. split; [done|].
  set (title := Py.str (getattr media "title")) in *.
  set (year := Py.str (getattr media "year")) in *.
  set (suffix := Path.suffix _).
  assert (directory +:+ "/" +:+ title +:+ " (" +:+ year +:+ ") - s" +:+ season
          +:+ "e" +:+ episode +:+ suffix =
          (directory +:+ "/" +:+ title +:+ " (" +:+ year +:+ ") - ")
          +:+ String "s" season +:+ String "e" episode +:+ suffix) as ->.
  { apply list_ascii_inj. rewrite !list_ascii_app.
    cbn [String.list_ascii_of_string]. rewrite ?list_ascii_app.
    rewrite <- ?app_assoc. done. }
  apply extract_media_episode_form; try done.
  - apply list_elem_of_here.
  - apply list_elem_of_here.
  - apply suffix_no_digit.
Qed.

Lemma episode_name_read_back_witness :
  ∃ name,
    MediaFile_get_path Samples.fanout_session
      (MediaFile_create (PStr "/torrents/GoT.S01/got.102.mkv") (PInt 700)
         (PStr "0944947") PNone PNone (PInt 1) (PInt 2)) = Some name ∧
    Parser.extract_media_episode
      ("/library/shows/Game of Thrones (2011) {imdb-tt0944947}" +:+ "/" +:+ name)
    = (PStr "1", PStr "2").
Proof.
  apply (episode_name_read_back Samples.fanout_session _ Samples.thrones
           _ "/torrents/GoT.S01/got.102.mkv" "1" "2").
  - vm_compute. reflexivity.
  - reflexivity.
  - reflexivity.
  - vm_compute. reflexivity.
  - vm_compute. reflexivity.
  - repeat constructor.
  - discriminate.
  - repeat constructor.
  - discriminate.
  - vm_compute. reflexivity.
Defined.

(* ================================================================== *)
(** * Further properties of the scanners *)

Section scans.

Variable glob : Path.t → list Path.t.
Variable is_file : Path.t → bool.
Variable st_size : Path.t → Z.
Variable is_symlink : Path.t → bool.
Variable resolve : Path.t → Path.t.
Variable parse_title : string → gmap string val.
Variable iterdir : Path.t → list Path.t.
Variable is_dir : Path.t → bool.

(** The upsert of a media file writes no media row. *)
Lemma mediafile_add_media st e : media (MediaFileHandler.add st e).1 = media st.
Proof.
  unfold MediaFileHandler.add.
  destruct (MediaFileHandler.get_by_path _ _) as [[id existing]|]; [|done].
  simpl. unfold MediaFileHandler.update.
  destruct (mediafiles st !! id) as [f|]; [|done].
  destruct (torrent_of _ _) as [[tid t]|]; [|done].
  by destruct (media_of _ _).
Qed.

(** It changes a torrent at most in its [media_id]. *)
Lemma mediafile_add_torrents st e k t :
  torrents st !! k = Some t →
  ∃ t', torrents (MediaFileHandler.add st e).1 !! k = Some t' ∧
        same_but "media_id" t t'.
Proof.
  intros Hk. unfold MediaFileHandler.add.
  destruct (MediaFileHandler.get_by_path _ _) as [[id existing]|];
    [|exists t; split; [done|apply same_but_refl]].
  simpl. unfold MediaFileHandler.update.
  destruct (mediafiles st !! id) as [f|];
    [|exists t; split; [done|apply same_but_refl]].
  destruct (torrent_of _ _) as [[tid t0]|] eqn:Ht;
    [|exists t; split; [done|apply same_but_refl]].
  destruct (media_of _ _);
    [|exists t; split; [done|apply same_but_refl]].
  simpl. unfold torrent_of in Ht. simpl in Ht.
  destruct (getattr _ "torrent_id") as [| |tid'| |]; try done.
  destruct (torrents st !! tid') as [t1|] eqn:Ht1; [|done].
  simpl in Ht. injection Ht as -> ->.
  destruct (decide (tid = k)) as [->|Hne].
  - rewrite lookup_insert_eq. eexists. split; [done|].
    rewrite Hk in Ht1. injection Ht1 as ->. apply same_but_setattr.
  - rewrite lookup_insert_ne by done. exists t. split; [done|].
    apply same_but_refl.
Qed.

Lemma mediafile_add_has_path st e p :
  has_torrent_path st p → has_torrent_path (MediaFileHandler.add st e).1 p.
Proof.
  intros (k & t & Hk & Hp).
  destruct (mediafile_add_torrents st e k t Hk) as (t' & Hk' & Hsame).
  exists k, t'. split; [done|]. by rewrite Hsame.
Qed.

Lemma torrent_add_has_path st e p :
  has_torrent_path st p → has_torrent_path (TorrentHandler.add st e).1 p.
Proof.
  intros (k & t & Hk & Hp). unfold TorrentHandler.add.
  destruct (TorrentHandler.get_by_path _ _) as [[id existing]|];
    [by exists k, t|].
  exists k, t. simpl. split; [|done].
  rewrite lookup_insert_ne; [done|].
  intros <-. by rewrite fresh_key_fresh in Hk.
Qed.

Lemma torrent_add_new_path st e p :
  getattr e "path" = PStr p → has_torrent_path (TorrentHandler.add st e).1 p.
Proof.
  intros Hp. unfold TorrentHandler.add. rewrite Hp.
  rewrite torrent_get_by_path_str.
  destruct (first_match _ _) as [[id existing]|] eqn:E.
  - apply first_match_Some in E as [Hid Hc]. apply eq_str_true in Hc.
    by exists id, existing.
  - eexists _, _. simpl. split; [apply lookup_insert_eq|].
    by rewrite getattr_setattr_ne.
Qed.

Lemma foldl_has_path {A} (step : store → A → store) (l : list A) st p :
  (∀ st x, has_torrent_path st p → has_torrent_path (step st x) p) →
  has_torrent_path st p → has_torrent_path (foldl step st l) p.
Proof.
  intros Hstep. revert st. induction l as [|x l IH]; intros st Hst; [done|].
  simpl. by apply IH, Hstep.
Qed.

Lemma index_torrent_has_path st torrent_path files kind title year st' p :
  index_torrent st_size parse_title st torrent_path files kind title year
    = Ok st' →
  (has_torrent_path st p ∨ p = Path.str torrent_path) →
  has_torrent_path st' p.
Proof.
  unfold index_torrent.
  destruct (TorrentHandler.add st _) as [st1 torrent_id] eqn:Hadd.
  intros Hok Hp.
  assert (has_torrent_path st1 p) as H1.
  { replace st1 with (TorrentHandler.add st
      (Torrent_new (PStr (Path.str torrent_path)) title year)).1
      by (by rewrite Hadd).
    destruct Hp as [Hp| ->]; [by apply torrent_add_has_path|].
    by apply torrent_add_new_path. }
  destruct (bool_decide (kind = "movie")).
  - destruct (max_by_size st_size files) as [target_path|]; [|done].
    injection Hok as <-. by apply mediafile_add_has_path.
  - injection Hok as <-. apply foldl_has_path; [|done].
    intros st2 file H2. unfold index_show_file.
    destruct (Parser.parse_torrent_episode _ _) as [season episode].
    destruct (truthy season && truthy episode); [|done].
    by apply mediafile_add_has_path.
Qed.

Lemma get_nonempty st p :
  Repository_get st (λ t, eq_str (getattr t "path") p) ≠ [] ↔
  has_torrent_path st p.
Proof.
  unfold Repository_get. split.
  - destruct (filter _ _) as [|[k t] l] eqn:E; [done|]. intros _.
    assert ((k, t) ∈ filter (λ row : Z * entity,
              eq_str (getattr row.2 "path") p = true)
              (map_to_list (torrents st))) as Hin
      by (rewrite E; apply list_elem_of_here).
    apply list_elem_of_filter in Hin as [Hc Hin]. simpl in Hc.
    apply elem_of_map_to_list in Hin. apply eq_str_true in Hc.
    by exists k, t.
  - intros (k & t & Hk & Hp) Hnil.
    assert ((k, t) ∈ filter (λ row : Z * entity,
              eq_str (getattr row.2 "path") p = true)
              (map_to_list (torrents st))) as Hin.
    { apply list_elem_of_filter. split; [by apply eq_str_true|].
      by apply elem_of_map_to_list. }
    rewrite Hnil in Hin. by apply not_elem_of_nil in Hin.
Qed.

Local Abbreviation scan_t := (scan_torrent glob is_file st_size parse_title).

(** A scanned torrent leaves a torrent with its path, and keeps those there
    are. *)
Lemma scan_torrent_has_path st torrent_path p :
  has_torrent_path st p ∨
    (p = Path.str torrent_path ∧
     is_Some (get_torrent_info glob is_file parse_title torrent_path)) →
  has_torrent_path (scan_t st torrent_path) p.
Proof.
  intros Hp. unfold scan_torrent.
  destruct (Repository_get st _) as [|row rows] eqn:Hget.
  - destruct (get_torrent_info _ _ _ torrent_path) as [info|] eqn:Hinfo.
    + assert (ts_torrent_path info = torrent_path) as Hpath.
      { unfold get_torrent_info in Hinfo.
        destruct (Parser.parse_torrent _ _); [|done].
        destruct (get_media_files _ _ _); [done|]. by injection Hinfo as <-. }
      destruct (index_torrent _ _ _ _ _ _ _ _) as [st'|e] eqn:Hix.
      * eapply index_torrent_has_path; [exact Hix|]. rewrite Hpath.
        destruct Hp as [?|[? _]]; [by left|by right].
      * pose proof Hix as Hix'. unfold index_torrent in Hix'.
        destruct (TorrentHandler.add st _) as [st1 tid].
        destruct (bool_decide _); [|done].
        unfold get_torrent_info in Hinfo.
        destruct (Parser.parse_torrent _ _); [|done].
        destruct (get_media_files _ _ _) as [|f fs] eqn:Hfs; [done|].
        injection Hinfo as <-. by simpl in Hix'.
    + destruct Hp as [?|[_ [? ?]]]; done.
  - destruct Hp as [?|[-> _]]; [done|].
    apply get_nonempty. by rewrite Hget.
Qed.

(** A torrent whose path is in the session is skipped. *)
Lemma scan_torrent_skip st torrent_path :
  (is_Some (get_torrent_info glob is_file parse_title torrent_path) →
   has_torrent_path st (Path.str torrent_path)) →
  scan_t st torrent_path = st.
Proof.
  intros Hp. unfold scan_torrent.
  destruct (Repository_get st _) as [|row rows] eqn:Hget; [|done].
  destruct (get_torrent_info _ _ _ torrent_path) as [info|]; [|done].
  apply get_nonempty in Hp; [|by eexists]. by rewrite Hget in Hp.
Qed.

Lemma scan_torrents_has_path st paths p :
  has_torrent_path st p ∨
    (∃ torrent_path, torrent_path ∈ paths ∧ p = Path.str torrent_path ∧
       is_Some (get_torrent_info glob is_file parse_title torrent_path)) →
  has_torrent_path (foldl scan_t st paths) p.
Proof.
  revert st. induction paths as [|x paths IH]; intros st Hp.
  - destruct Hp as [?|(? & Hin & _)]; [done|]. by apply not_elem_of_nil in Hin.
  - simpl. apply IH. destruct Hp as [Hp|(tp & Hin & -> & Hinfo)].
    + left. apply scan_torrent_has_path. by left.
    + apply elem_of_cons in Hin as [->|Hin].
      * left. apply scan_torrent_has_path. by right.
      * right. by exists tp.
Qed.

Lemma scan_torrents_skip st paths :
  (∀ torrent_path, torrent_path ∈ paths →
     is_Some (get_torrent_info glob is_file parse_title torrent_path) →
     has_torrent_path st (Path.str torrent_path)) →
  foldl scan_t st paths = st.
Proof.
  induction paths as [|x paths IH]; intros Hp; [done|]. simpl.
  rewrite scan_torrent_skip.
  - apply IH. intros tp Hin. apply Hp. by right.
  - apply Hp. by left.
Qed.

Local Abbreviation scan_m := (scan_media glob is_file st_size is_symlink resolve).

Lemma index_media_media st kind imdb_id title year anime path :
  media (index_media glob is_file st_size is_symlink resolve st kind imdb_id
           title year anime path) =
  match media st !! imdb_id with
  | Some _ => media st
  | None =>
      if MediaHandler.not_null
           (Media_create kind (PStr imdb_id) title year anime)
      then <[imdb_id := Media_create kind (PStr imdb_id) title year anime]>
             (media st)
      else media st
  end.
Proof.
  unfold index_media, Repository.get_by_id. simpl.
  destruct (media st !! imdb_id) as [m|] eqn:Hm; [done|].
  rewrite media_add_absent by done.
  destruct (MediaHandler.not_null _); [|done].
  set (st1 := Store _ _ _).
  change (<[imdb_id := Media_create kind (PStr imdb_id) title year anime]>
            (media st)) with (media st1).
  generalize st1. clear.
  induction (get_media_files glob is_file path) as [|file files IH];
    intros st1; [done|].
  simpl. by rewrite IH, mediafile_add_media.
Qed.

Lemma scan_media_keeps st media_path id m :
  media st !! id = Some m → media (scan_m st media_path) !! id = Some m.
Proof.
  intros Hm. unfold scan_media.
  destruct (get_media_info media_path) as [info|]; [|done].
  rewrite index_media_media, not_null_create. cbn [is_none negb andb].
  destruct (media st !! li_imdb_id info) eqn:E; [done|].
  rewrite lookup_insert_ne; [done|]. intros <-. congruence.
Qed.

Lemma scan_media_indexed st media_path info :
  get_media_info media_path = Some info →
  is_Some (media (scan_m st media_path) !! li_imdb_id info).
Proof.
  intros Hinfo. unfold scan_media.
  rewrite Hinfo, index_media_media, not_null_create. cbn [is_none negb andb].
  destruct (media st !! li_imdb_id info) eqn:E; [by rewrite E|].
  rewrite lookup_insert_eq. by eexists.
Qed.

Lemma scan_media_skip st media_path :
  (∀ info, get_media_info media_path = Some info →
           is_Some (media st !! li_imdb_id info)) →
  scan_m st media_path = st.
Proof.
  intros Hin. unfold scan_media.
  destruct (get_media_info media_path) as [info|]; [|done].
  destruct (Hin info eq_refl) as [m Hm].
  unfold index_media, Repository.get_by_id. simpl. by rewrite Hm.
Qed.

Lemma scan_medias_keep st paths id m :
  media st !! id = Some m → media (foldl scan_m st paths) !! id = Some m.
Proof.
  revert st. induction paths as [|x paths IH]; intros st Hm; [done|].
  simpl. by apply IH, scan_media_keeps.
Qed.

Lemma scan_medias_indexed st paths media_path info :
  media_path ∈ paths → get_media_info media_path = Some info →
  is_Some (media (foldl scan_m st paths) !! li_imdb_id info).
Proof.
  revert st. induction paths as [|x paths IH]; intros st Hin Hinfo.
  - by apply not_elem_of_nil in Hin.
  - simpl. apply elem_of_cons in Hin as [->|Hin]; [|by apply IH].
    destruct (scan_media_indexed st x info Hinfo) as [m Hm].
    exists m. by apply scan_medias_keep.
Qed.

Lemma scan_medias_skip st paths :
  (∀ media_path info, media_path ∈ paths →
     get_media_info media_path = Some info →
     is_Some (media st !! li_imdb_id info)) →
  foldl scan_m st paths = st.
Proof.
  induction paths as [|x paths IH]; intros Hp; [done|]. simpl.
  rewrite scan_media_skip.
  - apply IH. intros mp info Hin. apply Hp. by right.
  - intros info. apply Hp. by left.
Qed.

End scans.

(** X13.  A full scan of the library is idempotent and never rewrites a
    media: on the same file system, a second [full_scan] leaves the session
    as the first one left it, and a media row that was in the session before
    a scan is the same row after it (a directory whose identifier is
    already known is skipped, new files in it included). *)
Theorem library_full_scan_idempotent glob is_file st_size is_symlink resolve
    iterdir is_dir (st : store) (categories : Categories.t)
    (library_base : string) :
  LibraryScanner_full_scan glob is_file st_size is_symlink resolve iterdir
    is_dir
    (LibraryScanner_full_scan glob is_file st_size is_symlink resolve iterdir
       is_dir st categories library_base)
    categories library_base =
  LibraryScanner_full_scan glob is_file st_size is_symlink resolve iterdir
    is_dir st categories library_base ∧
  ∀ id m, media st !! id = Some m →
    media (LibraryScanner_full_scan glob is_file st_size is_symlink resolve
             iterdir is_dir st categories library_base) !! id = Some m.
Proof.
  unfold LibraryScanner_full_scan. split.
  - apply scan_medias_skip. intros media_path info Hin Hinfo.
    by apply scan_medias_indexed with media_path.
  - intros id m. apply scan_medias_keep.
Qed.

(** X14.  A full scan of the torrents is idempotent and keeps paths: on the
    same file system, a second [full_scan] leaves the session as the first
    one left it; a path that had a torrent before a scan has one after it;
    and every listed directory whose name is parsed and that holds a video
    file has a torrent after the scan. *)
Theorem torrent_full_scan_idempotent glob is_file st_size parse_title iterdir
    is_dir (st : store) (torrent_base : Path.t) :
  TorrentScanner_full_scan glob is_file st_size parse_title iterdir is_dir
    (TorrentScanner_full_scan glob is_file st_size parse_title iterdir is_dir
       st torrent_base)
    torrent_base =
  TorrentScanner_full_scan glob is_file st_size parse_title iterdir is_dir
    st torrent_base ∧
  (∀ p, has_torrent_path st p →
     has_torrent_path
       (TorrentScanner_full_scan glob is_file st_size parse_title iterdir
          is_dir st torrent_base) p) ∧
  (∀ torrent_path,
     torrent_path ∈ get_torrent_paths iterdir is_dir torrent_base →
     is_Some (get_torrent_info glob is_file parse_title torrent_path) →
     has_torrent_path
       (TorrentScanner_full_scan glob is_file st_size parse_title iterdir
          is_dir st torrent_base) (Path.str torrent_path)).
Proof.
  unfold TorrentScanner_full_scan. split; [|split].
  - apply scan_torrents_skip. intros torrent_path Hin Hinfo.
    apply scan_torrents_has_path. right. by exists torrent_path.
  - intros p Hp. apply scan_torrents_has_path. by left.
  - intros torrent_path Hin Hinfo.
    apply scan_torrents_has_path. right. by exists torrent_path.
Qed.

(* ================================================================== *)
(** * Further properties of the resolution pass *)

Section linking.

Lemma update_singleton e key v :
  EntityHandler.update e {[key := v]} =
  if is_none (getattr e key) then setattr e key v else e.
Proof.
  unfold EntityHandler.update. rewrite map_fold_singleton.
  reflexivity.
Qed.

(** Linking a torrent that has no media: the torrent and each of its files
    receive the reference. *)
Lemma link_unset st id e m :
  torrents st !! id = Some e → getattr e "media_id" = PNone →
  m ≠ EmptyString →
  Repository.update st (TorrentRef id) {["media_id" := PStr m]} =
  Store (media st) (<[id := setattr e "media_id" (PStr m)]> (torrents st))
    ((λ f, if in_torrent id f then setattr f "media_id" (PStr m) else f)
       <$> mediafiles st).
Proof.
  intros He Hnone Hm. simpl. unfold TorrentHandler.update.
  rewrite He, update_singleton, Hnone. simpl.
  rewrite getattr_setattr_eq. simpl.
  unfold TorrentHandler._propagate_media_id_to_files. simpl.
  rewrite lookup_insert_eq, getattr_setattr_eq. simpl.
  destruct (String.eqb_spec m EmptyString); done.
Qed.

(** Linking a torrent whose reference is set changes nothing. *)
Lemma link_set st id e m :
  torrents st !! id = Some e → getattr e "media_id" ≠ PNone →
  Repository.update st (TorrentRef id) {["media_id" := PStr m]} = st.
Proof.
  intros He Hset. simpl. apply (torrent_update_fixed _ _ _ _ He).
  rewrite update_singleton. apply is_none_false in Hset. by rewrite Hset.
Qed.

Lemma same_but_trans key e1 e2 e3 :
  same_but key e1 e2 → same_but key e2 e3 → same_but key e1 e3.
Proof. intros H1 H2 k Hk. by rewrite H2, H1. Qed.

Lemma only_links_refl st : only_links st st.
Proof.
  split; [done|]. split; [done|]. split; [done|]. split.
  - intros k t Hk. exists t. split; [done|]. split; [apply same_but_refl|done].
  - intros k f Hk. exists f. split; [done|]. split; [apply same_but_refl|done].
Qed.

Lemma only_links_trans st1 st2 st3 :
  only_links st1 st2 → only_links st2 st3 → only_links st1 st3.
Proof.
  intros (Hm1 & Hdt1 & Hdf1 & Ht1 & Hf1) (Hm2 & Hdt2 & Hdf2 & Ht2 & Hf2).
  split; [by intros id m Hid; apply Hm2, Hm1|].
  split; [by rewrite Hdt2|]. split; [by rewrite Hdf2|]. split.
  - intros k t Hk. destruct (Ht1 k t Hk) as (t' & Hk' & Hs' & Hfix').
    destruct (Ht2 k t' Hk') as (t'' & Hk'' & Hs'' & Hfix'').
    exists t''. split; [done|]. split; [by eapply same_but_trans|].
    intros Htr. rewrite <- (Hfix' Htr). apply Hfix''.
    by rewrite (Hfix' Htr).
  - intros k f Hk. destruct (Hf1 k f Hk) as (f' & Hk' & Hs' & Hfix').
    destruct (Hf2 k f' Hk') as (f'' & Hk'' & Hs'' & Hfix'').
    exists f''. split; [done|]. split; [by eapply same_but_trans|].
    intros Hset. rewrite <- (Hfix' Hset). apply Hfix''.
    rewrite (Hfix' Hset). intros tid t2 Htid Ht2'.
    assert (is_Some (torrents st1 !! tid)) as [t1 Ht1'].
    { apply elem_of_dom. rewrite <- Hdt1. apply elem_of_dom. by eexists. }
    destruct (Ht1 tid t1 Ht1') as (t1' & Ht1'' & _ & Hfix1).
    specialize (Hset tid t1 Htid Ht1'). rewrite (Hfix1 Hset) in Ht1''.
    congruence.
Qed.

Lemma media_add_tables st e st' :
  MediaHandler.add st e = Some st' →
  torrents st' = torrents st ∧ mediafiles st' = mediafiles st.
Proof. by intros [->|(id & _ & _ & ->)]%media_add_Some. Qed.

Lemma only_links_media_add st e st' :
  MediaHandler.add st e = Some st' → only_links st st'.
Proof.
  intros [->|(id & _ & Hm & ->)]%media_add_Some; [apply only_links_refl|].
  split.
  { intros j m Hj. simpl. rewrite lookup_insert_ne; [done|]. congruence. }
  split; [done|]. split; [done|]. split.
  - intros k t Hk. exists t. split; [done|]. split; [apply same_but_refl|done].
  - intros k f Hk. exists f. split; [done|]. split; [apply same_but_refl|done].
Qed.

Lemma only_links_link st id e m :
  torrents st !! id = Some e → truthy (getattr e "media_id") = false →
  m ≠ EmptyString →
  only_links st (Repository.update st (TorrentRef id) {["media_id" := PStr m]}).
Proof.
  intros He Hfalse Hm.
  destruct (is_none (getattr e "media_id")) eqn:Hn.
  2:{ apply is_none_false in Hn. rewrite (link_set st id e m He Hn).
      apply only_links_refl. }
  apply is_none_true in Hn. rewrite (link_unset st id e m He Hn Hm).
  split; [done|]. split.
  { simpl. apply dom_insert_lookup_L. by eexists. }
  split; [simpl; apply dom_fmap_L|]. split.
  - intros k t Hk. simpl. destruct (decide (id = k)) as [->|Hne].
    + rewrite lookup_insert_eq. eexists. split; [done|].
      rewrite He in Hk. injection Hk as <-.
      split; [apply same_but_setattr|]. congruence.
    + rewrite lookup_insert_ne by done. exists t. split; [done|].
      split; [apply same_but_refl|done].
  - intros k f Hk. simpl. rewrite lookup_fmap, Hk. simpl.
    eexists. split; [done|]. destruct (in_torrent id f) eqn:Hin.
    + split; [apply same_but_setattr|]. intros Hset.
      unfold in_torrent in Hin.
      destruct (getattr f "torrent_id") as [| |tid| |] eqn:Htid; try done.
      simpl in Hin. apply bool_decide_eq_true in Hin as ->.
      specialize (Hset id e Htid He). congruence.
    + split; [apply same_but_refl|done].
Qed.

Variable parse_title : string → gmap string val.
Variable get_imdb_id : val → val → string → outcome (option string).
Variable get_media : string → outcome resolved_media.

Local Abbreviation step := (resolve_torrent parse_title get_imdb_id get_media).
Local Abbreviation steps :=
  (resolve_torrents parse_title get_imdb_id get_media).

Lemma resolve_torrents_cons st id ids :
  steps st (id :: ids) = step st id ≫= λ st1, steps st1 ids.
Proof.
  unfold resolve_torrents. simpl. destruct (step st id) as [st1|]; [done|].
  simpl. induction ids as [|j ids IH]; [done|]. by simpl.
Qed.

Lemma resolve_torrents_app st l1 l2 :
  steps st (l1 ++ l2) = steps st l1 ≫= λ st1, steps st1 l2.
Proof.
  revert st. induction l1 as [|id l1 IH]; intros st; [done|].
  simpl. rewrite !resolve_torrents_cons.
  destruct (step st id) as [st1|]; [|done]. simpl. apply IH.
Qed.

Lemma only_links_step st id st' : step st id = Some st' → only_links st st'.
Proof.
  unfold resolve_torrent.
  destruct (torrents st !! id) as [e|] eqn:He;
    [|intros [= <-]; apply only_links_refl].
  destruct (truthy (getattr e "media_id")) eqn:Htr;
    [intros [= <-]; apply only_links_refl|].
  destruct (Parser.parse_torrent _ _) as [info|];
    [|intros [= <-]; apply only_links_refl].
  destruct (get_imdb_id _ _ _) as [[imdb_id|]|];
    try (intros [= <-]; apply only_links_refl).
  destruct (bool_decide (imdb_id = EmptyString)) eqn:Hm;
    [intros [= <-]; apply only_links_refl|].
  apply bool_decide_eq_false in Hm.
  destruct (Repository.get_by_id st (MediaRef imdb_id)).
  - intros [= <-]. by apply (only_links_link st id e).
  - destruct (get_media imdb_id) as [mi|];
      [|intros [= <-]; apply only_links_refl].
    destruct (MediaHandler.add st _) as [st1|] eqn:Hadd; [|done].
    intros [= <-].
    eapply only_links_trans; [by eapply only_links_media_add|].
    apply (only_links_link _ id e); [|done|done].
    by rewrite (proj1 (media_add_tables _ _ _ Hadd)).
Qed.

Lemma only_links_steps st ids st' :
  steps st ids = Some st' → only_links st st'.
Proof.
  revert st. induction ids as [|id ids IH]; intros st.
  - intros [= <-]. apply only_links_refl.
  - rewrite resolve_torrents_cons.
    destruct (step st id) as [st1|] eqn:Hstep; [|done]. simpl. intros Hrest.
    eapply only_links_trans; [by apply (only_links_step st id)|by apply IH].
Qed.

(** The iteration on one torrent leaves another torrent and its files as
    they are. *)
Lemma step_other st j k st' :
  step st j = Some st' → j ≠ k →
  torrents st' !! k = torrents st !! k ∧
  ∀ fid f, mediafiles st !! fid = Some f → in_torrent k f = true →
           mediafiles st' !! fid = Some f.
Proof.
  intros Hstep Hjk.
  assert (∀ st0 : store, torrents st0 = torrents st →
            mediafiles st0 = mediafiles st → ∀ m,
    torrents (Repository.update st0 (TorrentRef j) {["media_id" := PStr m]})
      !! k = torrents st !! k ∧
    ∀ fid f, mediafiles st !! fid = Some f → in_torrent k f = true →
      mediafiles (Repository.update st0 (TorrentRef j)
                    {["media_id" := PStr m]}) !! fid = Some f) as Hlink.
  { intros st0 Ht0 Hf0 m. simpl. unfold TorrentHandler.update.
    destruct (torrents st0 !! j) as [e|] eqn:He; [|by rewrite Ht0, Hf0].
    destruct (_ && _).
    - destruct (propagate_frame
                  (Store (media st0)
                     (<[j := EntityHandler.update e {["media_id" := PStr m]}]>
                        (torrents st0)) (mediafiles st0)) j)
        as (_ & Ht & Hf). simpl in Ht, Hf.
      rewrite Ht. split; [by rewrite lookup_insert_ne, Ht0|].
      intros fid f Hfid Hin. destruct (Hf fid) as (g & Hg & Hsame).
      rewrite Hg, Hf0, Hfid. simpl. f_equal. apply Hsame.
      unfold in_torrent in *.
      destruct (getattr f "torrent_id"); try done. simpl in *.
      apply bool_decide_eq_true in Hin as ->. by apply bool_decide_eq_false.
    - simpl. rewrite Hf0. by rewrite lookup_insert_ne, Ht0. }
  revert Hstep. unfold resolve_torrent.
  destruct (torrents st !! j) as [e|] eqn:He; [|by intros [= <-]].
  destruct (truthy (getattr e "media_id")); [by intros [= <-]|].
  destruct (Parser.parse_torrent _ _) as [info|]; [|by intros [= <-]].
  destruct (get_imdb_id _ _ _) as [[imdb_id|]|]; try by intros [= <-].
  destruct (bool_decide (imdb_id = EmptyString)); [by intros [= <-]|].
  destruct (Repository.get_by_id st (MediaRef imdb_id)).
  - intros [= <-]. by apply Hlink.
  - destruct (get_media imdb_id) as [mi|]; [|by intros [= <-]].
    destruct (MediaHandler.add st _) as [st1|] eqn:Hadd; [|done].
    intros [= <-]. apply Hlink; by apply (media_add_tables _ _ _ Hadd).
Qed.

Lemma steps_other st ids k st' :
  steps st ids = Some st' → k ∉ ids →
  torrents st' !! k = torrents st !! k ∧
  ∀ fid f, mediafiles st !! fid = Some f → in_torrent k f = true →
           mediafiles st' !! fid = Some f.
Proof.
  revert st. induction ids as [|j ids IH]; intros st Hsteps Hk.
  - by injection Hsteps as <-.
  - apply not_elem_of_cons in Hk as [Hkj Hk].
    rewrite resolve_torrents_cons in Hsteps.
    destruct (step st j) as [st1|] eqn:Hstep; [|done]. simpl in Hsteps.
    destruct (step_other st j k st1 Hstep) as [Ht Hf]; [done|].
    destruct (IH st1 Hsteps Hk) as [Ht' Hf'].
    split; [by rewrite Ht', Ht|].
    intros fid f Hfid Hin. apply Hf'; [|done]. by apply Hf.
Qed.

(** With a resolver whose records can be stored, no flush fails. *)
Lemma step_returns st id :
  storable get_media → is_Some (step st id).
Proof.
  intros Hstorable. unfold resolve_torrent.
  destruct (torrents st !! id) as [e|]; [|done].
  destruct (truthy (getattr e "media_id")); [done|].
  destruct (Parser.parse_torrent _ _) as [info|]; [|done].
  destruct (get_imdb_id _ _ _) as [[imdb_id|]|]; try done.
  destruct (bool_decide (imdb_id = EmptyString)); [done|].
  destruct (Repository.get_by_id st (MediaRef imdb_id)) eqn:Hm; [done|].
  destruct (get_media imdb_id) as [mi|] eqn:Hmi; [|done].
  destruct (Hstorable imdb_id mi Hmi) as (-> & Htitle & Hyear).
  rewrite media_add_absent, not_null_create by done.
  destruct (rm_title mi), (rm_year mi); done.
Qed.

Lemma steps_return st ids :
  storable get_media → is_Some (steps st ids).
Proof.
  intros Hstorable. revert st. induction ids as [|id ids IH]; intros st;
    [done|].
  rewrite resolve_torrents_cons.
  destruct (step_returns st id Hstorable) as [st1 ->]. simpl. apply IH.
Qed.

(** The iteration on a torrent the resolver resolves. *)
Lemma step_links st k t info imdb_id :
  storable get_media →
  torrents st !! k = Some t → getattr t "media_id" = PNone →
  Parser.parse_torrent parse_title (basename (Py.str (getattr t "path")))
    = Ok info →
  get_imdb_id (Parser.ti_title info) (Parser.ti_year info)
    (Parser.ti_kind info) = Ok (Some imdb_id) →
  imdb_id ≠ EmptyString →
  (is_Some (media st !! imdb_id) ∨ ∃ mi, get_media imdb_id = Ok mi) →
  ∃ st', step st k = Some st' ∧
    torrents st' !! k = Some (setattr t "media_id" (PStr imdb_id)) ∧
    (∀ fid f, mediafiles st !! fid = Some f → in_torrent k f = true →
       mediafiles st' !! fid = Some (setattr f "media_id" (PStr imdb_id))) ∧
    is_Some (media st' !! imdb_id).
Proof.
  intros Hstorable Ht Hnone Hparse Hid Hne Hmedia.
  unfold resolve_torrent. rewrite Ht, Hnone, Hparse, Hid. simpl.
  rewrite bool_decide_eq_false_2 by done.
  assert (∀ st0 : store, torrents st0 = torrents st →
            mediafiles st0 = mediafiles st →
    let st' := Repository.update st0 (TorrentRef k)
                 {["media_id" := PStr imdb_id]} in
    torrents st' !! k = Some (setattr t "media_id" (PStr imdb_id)) ∧
    (∀ fid f, mediafiles st !! fid = Some f → in_torrent k f = true →
       mediafiles st' !! fid = Some (setattr f "media_id" (PStr imdb_id))) ∧
    media st' = media st0) as Hlink.
  { intros st0 Ht0 Hf0. cbv zeta.
    rewrite (link_unset st0 k t imdb_id); [|by rewrite Ht0|done|done].
    simpl. split; [apply lookup_insert_eq|]. split; [|done].
    intros fid f Hfid Hin. rewrite lookup_fmap, Hf0, Hfid. simpl.
    by rewrite Hin. }
  destruct (media st !! imdb_id) as [m|] eqn:Hm.
  - destruct (Hlink st eq_refl eq_refl) as (H1 & H2 & H3).
    eexists. split; [done|]. split; [done|]. split; [done|].
    simpl in H3. rewrite H3, Hm. by eexists.
  - destruct Hmedia as [[? ?]|[mi Hmi]]; [done|]. rewrite Hmi.
    destruct (Hstorable imdb_id mi Hmi) as (Heq & Htitle & Hyear).
    rewrite Heq, media_add_absent, not_null_create by done.
    replace (negb (is_none (rm_title mi)) && negb (is_none (rm_year mi))
             && negb (is_none (PBool (rm_anime mi)))) with true
      by (by destruct (rm_title mi), (rm_year mi)).
    set (st0 := Store _ _ _).
    destruct (Hlink st0 eq_refl eq_refl) as (H1 & H2 & H3).
    eexists. split; [done|]. split; [done|]. split; [done|].
    simpl in H3. rewrite H3. unfold st0. simpl. rewrite lookup_insert_eq.
    by eexists.
Qed.

Lemma steps_links st ids k t info imdb_id :
  storable get_media →
  NoDup ids → k ∈ ids →
  torrents st !! k = Some t → getattr t "media_id" = PNone →
  Parser.parse_torrent parse_title (basename (Py.str (getattr t "path")))
    = Ok info →
  get_imdb_id (Parser.ti_title info) (Parser.ti_year info)
    (Parser.ti_kind info) = Ok (Some imdb_id) →
  imdb_id ≠ EmptyString →
  (is_Some (media st !! imdb_id) ∨ ∃ mi, get_media imdb_id = Ok mi) →
  ∃ st', steps st ids = Some st' ∧
    torrents st' !! k = Some (setattr t "media_id" (PStr imdb_id)) ∧
    (∀ fid f, mediafiles st !! fid = Some f → in_torrent k f = true →
       mediafiles st' !! fid = Some (setattr f "media_id" (PStr imdb_id))) ∧
    is_Some (media st' !! imdb_id).
Proof.
  intros Hstorable Hnd Hin Ht Hnone Hparse Hid Hne Hmedia.
  apply list_elem_of_split in Hin as (l1 & l2 & ->).
  apply NoDup_app in Hnd as (_ & Hl1 & Hnd2).
  apply NoDup_cons in Hnd2 as [Hl2 _].
  assert (k ∉ l1) as Hk1 by (intros Hk; apply (Hl1 k Hk); left).
  rewrite resolve_torrents_app.
  destruct (steps_return st l1 Hstorable) as [sta Hsta]. rewrite Hsta. simpl.
  rewrite resolve_torrents_cons.
  destruct (steps_other st l1 k sta Hsta Hk1) as [Hta Hfa].
  pose proof (only_links_steps st l1 sta Hsta) as (Hma & _ & Hdfa & _ & _).
  assert (is_Some (media sta !! imdb_id) ∨ ∃ mi, get_media imdb_id = Ok mi)
    as Hmedia'.
  { destruct Hmedia as [[m Hm]|?]; [left|by right]. exists m. by apply Hma. }
  destruct (step_links sta k t info imdb_id)
    as (stb & Hstb & H1 & H2 & [m Hm]); try done.
  { by rewrite Hta. }
  rewrite Hstb. simpl.
  destruct (steps_return stb l2 Hstorable) as [stc Hstc]. rewrite Hstc.
  destruct (steps_other stb l2 k stc Hstc Hl2) as [Htb Hfb].
  pose proof (only_links_steps stb l2 stc Hstc) as (Hmb & _ & _ & _ & _).
  exists stc. split; [done|]. split; [by rewrite Htb|]. split.
  - intros fid f Hfid Hink. apply Hfb.
    + apply H2; [by apply Hfa|done].
    + unfold in_torrent in *. by rewrite getattr_setattr_ne.
  - exists m. by apply Hmb.
Qed.

(** An update of a torrent leaves the media. *)
Lemma torrent_update_media st id kwargs :
  media (TorrentHandler.update st id kwargs) = media st.
Proof.
  unfold TorrentHandler.update.
  destruct (torrents st !! id) as [e|]; [|done].
  destruct (_ && _); [|done].
  by destruct (propagate_frame
                 (Store (media st)
                    (<[id := EntityHandler.update e kwargs]> (torrents st))
                    (mediafiles st)) id) as (-> & _).
Qed.

(** While the records are under the identifier asked for, an identifier
    whose record cannot be stored stays free as long as the flushes
    succeed. *)
Lemma step_media_absent st j st' imdb_id mi :
  (∀ id mi', get_media id = Ok mi' → rm_imdb_id mi' = id) →
  get_media imdb_id = Ok mi →
  rm_title mi = PNone ∨ rm_year mi = PNone →
  media st !! imdb_id = None →
  step st j = Some st' →
  media st' !! imdb_id = None.
Proof.
  intros Hsame Hmi Hnull Hfree. unfold resolve_torrent.
  destruct (torrents st !! j) as [e|]; [|by intros [= <-]].
  destruct (truthy (getattr e "media_id")); [by intros [= <-]|].
  destruct (Parser.parse_torrent _ _) as [info|]; [|by intros [= <-]].
  destruct (get_imdb_id _ _ _) as [[id'|]|]; try by intros [= <-].
  destruct (bool_decide (id' = EmptyString)); [by intros [= <-]|].
  destruct (Repository.get_by_id st (MediaRef id')) eqn:Hget.
  - intros [= <-]. by rewrite torrent_update_media.
  - destruct (get_media id') as [mi'|] eqn:Hmi'; [|by intros [= <-]].
    simpl in Hget. rewrite (Hsame id' mi' Hmi').
    rewrite media_add_absent, not_null_create by done.
    destruct (negb (is_none (rm_title mi')) && negb (is_none (rm_year mi'))
              && negb (is_none (PBool (rm_anime mi')))) eqn:Hnn; [|done].
    intros [= <-]. rewrite torrent_update_media. cbn [media].
    rewrite lookup_insert_ne; [done|]. intros ->.
    assert (mi' = mi) as -> by congruence.
    by destruct Hnull as [Hn|Hn]; rewrite Hn in Hnn;
      destruct (rm_title mi); simpl in Hnn.
Qed.

Lemma steps_media_absent st ids st' imdb_id mi :
  (∀ id mi', get_media id = Ok mi' → rm_imdb_id mi' = id) →
  get_media imdb_id = Ok mi →
  rm_title mi = PNone ∨ rm_year mi = PNone →
  media st !! imdb_id = None →
  steps st ids = Some st' →
  media st' !! imdb_id = None.
Proof.
  intros Hsame Hmi Hnull. revert st.
  induction ids as [|j ids IH]; intros st Hfree.
  - by intros [= <-].
  - rewrite resolve_torrents_cons.
    destruct (step st j) as [st1|] eqn:Hstep; [|done]. simpl.
    apply IH. by apply (step_media_absent st j st1 imdb_id mi).
Qed.

(** The iteration on a torrent whose record cannot be stored. *)
Lemma step_fails st k t info imdb_id mi :
  torrents st !! k = Some t → getattr t "media_id" = PNone →
  Parser.parse_torrent parse_title (basename (Py.str (getattr t "path")))
    = Ok info →
  get_imdb_id (Parser.ti_title info) (Parser.ti_year info)
    (Parser.ti_kind info) = Ok (Some imdb_id) →
  imdb_id ≠ EmptyString →
  media st !! imdb_id = None →
  get_media imdb_id = Ok mi → rm_imdb_id mi = imdb_id →
  rm_title mi = PNone ∨ rm_year mi = PNone →
  step st k = None.
Proof.
  intros Ht Hnone Hparse Hid Hne Hfree Hmi Heq Hnull.
  unfold resolve_torrent. rewrite Ht, Hnone, Hparse, Hid. simpl.
  rewrite bool_decide_eq_false_2 by done. rewrite Hfree, Hmi, Heq.
  rewrite media_add_absent, not_null_create by done.
  by destruct Hnull as [-> | ->]; [|destruct (rm_title mi)].
Qed.

(** The pass over the torrents, one of which has a record that cannot be
    stored: a flush fails. *)
Lemma steps_fail st ids k t info imdb_id mi :
  (∀ id mi', get_media id = Ok mi' → rm_imdb_id mi' = id) →
  k ∈ ids → NoDup ids →
  torrents st !! k = Some t → getattr t "media_id" = PNone →
  Parser.parse_torrent parse_title (basename (Py.str (getattr t "path")))
    = Ok info →
  get_imdb_id (Parser.ti_title info) (Parser.ti_year info)
    (Parser.ti_kind info) = Ok (Some imdb_id) →
  imdb_id ≠ EmptyString →
  media st !! imdb_id = None →
  get_media imdb_id = Ok mi →
  rm_title mi = PNone ∨ rm_year mi = PNone →
  steps st ids = None.
Proof.
  intros Hsame Hin Hnd Ht Hnone Hparse Hid Hne Hfree Hmi Hnull.
  apply list_elem_of_split in Hin as (l1 & l2 & ->).
  apply NoDup_app in Hnd as (_ & Hl1 & _).
  assert (k ∉ l1) as Hk1 by (intros Hk; apply (Hl1 k Hk); left).
  rewrite resolve_torrents_app.
  destruct (steps st l1) as [sta|] eqn:Hsta; [|done]. simpl.
  rewrite resolve_torrents_cons.
  destruct (steps_other st l1 k sta Hsta Hk1) as [Hta _].
  rewrite (step_fails sta k t info imdb_id mi); try done.
  - by rewrite Hta.
  - by apply (steps_media_absent st l1 sta imdb_id mi).
  - by apply Hsame.
Qed.

(** The pass only links, whether its transaction is committed or rolled
    back. *)
Lemma only_links_pass st :
  only_links st
    (add_missing_media_to_torrents parse_title get_imdb_id get_media st).
Proof.
  unfold add_missing_media_to_torrents.
  destruct (steps st _) as [st'|] eqn:Hpass; cbn [from_option Datatypes.id].
  - by apply (only_links_steps st (Repository_get_all st).*1).
  - apply only_links_refl.
Qed.

End linking.

(** X15.  The resolution pass only links.  [add_missing_media_to_torrents]
    rewrites no media row, creates and removes no torrent and no media
    file, changes a torrent or a media file in its [media_id] only, leaves a
    torrent that had a media as it is, and leaves a media file as it is
    unless it belongs to a torrent that had no media. *)
Theorem resolution_only_links parse_title get_imdb_id get_media (st : store) :
  (∀ id m, media st !! id = Some m →
     media (add_missing_media_to_torrents parse_title get_imdb_id get_media st)
       !! id = Some m) ∧
  dom (torrents
         (add_missing_media_to_torrents parse_title get_imdb_id get_media st))
    = dom (torrents st) ∧
  dom (mediafiles
         (add_missing_media_to_torrents parse_title get_imdb_id get_media st))
    = dom (mediafiles st) ∧
  (∀ k t, torrents st !! k = Some t →
     ∃ t', torrents
             (add_missing_media_to_torrents parse_title get_imdb_id get_media
                st) !! k = Some t' ∧
           same_but "media_id" t t' ∧
           (truthy (getattr t "media_id") = true → t' = t)) ∧
  (∀ k f, mediafiles st !! k = Some f →
     ∃ f', mediafiles
             (add_missing_media_to_torrents parse_title get_imdb_id get_media
                st) !! k = Some f' ∧
           same_but "media_id" f f' ∧ (settled st f → f' = f)).
Proof.
  unfold add_missing_media_to_torrents.
  change (only_links st
            (default st
               (resolve_torrents parse_title get_imdb_id get_media st
                  (Repository_get_all st).*1))).
  destruct (resolve_torrents _ _ _ st _) as [st'|] eqn:Hpass;
    cbn [from_option Datatypes.id].
  - by apply (only_links_steps parse_title get_imdb_id get_media st
                (Repository_get_all st).*1).
  - apply only_links_refl.
Qed.

(** X16.  The resolution pass links what the resolver resolves, when the
    records the resolver retrieves can be stored (each is under the
    identifier asked for and has a title and a year, so that no flush of
    the pass fails).  For a torrent without media whose name is parsed and
    for which the resolver gives an identifier, when the media is in the
    session or the resolver retrieves it: after
    [add_missing_media_to_torrents] the torrent refers to that identifier,
    and so does every media file of the torrent, whatever media the file
    referred to before; and the media is in the session. *)
Theorem resolution_links parse_title get_imdb_id get_media (st : store)
    (k : Z) (t : entity) (info : Parser.torrent_info) (imdb_id : string) :
  storable get_media →
  torrents st !! k = Some t → getattr t "media_id" = PNone →
  Parser.parse_torrent parse_title (basename (Py.str (getattr t "path")))
    = Ok info →
  get_imdb_id (Parser.ti_title info) (Parser.ti_year info)
    (Parser.ti_kind info) = Ok (Some imdb_id) →
  imdb_id ≠ EmptyString →
  (is_Some (media st !! imdb_id) ∨ ∃ mi, get_media imdb_id = Ok mi) →
  torrents (add_missing_media_to_torrents parse_title get_imdb_id get_media st)
    !! k = Some (setattr t "media_id" (PStr imdb_id)) ∧
  (∀ fid f, mediafiles st !! fid = Some f → in_torrent k f = true →
     mediafiles
       (add_missing_media_to_torrents parse_title get_imdb_id get_media st)
       !! fid = Some (setattr f "media_id" (PStr imdb_id))) ∧
  is_Some
    (media
       (add_missing_media_to_torrents parse_title get_imdb_id get_media st)
       !! imdb_id).
Proof.
  intros Hstorable Ht Hnone Hparse Hid Hne Hmedia.
  unfold add_missing_media_to_torrents, Repository_get_all.
  destruct (steps_links parse_title get_imdb_id get_media st
              (map_to_list (torrents st)).*1 k t info imdb_id)
    as (st' & -> & Hlinked); try done.
  - apply NoDup_fst_map_to_list.
  - apply list_elem_of_fmap. exists (k, t). split; [done|].
    by apply elem_of_map_to_list.
Qed.

(** The theorem at a session that holds no media, with a resolver that
    retrieves the record of the title: the media is stored and the torrent
    and its file are linked to it. *)
Lemma resolution_links_witness :
  torrents (add_missing_media_to_torrents ResolverSamples.parse_title
              ResolverSamples.get_imdb_id ResolverSamples.retrieve
              ResolverSamples.pending_session)
    !! 1 = Some (setattr (Samples.torrent_row PNone) "media_id"
                   (PStr "0133093")) ∧
  (∀ fid f, mediafiles ResolverSamples.pending_session !! fid = Some f →
     in_torrent 1 f = true →
     mediafiles
       (add_missing_media_to_torrents ResolverSamples.parse_title
          ResolverSamples.get_imdb_id ResolverSamples.retrieve
          ResolverSamples.pending_session)
       !! fid = Some (setattr f "media_id" (PStr "0133093"))) ∧
  is_Some
    (media
       (add_missing_media_to_torrents ResolverSamples.parse_title
          ResolverSamples.get_imdb_id ResolverSamples.retrieve
          ResolverSamples.pending_session)
       !! "0133093").
Proof.
  apply (resolution_links ResolverSamples.parse_title
           ResolverSamples.get_imdb_id ResolverSamples.retrieve
           ResolverSamples.pending_session 1 (Samples.torrent_row PNone)
           (Parser.TorrentInfo (PStr "The Matrix") (PInt 1999) "movie")
           "0133093").
  - intros imdb_id media_info [= <-]. by repeat split.
  - reflexivity.
  - reflexivity.
  - vm_compute. reflexivity.
  - reflexivity.
  - discriminate.
  - right. eexists. reflexivity.
Defined.

(** X28.  A record without title or year undoes the whole resolution
    pass.  When the resolver returns its records under the identifier
    asked for, and the session holds an unresolved torrent whose name is
    parsed, whose identifier the resolver gives and whose media is not in
    the session, but whose record has no title or no year: the flush of
    that media fails, which rolls back the one transaction of the pass,
    and [add_missing_media_to_torrents] leaves the session as it found
    it, the torrents it had linked before that one included. *)
Theorem resolution_incomplete_record_undoes_pass parse_title get_imdb_id
    get_media (st : store) (k : Z) (t : entity)
    (info : Parser.torrent_info) (imdb_id : string) (mi : resolved_media) :
  (∀ id mi', get_media id = Ok mi' → rm_imdb_id mi' = id) →
  torrents st !! k = Some t → getattr t "media_id" = PNone →
  Parser.parse_torrent parse_title (basename (Py.str (getattr t "path")))
    = Ok info →
  get_imdb_id (Parser.ti_title info) (Parser.ti_year info)
    (Parser.ti_kind info) = Ok (Some imdb_id) →
  imdb_id ≠ EmptyString →
  media st !! imdb_id = None →
  get_media imdb_id = Ok mi →
  rm_title mi = PNone ∨ rm_year mi = PNone →
  add_missing_media_to_torrents parse_title get_imdb_id get_media st = st.
Proof.
  intros Hsame Ht Hnone Hparse Hid Hne Hfree Hmi Hnull.
  unfold add_missing_media_to_torrents, Repository_get_all.
  rewrite (steps_fail parse_title get_imdb_id get_media st
             (map_to_list (torrents st)).*1 k t info imdb_id mi); try done.
  - apply list_elem_of_fmap. exists (k, t). split; [done|].
    by apply elem_of_map_to_list.
  - apply NoDup_fst_map_to_list.
Qed.

(** The theorem at the session that holds no media, with a resolver whose
    record of the title has no year. *)
Lemma resolution_incomplete_record_undoes_pass_witness :
  add_missing_media_to_torrents ResolverSamples.parse_title
    ResolverSamples.get_imdb_id ResolverSamples.retrieve_incomplete
    ResolverSamples.pending_session = ResolverSamples.pending_session.
Proof.
  apply (resolution_incomplete_record_undoes_pass ResolverSamples.parse_title
           ResolverSamples.get_imdb_id ResolverSamples.retrieve_incomplete
           ResolverSamples.pending_session 1 (Samples.torrent_row PNone)
           (Parser.TorrentInfo (PStr "The Matrix") (PInt 1999) "movie")
           "0133093"
           (ResolvedMedia "0133093" (PStr "The Matrix") PNone false "movie")).
  - by intros id mi' [= <-].
  - reflexivity.
  - reflexivity.
  - vm_compute. reflexivity.
  - reflexivity.
  - discriminate.
  - reflexivity.
  - reflexivity.
  - by right.
Defined.

(* ================================================================== *)
(** * Further properties of the file names and of the resolver *)

Section suffixes.

Lemma rfind_dot_split s i :
  Path.rfind_dot s = Some i →
  ∃ a rest, s = a +:+ String "." rest ∧ String.length a = i ∧
            Path.rfind_dot rest = None.
Proof.
  revert i. induction s as [|c s IH]; intros i; simpl; [done|].
  destruct (Path.rfind_dot s) as [j|] eqn:E.
  - intros [= <-]. destruct (IH j eq_refl) as (a & rest & -> & <- & Hrest).
    by exists (String c a), rest.
  - destruct (Ascii.eqb_spec c "."%char) as [->|]; [|done].
    intros [= <-]. by exists EmptyString, s.
Qed.

Lemma rfind_dot_app a rest :
  Path.rfind_dot rest = None →
  Path.rfind_dot (a +:+ String "." rest) = Some (String.length a).
Proof.
  intros Hrest. induction a as [|c a IH].
  - change (Path.rfind_dot (String "." rest) = Some 0%nat).
    cbn [Path.rfind_dot]. by rewrite Hrest.
  - change (Path.rfind_dot (String c (a +:+ String "." rest))
            = Some (S (String.length a))).
    cbn [Path.rfind_dot]. by rewrite IH.
Qed.

Lemma substring_whole s : String.substring 0 (String.length s) s = s.
Proof. induction s as [|c s IH]; [done|]. simpl. by rewrite IH. Qed.

Lemma length_append (a b : string) :
  String.length (a +:+ b) = (String.length a + String.length b)%nat.
Proof. induction a as [|c a IH]; [done|]. simpl. by rewrite IH. Qed.

Lemma substring_tail a b :
  String.substring (String.length a)
    (String.length (a +:+ b) - String.length a) (a +:+ b) = b.
Proof.
  rewrite length_append.
  replace (String.length a + String.length b - String.length a)%nat
    with (String.length b) by lia.
  induction a as [|c a IH]; [apply substring_whole|]. exact IH.
Qed.

(** The suffix of a name that ends in a dot, a non-empty rest without dot,
    after a non-empty head. *)
Lemma suffix_of_parts d a rest :
  Path.rfind_dot rest = None → a ≠ EmptyString → rest ≠ EmptyString →
  Path.suffix (Path.Make d (a +:+ String "." rest)) = String "." rest.
Proof.
  intros Hrest Ha Hr. unfold Path.suffix. cbn [Path.name].
  rewrite rfind_dot_app by done.
  assert (Path.splits_at (a +:+ String "." rest) (String.length a) = true)
    as ->.
  { unfold Path.splits_at. rewrite length_append. cbn [String.length].
    assert (0 < String.length a)%nat by (destruct a; [done|simpl; lia]).
    assert (0 < String.length rest)%nat by (destruct rest; [done|simpl; lia]).
    apply andb_true_iff. split; apply Nat.ltb_lt; lia. }
  apply substring_tail.
Qed.

Lemma suffix_parts p :
  Path.suffix p ≠ EmptyString →
  ∃ rest, Path.suffix p = String "." rest ∧ Path.rfind_dot rest = None ∧
          rest ≠ EmptyString.
Proof.
  unfold Path.suffix.
  destruct (Path.rfind_dot (Path.name p)) as [i|] eqn:E; [|done].
  destruct (Path.splits_at (Path.name p) i) eqn:Hsp; [|done]. intros _.
  destruct (rfind_dot_split _ _ E) as (a & rest & Hname & <- & Hrest).
  exists rest. rewrite Hname. rewrite substring_tail.
  split; [done|]. split; [done|].
  intros ->. unfold Path.splits_at in Hsp. rewrite Hname in Hsp.
  rewrite length_append in Hsp. simpl in Hsp.
  apply andb_true_iff in Hsp as [_ Hlt]. apply Nat.ltb_lt in Hlt. lia.
Qed.

(** A versioned name keeps the extension. *)
Lemma suffix_versioned p n :
  Path.suffix p ≠ EmptyString →
  Path.suffix (versioned p n) = Path.suffix p.
Proof.
  intros Hne. destruct (suffix_parts p Hne) as (rest & Hs & Hrest & Hr).
  unfold versioned, Path.div, new_filename. rewrite Hs.
  assert (Path.stem p +:+ " - v" +:+ pretty n +:+ String "." rest =
          (Path.stem p +:+ " - v" +:+ pretty n) +:+ String "." rest) as ->.
  { apply list_ascii_inj. rewrite !list_ascii_app. by rewrite <- !app_assoc. }
  apply suffix_of_parts; [done| |done].
  intros Hnil%(f_equal String.length). rewrite !length_append in Hnil.
  simpl in Hnil. lia.
Qed.

End suffixes.

(** X17.  [get_unique_filename] always returns, and [exists()] is false of
    the path it returns; that path lies in the directory of the path asked
    for, it keeps the extension when there is one, and the file name
    returned without [return_full_path] is the final component of the path
    returned with it.  ([exists()] follows symbolic links: it is false also
    of a link whose target is missing, so the name returned can still be
    that of such a link.) *)
Theorem get_unique_filename_fresh (fs : gset string) (p : Path.t) :
  ∃ q,
    get_unique_filename fs p true = Some (FullPath q) ∧
    get_unique_filename fs p false = Some (FileName (Path.name q)) ∧
    Path.exists_ fs q = false ∧
    Path.parent q = Path.parent p ∧
    (Path.suffix p ≠ EmptyString → Path.suffix q = Path.suffix p).
Proof.
  unfold get_unique_filename.
  destruct (Path.exists_ fs p) eqn:Hex; cbn [negb].
  - destruct (first_free_version fs p 2) as (n & Hn & Hfree & Hbelow).
    exists (versioned p n).
    rewrite (version_loop_first_free fs p true _ 2 n) by (done || lia).
    rewrite (version_loop_first_free fs p false _ 2 n) by (done || lia).
    split; [done|]. split; [done|]. split; [done|]. split; [done|].
    apply suffix_versioned.
  - by exists p.
Qed.

Section first_of_kind.

Variable search_movie : string → outcome (list Resolver.search_result).

Lemma find_first {A} (P : A → bool) (l : list A) :
  match List.find P l with
  | Some x => ∃ pre post, l = pre ++ x :: post ∧ P x = true
                          ∧ Forall (λ y, P y = false) pre
  | None => Forall (λ y, P y = false) l
  end.
Proof.
  induction l as [|a l IH]; simpl; [constructor|].
  destruct (P a) eqn:Ha.
  - exists [], l. by repeat split.
  - destruct (List.find P l) as [x|].
    + destruct IH as (pre & post & -> & Hx & Hpre).
      exists (a :: pre), post. split; [done|]. split; [done|].
      by constructor.
    + by constructor.
Qed.

Lemma result_type_show result :
  Resolver.result_type result = "show" ↔
  ∃ s, s ∈ Resolver.SHOW_TYPES ∧ Resolver.sr_kind result = PStr s.
Proof.
  unfold Resolver.result_type.
  destruct (existsb _ _) eqn:E.
  - split; [intros _|done]. apply existsb_exists in E as (s & Hs & Heq).
    exists s. split; [by apply list_elem_of_In|by apply eq_str_true].
  - split; [done|]. intros (s & Hs & Heq).
    assert (existsb (eq_str (Resolver.sr_kind result)) Resolver.SHOW_TYPES
            = true) as Htrue.
    { apply existsb_exists. exists s.
      split; [by apply list_elem_of_In|by apply eq_str_true]. }
    congruence.
Qed.

End first_of_kind.

(** X18.  With a title and a valid kind, [get_imdb_id] sends the one query
    "title year" (the title and a space when there is no year) and returns
    the identifier of the first result of the requested kind in the order of
    the service, or [None] when there is none.  A result counts as a show
    exactly when its kind is "tv series" or "tv mini series", and as a movie
    otherwise; its title and its year are not compared with the request. *)
Theorem get_imdb_id_first_of_kind
    (search_movie : string → outcome (list Resolver.search_result))
    (title year : val) (kind : string)
    (results : list Resolver.search_result) :
  truthy title = true → kind ∈ Resolver.VALID_TYPES →
  search_movie (Py.str title +:+ " "
                +:+ (if truthy year then Py.str year else EmptyString))
    = Ok results →
  Resolver.queries (Resolver.get_imdb_id search_movie title year kind) =
    [Py.str title +:+ " "
     +:+ (if truthy year then Py.str year else EmptyString)] ∧
  ((∃ pre result post,
      results = pre ++ result :: post ∧
      Forall (λ r, Resolver.result_type r ≠ kind) pre ∧
      Resolver.result_type result = kind ∧
      Resolver.returned (Resolver.get_imdb_id search_movie title year kind)
        = Ok (Resolver.movieID result)) ∨
   (Forall (λ r, Resolver.result_type r ≠ kind) results ∧
    Resolver.returned (Resolver.get_imdb_id search_movie title year kind)
      = Ok PNone)) ∧
  (∀ r, (Resolver.result_type r = "show" ↔
         Resolver.sr_kind r = PStr "tv series" ∨
         Resolver.sr_kind r = PStr "tv mini series") ∧
        (Resolver.result_type r = "show" ∨ Resolver.result_type r = "movie")).
Proof.
  intros Ht Hk Hs. unfold Resolver.get_imdb_id.
  rewrite Ht, (bool_decide_eq_true_2 _ Hk), Hs. simpl.
  split; [done|]. split.
  - pose proof (find_first
      (λ r, bool_decide (Resolver.result_type r = kind)) results) as Hfind.
    destruct (List.find _ results) as [x|].
    + left. destruct Hfind as (pre & post & -> & Hx & Hpre).
      exists pre, x, post. split; [done|]. split.
      * eapply Forall_impl; [exact Hpre|]. intros r Hr.
        by apply bool_decide_eq_false in Hr.
      * split; [by apply bool_decide_eq_true in Hx|done].
    + right. split; [|done].
      eapply Forall_impl; [exact Hfind|]. intros r Hr.
      by apply bool_decide_eq_false in Hr.
  - intros r. split.
    + rewrite result_type_show. unfold Resolver.SHOW_TYPES. split.
      * intros (s & Hin & ->). rewrite !elem_of_cons, elem_of_nil in Hin.
        destruct Hin as [->|[->|[]]]; [by left|by right].
      * intros [->| ->]; eexists; (split; [|done]);
          rewrite !elem_of_cons; tauto.
    + unfold Resolver.result_type. destruct (existsb _ _); [by left|by right].
Qed.

Lemma get_imdb_id_first_of_kind_witness :
  Resolver.queries
    (Resolver.get_imdb_id ServiceSamples.search_movie (PStr "The Matrix")
       (PInt 1999) "movie") = ["The Matrix 1999"] ∧
  ((∃ pre result post,
      ServiceSamples.results = pre ++ result :: post ∧
      Forall (λ r, Resolver.result_type r ≠ "movie") pre ∧
      Resolver.result_type result = "movie" ∧
      Resolver.returned
        (Resolver.get_imdb_id ServiceSamples.search_movie (PStr "The Matrix")
           (PInt 1999) "movie") = Ok (Resolver.movieID result)) ∨
   (Forall (λ r, Resolver.result_type r ≠ "movie") ServiceSamples.results ∧
    Resolver.returned
      (Resolver.get_imdb_id ServiceSamples.search_movie (PStr "The Matrix")
         (PInt 1999) "movie") = Ok PNone)) ∧
  (∀ r, (Resolver.result_type r = "show" ↔
         Resolver.sr_kind r = PStr "tv series" ∨
         Resolver.sr_kind r = PStr "tv mini series") ∧
        (Resolver.result_type r = "show" ∨ Resolver.result_type r = "movie")).
Proof.
  apply (get_imdb_id_first_of_kind ServiceSamples.search_movie
           (PStr "The Matrix") (PInt 1999) "movie" ServiceSamples.results).
  - reflexivity.
  - apply list_elem_of_here.
  - reflexivity.
Defined.

(** X20.  The contract of [get_media].  An empty identifier raises a
    [ValueError] and the service is not called.  Otherwise the service is
    called once, with the identifier: a record gives the information, under
    the identifier asked for, as a show exactly for the kinds "tv series"
    and "tv mini series", and as anime exactly when its genres hold "Anime",
    or "Animation" with "Japan" among its countries; a missing record gives
    a [ValueError]; a [ValueError] of the service comes out as it is, and
    any other failure as a [RuntimeError]. *)
Theorem get_media_contract (get_movie : string → outcome (option movie))
    (imdb_id : string) :
  (imdb_id = EmptyString →
   ∃ msg, Resolver_get_media get_movie imdb_id =
          Resolver.Run [] (Raise (ValueError msg))) ∧
  (imdb_id ≠ EmptyString →
   Resolver.queries (Resolver_get_media get_movie imdb_id) = [imdb_id] ∧
   (∀ info,
      Resolver.returned (Resolver_get_media get_movie imdb_id) = Ok info ↔
      ∃ media,
        get_movie imdb_id = Ok (Some media) ∧
        rm_imdb_id info = imdb_id ∧
        rm_title info = mv_title media ∧ rm_year info = mv_year media ∧
        (rm_anime info = true ↔
         "Anime" ∈ default [] (mv_genres media) ∨
         "Animation" ∈ default [] (mv_genres media) ∧
         "Japan" ∈ default [] (mv_countries media)) ∧
        (rm_kind info = "show" ∧
           (mv_kind media = PStr "tv series" ∨
            mv_kind media = PStr "tv mini series") ∨
         rm_kind info = "movie" ∧
           ¬ (mv_kind media = PStr "tv series" ∨
              mv_kind media = PStr "tv mini series"))) ∧
   (∀ msg,
      Resolver.returned (Resolver_get_media get_movie imdb_id)
        = Raise (ValueError msg) ↔
      (get_movie imdb_id = Ok None ∧
       msg = "No media found for IMDb ID: " +:+ imdb_id) ∨
      get_movie imdb_id = Raise (ValueError msg)) ∧
   (∀ msg,
      Resolver.returned (Resolver_get_media get_movie imdb_id)
        = Raise (RuntimeError msg) ↔
      ∃ cause,
        get_movie imdb_id = Raise (RuntimeError cause) ∧
        msg = "Failed to retrieve media for IMDb ID " +:+ imdb_id
              +:+ ": " +:+ cause)).
Proof.
  unfold Resolver_get_media. split.
  - intros ->. by eexists.
  - intros Hne. rewrite bool_decide_eq_false_2 by done.
    assert (∀ l : option (list string), or_nil (Some (default [] l))
                                        = default [] l) as Hor.
    { intros [[|x l]|]; done. }
    assert (∀ media,
      Resolver__is_anime (Some (default [] (mv_genres media)))
        (Some (default [] (mv_countries media))) = true ↔
      "Anime" ∈ default [] (mv_genres media) ∨
      "Animation" ∈ default [] (mv_genres media) ∧
      "Japan" ∈ default [] (mv_countries media)) as Hanime.
    { intros media. unfold Resolver__is_anime. rewrite !Hor.
      rewrite orb_true_iff, andb_true_iff, !bool_decide_eq_true. done. }
    assert (∀ media,
      existsb (eq_str (mv_kind media)) Resolver.SHOW_TYPES = true ↔
      mv_kind media = PStr "tv series" ∨
      mv_kind media = PStr "tv mini series") as Hkind.
    { intros media. simpl.
      rewrite !orb_true_iff, !eq_str_true. intuition discriminate. }
    destruct (get_movie imdb_id) as [[media|]|[cause|cause]] eqn:E;
      cbn [Resolver.queries Resolver.returned].
    + split; [done|]. split; [|split].
      * intros info. split.
        -- intros [= <-]. exists media. cbn [rm_imdb_id rm_title rm_year
             rm_anime rm_kind].
           split; [done|]. split; [done|]. split; [done|]. split; [done|].
           split; [apply Hanime|].
           change (eq_str (mv_kind media) "tv series"
                   || (eq_str (mv_kind media) "tv mini series" || false))
             with (existsb (eq_str (mv_kind media)) Resolver.SHOW_TYPES).
           destruct (existsb _ _) eqn:Hk.
           ++ left. split; [done|]. by apply Hkind.
           ++ right. split; [done|]. intros Hs%Hkind. congruence.
        -- intros (m & [= <-] & Hi & Htt & Hy & Ha & Hk).
           destruct info as [i t y a k].
           cbn [rm_imdb_id rm_title rm_year rm_anime rm_kind] in *. subst.
           assert (a = Resolver__is_anime
                         (Some (default [] (mv_genres media)))
                         (Some (default [] (mv_countries media)))) as ->.
           { apply eq_true_iff_eq. by rewrite Ha, Hanime. }
           assert (k = if existsb (eq_str (mv_kind media)) Resolver.SHOW_TYPES
                       then "show" else "movie") as ->; [|done].
           destruct (existsb _ _) eqn:Hex.
           ++ apply Hkind in Hex. by destruct Hk as [[-> _]|[_ []]].
           ++ destruct Hk as [[_ Hs%Hkind]|[-> _]]; [congruence|done].
      * intros msg. split; [done|]. by intros [[? _]|?].
      * intros msg. split; [done|]. by intros (? & ? & _).
    + split; [done|]. split; [|split].
      * intros info. split; [done|]. by intros (? & ? & _).
      * intros msg. split; [intros [= <-]; by left|].
        by intros [[_ ->]|?].
      * intros msg. split; [done|]. by intros (? & ? & _).
    + split; [done|]. split; [|split].
      * intros info. split; [done|]. by intros (? & ? & _).
      * intros msg. split; [intros [= <-]; by right|].
        by intros [[? _]|[= ->]].
      * intros msg. split; [done|]. by intros (? & ? & _).
    + split; [done|]. split; [|split].
      * intros info. split; [done|]. by intros (? & ? & _).
      * intros msg. split; [done|]. by intros [[? _]|?].
      * intros msg. split; [intros [= <-]; by exists cause|].
        by intros (? & [= <-] & ->).
Qed.

(* ================================================================== *)
(** * Further properties of the initial scan *)

Section uniqueness.

Lemma paths_kept_refl st : paths_kept st st.
Proof. intros k t Hk. by exists t. Qed.

Lemma paths_kept_trans st1 st2 st3 :
  paths_kept st1 st2 → paths_kept st2 st3 → paths_kept st1 st3.
Proof.
  intros H12 H23 k t3 Hk. destruct (H23 k t3 Hk) as (t2 & Hk2 & Hp2).
  destruct (H12 k t2 Hk2) as (t1 & Hk1 & Hp1). exists t1.
  split; [done|]. by rewrite Hp2.
Qed.

Lemma paths_kept_unique st st' :
  paths_kept st st' → unique_torrent_paths st → unique_torrent_paths st'.
Proof.
  intros Hkept Hu i j ti tj p Hi Hj Hpi Hpj.
  destruct (Hkept i ti Hi) as (ti0 & Hi0 & Hpi0).
  destruct (Hkept j tj Hj) as (tj0 & Hj0 & Hpj0).
  apply (Hu i j ti0 tj0 p); congruence.
Qed.

Lemma paths_kept_foldl {A} (step : store → A → store) (l : list A) st :
  (∀ st x, paths_kept st (step st x)) → paths_kept st (foldl step st l).
Proof.
  intros Hstep. revert st. induction l as [|x l IH]; intros st;
    [apply paths_kept_refl|].
  simpl. eapply paths_kept_trans; [apply Hstep|apply IH].
Qed.

Lemma mediafile_add_paths_kept st e :
  paths_kept st (MediaFileHandler.add st e).1.
Proof.
  unfold MediaFileHandler.add.
  destruct (MediaFileHandler.get_by_path _ _) as [[id existing]|];
    [|by intros k t Hk; exists t].
  simpl. unfold MediaFileHandler.update.
  destruct (mediafiles st !! id) as [f|]; [|apply paths_kept_refl].
  destruct (torrent_of _ _) as [[tid t0]|] eqn:Ht;
    [|by intros k t Hk; exists t].
  destruct (media_of _ _); [|by intros k t Hk; exists t].
  unfold torrent_of in Ht. simpl in Ht.
  destruct (getattr _ "torrent_id") as [| |tid'| |]; try done.
  destruct (torrents st !! tid') as [t1|] eqn:Ht1; [|done].
  simpl in Ht. injection Ht as -> ->.
  intros k t' Hk. simpl in Hk.
  destruct (decide (tid = k)) as [->|Hne].
  - rewrite lookup_insert_eq in Hk. injection Hk as <-. exists t0.
    split; [done|]. by rewrite getattr_setattr_ne.
  - rewrite lookup_insert_ne in Hk by done. by exists t'.
Qed.

Lemma media_add_paths_kept st e st' :
  MediaHandler.add st e = Some st' → paths_kept st st'.
Proof.
  intros Hadd k t Hk. rewrite (proj1 (media_add_tables st e st' Hadd)) in Hk.
  by exists t.
Qed.

Lemma only_links_paths_kept st st' : only_links st st' → paths_kept st st'.
Proof.
  intros (_ & Hdom & _ & Ht & _) k t' Hk.
  assert (is_Some (torrents st !! k)) as [t Hkt].
  { apply elem_of_dom. rewrite <- Hdom. apply elem_of_dom. by eexists. }
  destruct (Ht k t Hkt) as (t'' & Hk'' & Hsame & _).
  exists t. split; [done|]. rewrite Hk in Hk''. injection Hk'' as <-.
  by apply Hsame.
Qed.

Lemma only_links_has_path st st' p :
  only_links st st' → has_torrent_path st p → has_torrent_path st' p.
Proof.
  intros (_ & _ & _ & Ht & _) (k & t & Hk & Hp).
  destruct (Ht k t Hk) as (t' & Hk' & Hsame & _).
  exists k, t'. split; [done|]. by rewrite Hsame.
Qed.

Lemma torrent_add_unique st e p :
  getattr e "path" = PStr p → unique_torrent_paths st →
  unique_torrent_paths (TorrentHandler.add st e).1.
Proof.
  intros Hp Hu. unfold TorrentHandler.add. rewrite Hp.
  rewrite torrent_get_by_path_str.
  destruct (first_match _ _) as [[id existing]|] eqn:E; [done|].
  rewrite first_match_None in E. simpl.
  assert (∀ k t q, torrents st !! k = Some t → getattr t "path" = PStr q →
                   q ≠ p) as Hfree.
  { intros k t q Hk Hq ->. specialize (E k t Hk).
    assert (eq_str (getattr t "path") p = true) by (by apply eq_str_true).
    congruence. }
  intros i j ti tj q Hi Hj Hqi Hqj. simpl in Hi, Hj.
  destruct (decide (i = fresh_key (torrents st))) as [->|Hi'];
    destruct (decide (j = fresh_key (torrents st))) as [->|Hj']; [done|..].
  - rewrite lookup_insert_eq in Hi. injection Hi as <-.
    rewrite lookup_insert_ne in Hj by done.
    rewrite getattr_setattr_ne, Hp in Hqi by done. injection Hqi as <-.
    by destruct (Hfree j tj p Hj Hqj).
  - rewrite lookup_insert_eq in Hj. injection Hj as <-.
    rewrite lookup_insert_ne in Hi by done.
    rewrite getattr_setattr_ne, Hp in Hqj by done. injection Hqj as <-.
    by destruct (Hfree i ti p Hi Hqi).
  - rewrite lookup_insert_ne in Hi, Hj by done. by apply (Hu i j ti tj q).
Qed.

End uniqueness.

Section phases.

Variable glob : Path.t → list Path.t.
Variable is_file : Path.t → bool.
Variable st_size : Path.t → Z.
Variable is_symlink : Path.t → bool.
Variable resolve : Path.t → Path.t.
Variable parse_title : string → gmap string val.
Variable iterdir : Path.t → list Path.t.
Variable is_dir : Path.t → bool.

Lemma library_scan_paths_kept st categories library_base :
  paths_kept st
    (LibraryScanner_full_scan glob is_file st_size is_symlink resolve iterdir
       is_dir st categories library_base).
Proof.
  unfold LibraryScanner_full_scan. apply paths_kept_foldl.
  intros st0 media_path. unfold scan_media.
  destruct (get_media_info media_path) as [info|]; [|apply paths_kept_refl].
  unfold index_media.
  destruct (Repository.get_by_id _ _); [apply paths_kept_refl|].
  destruct (MediaHandler.add st0 _) as [st_added|] eqn:Hadd;
    [|apply paths_kept_refl].
  eapply paths_kept_trans; [by eapply media_add_paths_kept|].
  apply paths_kept_foldl. intros st1 file. apply mediafile_add_paths_kept.
Qed.

Lemma index_torrent_frame st torrent_path files kind title year st' :
  index_torrent st_size parse_title st torrent_path files kind title year
    = Ok st' →
  media st' = media st ∧
  (unique_torrent_paths st → unique_torrent_paths st').
Proof.
  unfold index_torrent.
  destruct (TorrentHandler.add st _) as [st1 torrent_id] eqn:Hadd.
  assert (st1 = (TorrentHandler.add st
            (Torrent_new (PStr (Path.str torrent_path)) title year)).1)
    as Hst1 by (by rewrite Hadd).
  assert (media st1 = media st) as Hm1.
  { rewrite Hst1. unfold TorrentHandler.add.
    by destruct (TorrentHandler.get_by_path _ _) as [[? ?]|]. }
  assert (unique_torrent_paths st → unique_torrent_paths st1) as Hu1.
  { rewrite Hst1. by apply torrent_add_unique with (Path.str torrent_path). }
  clear Hadd Hst1.
  destruct (bool_decide (kind = "movie")).
  - destruct (max_by_size st_size files) as [target_path|]; [|done].
    intros [= <-]. split; [by rewrite mediafile_add_media|].
    intros Hu. eapply paths_kept_unique;
      [apply mediafile_add_paths_kept|by apply Hu1].
  - intros [= <-]. split.
    + clear Hu1. rewrite <- Hm1. generalize st1.
      induction files as [|file files IH]; intros st2; [done|].
      simpl. rewrite IH. unfold index_show_file.
      destruct (Parser.parse_torrent_episode _ _) as [season episode].
      destruct (truthy season && truthy episode); [|done].
      apply mediafile_add_media.
    + intros Hu. eapply paths_kept_unique; [|by apply Hu1].
      apply paths_kept_foldl. intros st2 file. unfold index_show_file.
      destruct (Parser.parse_torrent_episode _ _) as [season episode].
      destruct (truthy season && truthy episode); [|apply paths_kept_refl].
      apply mediafile_add_paths_kept.
Qed.

Lemma torrent_scan_frame st torrent_base :
  media (TorrentScanner_full_scan glob is_file st_size parse_title iterdir
           is_dir st torrent_base) = media st ∧
  (unique_torrent_paths st →
   unique_torrent_paths
     (TorrentScanner_full_scan glob is_file st_size parse_title iterdir
        is_dir st torrent_base)).
Proof.
  unfold TorrentScanner_full_scan.
  generalize (get_torrent_paths iterdir is_dir torrent_base) as paths.
  intros paths. revert st.
  induction paths as [|torrent_path paths IH]; intros st; [done|].
  simpl. destruct (IH (scan_torrent glob is_file st_size parse_title st
                         torrent_path)) as [Hm Hu].
  assert (media (scan_torrent glob is_file st_size parse_title st
                   torrent_path) = media st ∧
          (unique_torrent_paths st →
           unique_torrent_paths
             (scan_torrent glob is_file st_size parse_title st torrent_path)))
    as [Hm1 Hu1].
  { unfold scan_torrent. destruct (Repository_get st _); [|done].
    destruct (get_torrent_info _ _ _ _) as [info|]; [|done].
    destruct (index_torrent _ _ _ _ _ _ _ _) as [st'|] eqn:Hix; [|done].
    by apply index_torrent_frame in Hix. }
  split; [by rewrite Hm|]. intros Hst. by apply Hu, Hu1.
Qed.

End phases.

(** X21.  What the initial scan guarantees.  [run_initial_scan] (library
    scan, torrent scan, resolution pass) keeps torrent paths unique, so it
    never leaves two torrents for one directory; a media row that was in the
    session, or that the library scan indexed, is not rewritten by the
    phases that follow; every library directory whose name is parsed has its
    media afterwards; and every torrent directory whose name is parsed and
    that holds a video file has a torrent afterwards. *)
Theorem initial_scan_guarantees glob is_file st_size is_symlink resolve
    parse_title iterdir is_dir get_imdb_id get_media (st : store)
    (categories : Categories.t) (library_base : string)
    (torrent_base : Path.t) :
  unique_torrent_paths st →
  unique_torrent_paths
    (run_initial_scan glob is_file st_size is_symlink resolve parse_title
       iterdir is_dir get_imdb_id get_media st categories library_base
       torrent_base) ∧
  (∀ id m, media st !! id = Some m →
     media
       (run_initial_scan glob is_file st_size is_symlink resolve parse_title
          iterdir is_dir get_imdb_id get_media st categories library_base
          torrent_base) !! id = Some m) ∧
  (∀ media_path info,
     media_path ∈ get_media_paths iterdir is_dir categories library_base →
     get_media_info media_path = Some info →
     is_Some
       (media
          (run_initial_scan glob is_file st_size is_symlink resolve
             parse_title iterdir is_dir get_imdb_id get_media st categories
             library_base torrent_base) !! li_imdb_id info)) ∧
  (∀ torrent_path,
     torrent_path ∈ get_torrent_paths iterdir is_dir torrent_base →
     is_Some (get_torrent_info glob is_file parse_title torrent_path) →
     has_torrent_path
       (run_initial_scan glob is_file st_size is_symlink resolve parse_title
          iterdir is_dir get_imdb_id get_media st categories library_base
          torrent_base) (Path.str torrent_path)).
Proof.
  intros Hu. unfold run_initial_scan.
  set (st1 := LibraryScanner_full_scan glob is_file st_size is_symlink
                resolve iterdir is_dir st categories library_base).
  set (st2 := TorrentScanner_full_scan glob is_file st_size parse_title
                iterdir is_dir st1 torrent_base).
  pose proof (library_scan_paths_kept glob is_file st_size is_symlink resolve
                iterdir is_dir st categories library_base) as Hk1.
  fold st1 in Hk1.
  destruct (torrent_scan_frame glob is_file st_size parse_title iterdir
              is_dir st1 torrent_base) as [Hm2 Hu2].
  fold st2 in Hm2, Hu2.
  assert (only_links st2
            (add_missing_media_to_torrents parse_title get_imdb_id get_media
               st2)) as Hl3 by apply only_links_pass.
  split; [|split; [|split]].
  - eapply paths_kept_unique; [by apply only_links_paths_kept|].
    apply Hu2. by eapply paths_kept_unique.
  - intros id m Hm. apply Hl3. rewrite Hm2. by apply scan_medias_keep.
  - intros media_path info Hin Hinfo.
    destruct (scan_medias_indexed glob is_file st_size is_symlink resolve st
                _ media_path info Hin Hinfo) as [m Hm].
    exists m. apply Hl3. by rewrite Hm2.
  - intros torrent_path Hin Hinfo. eapply only_links_has_path; [done|].
    apply scan_torrents_has_path. right. by exists torrent_path.
Qed.

Lemma initial_scan_guarantees_witness :
  unique_torrent_paths
    (run_initial_scan FileSystemSamples.glob FileSystemSamples.is_file
       FileSystemSamples.st_size FileSystemSamples.is_symlink
       FileSystemSamples.resolve ResolverSamples.parse_title
       FileSystemSamples.iterdir FileSystemSamples.is_dir
       ResolverSamples.get_imdb_id ResolverSamples.get_media
       Samples.fanout_session
       (Categories.init true PNone PNone PNone PNone) "/library"
       (Path.Make "/mnt" "torrents")) ∧
  (∀ id m, media Samples.fanout_session !! id = Some m →
     media
       (run_initial_scan FileSystemSamples.glob FileSystemSamples.is_file
          FileSystemSamples.st_size FileSystemSamples.is_symlink
          FileSystemSamples.resolve ResolverSamples.parse_title
          FileSystemSamples.iterdir FileSystemSamples.is_dir
          ResolverSamples.get_imdb_id ResolverSamples.get_media
          Samples.fanout_session
          (Categories.init true PNone PNone PNone PNone) "/library"
          (Path.Make "/mnt" "torrents")) !! id = Some m) ∧
  (∀ media_path info,
     media_path ∈ get_media_paths FileSystemSamples.iterdir
                    FileSystemSamples.is_dir
                    (Categories.init true PNone PNone PNone PNone)
                    "/library" →
     get_media_info media_path = Some info →
     is_Some
       (media
          (run_initial_scan FileSystemSamples.glob FileSystemSamples.is_file
             FileSystemSamples.st_size FileSystemSamples.is_symlink
             FileSystemSamples.resolve ResolverSamples.parse_title
             FileSystemSamples.iterdir FileSystemSamples.is_dir
             ResolverSamples.get_imdb_id ResolverSamples.get_media
             Samples.fanout_session
             (Categories.init true PNone PNone PNone PNone) "/library"
             (Path.Make "/mnt" "torrents")) !! li_imdb_id info)) ∧
  (∀ torrent_path,
     torrent_path ∈ get_torrent_paths FileSystemSamples.iterdir
                      FileSystemSamples.is_dir (Path.Make "/mnt" "torrents") →
     is_Some (get_torrent_info FileSystemSamples.glob
                FileSystemSamples.is_file ResolverSamples.parse_title
                torrent_path) →
     has_torrent_path
       (run_initial_scan FileSystemSamples.glob FileSystemSamples.is_file
          FileSystemSamples.st_size FileSystemSamples.is_symlink
          FileSystemSamples.resolve ResolverSamples.parse_title
          FileSystemSamples.iterdir FileSystemSamples.is_dir
          ResolverSamples.get_imdb_id ResolverSamples.get_media
          Samples.fanout_session
          (Categories.init true PNone PNone PNone PNone) "/library"
          (Path.Make "/mnt" "torrents")) (Path.str torrent_path)).
Proof.
  apply (initial_scan_guarantees FileSystemSamples.glob
           FileSystemSamples.is_file FileSystemSamples.st_size
           FileSystemSamples.is_symlink FileSystemSamples.resolve
           ResolverSamples.parse_title FileSystemSamples.iterdir
           FileSystemSamples.is_dir ResolverSamples.get_imdb_id
           ResolverSamples.get_media Samples.fanout_session).
  intros i j ti tj p Hi Hj _ _.
  change (torrents Samples.fanout_session)
    with ({[1 := Samples.torrent_row PNone]} : gmap Z entity) in Hi, Hj.
  apply lookup_singleton_Some in Hi as [<- _].
  apply lookup_singleton_Some in Hj as [<- _]. reflexivity.
Defined.

(* ================================================================== *)
(** * Further properties of the configuration *)

Section dictionaries.

Context {A : Type}.
Implicit Types (items : list (string * A)) (key : string).

Lemma assoc_set_keys key (v : A) items : (assoc_set key v items).*1 = items.*1.
Proof.
  induction items as [|[k x] items IH]; [done|]. cbn [assoc_set].
  destruct (bool_decide (k = key)); [done|]. rewrite !fmap_cons.
  by rewrite IH.
Qed.

Lemma assoc_get_set_eq key (v : A) items :
  is_Some (assoc_get key items) →
  assoc_get key (assoc_set key v items) = Some v.
Proof.
  induction items as [|[k x] items IH]; simpl; [by intros [? ?]|].
  destruct (bool_decide (k = key)) eqn:E; simpl; rewrite E; [done|].
  apply IH.
Qed.

Lemma assoc_get_set_ne key key' (v : A) items :
  key ≠ key' → assoc_get key' (assoc_set key v items) = assoc_get key' items.
Proof.
  intros Hne. induction items as [|[k x] items IH]; [done|]. simpl.
  destruct (bool_decide (k = key)) eqn:E; simpl.
  - apply bool_decide_eq_true in E as ->.
    by rewrite !bool_decide_eq_false_2.
  - destruct (bool_decide (k = key')); [done|apply IH].
Qed.

Lemma assoc_get_None key items : key ∉ items.*1 → assoc_get key items = None.
Proof.
  induction items as [|[k x] items IH]; [done|]. simpl.
  intros [Hk Hin]%not_elem_of_cons.
  rewrite bool_decide_eq_false_2 by done. by apply IH.
Qed.

Lemma assoc_get_fmap {B} (f : A → B) key items :
  assoc_get key ((λ item, (item.1, f item.2)) <$> items) =
  f <$> assoc_get key items.
Proof.
  induction items as [|[k x] items IH]; [done|]. simpl.
  by destruct (bool_decide (k = key)).
Qed.

End dictionaries.

Section merge.

(** What the loop leaves under a key. *)
Lemma update_loop_lookup (items target : list (string * cfg)) key :
  NoDup items.*1 →
  assoc_get key
    (foldl (λ target '(key, value),
              update_entry _update_config_recursive target key value)
       target items) =
  match assoc_get key target with
  | None => None
  | Some old =>
      Some (match assoc_get key items with
            | None => old
            | Some value =>
                match old, value with
                | CDict t, CDict _ => CDict (_update_config_recursive value t)
                | _, _ => value
                end
            end)
  end.
Proof.
  revert target. induction items as [|[k v] items IH]; intros target Hnd.
  { simpl. by destruct (assoc_get key target). }
  apply NoDup_cons in Hnd as [Hk Hnd]. simpl. rewrite IH by done.
  clear IH. unfold update_entry.
  destruct (bool_decide (k = key)) eqn:E.
  - apply bool_decide_eq_true in E as ->.
    rewrite (assoc_get_None key items) by done.
    destruct (assoc_get key target) as [[x|t]|] eqn:Ht.
    + rewrite assoc_get_set_eq by (by rewrite Ht). done.
    + destruct v as [x|s].
      * rewrite assoc_get_set_eq by (by rewrite Ht). done.
      * rewrite assoc_get_set_eq by (by rewrite Ht). done.
    + by rewrite Ht.
  - apply bool_decide_eq_false in E.
    assert (assoc_get key
              match assoc_get k target with
              | Some (CVal _) => assoc_set k v target
              | Some (CDict t) =>
                  match v with
                  | CVal _ => assoc_set k v target
                  | CDict _ =>
                      assoc_set k (CDict (_update_config_recursive v t)) target
                  end
              | None => target
              end = assoc_get key target) as ->; [|done].
    destruct (assoc_get k target) as [[x|t]|]; [|destruct v|];
      try done; by apply assoc_get_set_ne.
Qed.

Lemma update_loop_keys (items target : list (string * cfg)) :
  (foldl (λ target '(key, value),
            update_entry _update_config_recursive target key value)
     target items).*1 = target.*1.
Proof.
  revert target. induction items as [|[k v] items IH]; intros target; [done|].
  simpl. rewrite IH. unfold update_entry.
  destruct (assoc_get k target) as [[x|t]|]; [|destruct v|];
    try done; apply assoc_set_keys.
Qed.

End merge.

(** X22.  What a merge of a loaded dictionary into a dictionary of
    settings does, key by key.  The keys of the target and their order are
    kept: a key the target does not have is ignored, none is lost.  A key
    both have receives the loaded value, except when both values are
    dictionaries, which are merged in the same way; so a loaded scalar
    replaces a whole section, and a loaded dictionary replaces a scalar as
    it is. *)
Theorem update_config_by_key (target items : list (string * cfg))
    (key : string) :
  NoDup items.*1 →
  (_update_config_recursive (CDict items) target).*1 = target.*1 ∧
  assoc_get key (_update_config_recursive (CDict items) target) =
    match assoc_get key target with
    | None => None
    | Some old =>
        Some (match assoc_get key items with
              | None => old
              | Some value =>
                  match old, value with
                  | CDict t, CDict _ =>
                      CDict (_update_config_recursive value t)
                  | _, _ => value
                  end
              end)
    end.
Proof.
  intros Hnd. cbn [_update_config_recursive]. split.
  - apply update_loop_keys.
  - by apply update_loop_lookup.
Qed.

Lemma update_config_by_key_witness :
  (_update_config_recursive (CDict ConfigSamples.file) DEFAULTS).*1
    = DEFAULTS.*1 ∧
  assoc_get "paths" (_update_config_recursive (CDict ConfigSamples.file)
                       DEFAULTS) =
    match assoc_get "paths" DEFAULTS with
    | None => None
    | Some old =>
        Some (match assoc_get "paths" ConfigSamples.file with
              | None => old
              | Some value =>
                  match old, value with
                  | CDict t, CDict _ =>
                      CDict (_update_config_recursive value t)
                  | _, _ => value
                  end
              end)
    end.
Proof.
  apply (update_config_by_key DEFAULTS ConfigSamples.file "paths").
  apply NoDup_singleton.
Defined.

Section sharing.

Lemma update_top_other cs item section :
  item.1 ≠ section →
  assoc_get section (_config (update_top cs item)) =
    assoc_get section (_config cs) ∧
  assoc_get section (class_defaults (update_top cs item)) =
    assoc_get section (class_defaults cs).
Proof.
  destruct item as [key value]. simpl. intros Hne.
  destruct (assoc_get key (_config cs)) as [[|own]|]; [| |done].
  - destruct (config_section cs key) as [[x|t]|]; [|destruct value|];
      simpl; rewrite ?assoc_get_set_ne by done; done.
  - destruct (config_section cs key) as [[x|t]|]; [|destruct value|];
      simpl; rewrite ?assoc_get_set_ne by done; done.
Qed.

Lemma load_other cs items section :
  section ∉ items.*1 →
  assoc_get section (_config (foldl update_top cs items)) =
    assoc_get section (_config cs) ∧
  assoc_get section (class_defaults (foldl update_top cs items)) =
    assoc_get section (class_defaults cs).
Proof.
  revert cs. induction items as [|item items IH]; intros cs Hin; [done|].
  apply not_elem_of_cons in Hin as [Hne Hin]. simpl.
  destruct (IH (update_top cs item) Hin) as [-> ->].
  by apply update_top_other.
Qed.

(** The load of a dictionary for a section that is still shared. *)
Lemma load_shared cs items section t s :
  NoDup items.*1 →
  assoc_get section (_config cs) = Some Shared →
  assoc_get section (class_defaults cs) = Some (CDict t) →
  assoc_get section items = Some (CDict s) →
  assoc_get section (_config (foldl update_top cs items)) = Some Shared ∧
  assoc_get section (class_defaults (foldl update_top cs items)) =
    Some (CDict (_update_config_recursive (CDict s) t)).
Proof.
  revert cs. induction items as [|[k v] items IH]; intros cs Hnd Hc Hd Hs;
    [done|].
  apply NoDup_cons in Hnd as [Hk Hnd]. simpl in Hs.
  destruct (bool_decide (k = section)) eqn:E.
  - apply bool_decide_eq_true in E as ->. injection Hs as ->.
    cbn [foldl]. destruct (load_other (update_top cs (section, CDict s))
                              items section Hk) as [-> ->].
    cbn [update_top]. unfold config_section. rewrite Hc, Hd.
    cbn [_config class_defaults]. split; [done|].
    apply assoc_get_set_eq. by rewrite Hd.
  - apply bool_decide_eq_false in E. cbn [foldl].
    destruct (update_top_other cs (k, v) section E) as [Hc' Hd'].
    apply IH; [done|by rewrite Hc'|by rewrite Hd'|done].
Qed.

(** The assignment of the level leaves the other sections. *)
Lemma set_logging_level_other cs value section :
  section ≠ "logging" →
  assoc_get section (_config (set_logging_level cs value)) =
    assoc_get section (_config cs) ∧
  assoc_get section (class_defaults (set_logging_level cs value)) =
    assoc_get section (class_defaults cs).
Proof.
  intros Hne. unfold set_logging_level.
  destruct (assoc_get "logging" (_config cs)) as [[|own]|]; [| |done].
  - destruct (config_section cs "logging") as [[x|t]|]; try done.
    cbn [_config class_defaults]. by rewrite assoc_get_set_ne.
  - destruct (config_section cs "logging") as [[x|t]|]; try done.
    cbn [_config class_defaults]. by rewrite assoc_get_set_ne.
Qed.

(** The assignment of the level in a shared section. *)
Lemma set_logging_level_shared cs value t :
  assoc_get "logging" (_config cs) = Some Shared →
  assoc_get "logging" (class_defaults cs) = Some (CDict t) →
  assoc_get "logging" (class_defaults (set_logging_level cs value)) =
    Some (CDict (assoc_set "level" value t)).
Proof.
  intros Hc Hd. unfold set_logging_level, config_section. rewrite Hc, Hd.
  cbn [class_defaults]. apply assoc_get_set_eq. by rewrite Hd.
Qed.

Section validated.

Variable os_path_exists : cfg → option bool.
Variable database_directory : cfg → option string.

Local Abbreviation validate :=
  (_validate_config os_path_exists database_directory).

(** The state the validation leaves: the one it found, or that one with
    the level reset, the level read being invalid. *)
Lemma validate_state cs :
  (validate cs).1 = cs ∨
  ∃ log_level, config_get cs "logging" "level" = Some log_level ∧
               valid_log_level log_level = false ∧
               (validate cs).1 = set_logging_level cs (CVal (PStr "INFO")).
Proof.
  unfold _validate_config.
  destruct (path_checks _ _ cs) as [[path_issues log_level]|] eqn:Hpaths;
    [|by left].
  assert (config_get cs "logging" "level" = Some log_level) as Hlevel.
  { unfold path_checks in Hpaths.
    repeat match type of Hpaths with
           | (?m ≫= _) = Some _ =>
               destruct m; cbn [mbind option_bind] in Hpaths; [|done]
           end.
    by injection Hpaths as _ <-. }
  destruct (valid_log_level log_level) eqn:Hvalid.
  - left. by destruct (get_directory_names cs).
  - right. exists log_level. split; [done|]. split; [done|].
    by destruct (get_directory_names _).
Qed.

(** When the validation returns, the level it read is valid or has been
    reset. *)
Lemma validate_returns cs :
  is_Some (validate cs).2 →
  ∃ log_level, config_get cs "logging" "level" = Some log_level ∧
    (validate cs).1 = if valid_log_level log_level then cs
                      else set_logging_level cs (CVal (PStr "INFO")).
Proof.
  unfold _validate_config.
  destruct (path_checks _ _ cs) as [[path_issues log_level]|] eqn:Hpaths;
    [|by intros [? ?]].
  assert (config_get cs "logging" "level" = Some log_level) as Hlevel.
  { unfold path_checks in Hpaths.
    repeat match type of Hpaths with
           | (?m ≫= _) = Some _ =>
               destruct m; cbn [mbind option_bind] in Hpaths; [|done]
           end.
    by injection Hpaths as _ <-. }
  intros _. exists log_level. split; [done|].
  by destruct (get_directory_names _).
Qed.

Lemma validate_other cs section :
  section ≠ "logging" →
  assoc_get section (_config (validate cs).1) =
    assoc_get section (_config cs) ∧
  assoc_get section (class_defaults (validate cs).1) =
    assoc_get section (class_defaults cs).
Proof.
  intros Hne. destruct (validate_state cs) as [->|(? & _ & _ & ->)]; [done|].
  by apply set_logging_level_other.
Qed.

End validated.

End sharing.

(** X23.  Creating a [Config] from a file rewrites the defaults of the
    class.  [_config] starts as a copy of the outer dictionary of
    [DEFAULTS] only, so when the file has a dictionary for a section, the
    merge is made inside the section the class holds.  For a section other
    than "logging": after [Config.__init__], whether the validation
    returned or raised, [DEFAULTS] has the merged section, [_config] reads
    it, and so does the [_config] of a [Config] created later with no file
    at all.  For the section "logging" the validation intervenes:
    [DEFAULTS] has the merged section, or, the merged level being none of
    [VALID_LOG_LEVELS], the merged section with the level replaced by
    "INFO"; and when the constructor returns, the level [DEFAULTS] holds
    is one of [VALID_LOG_LEVELS]. *)
Theorem config_init_rewrites_defaults
    (os_path_exists : cfg → option bool)
    (database_directory : cfg → option string)
    (defaults items : list (string * cfg))
    (section : string) (t s : list (string * cfg)) :
  NoDup items.*1 →
  assoc_get section defaults = Some (CDict t) →
  assoc_get section items = Some (CDict s) →
  (section ≠ "logging" →
   assoc_get section
     (class_defaults
        (Config_init os_path_exists database_directory defaults
           (Some (CDict items))).1) =
     Some (CDict (_update_config_recursive (CDict s) t)) ∧
   (∀ key,
      config_get
        (Config_init os_path_exists database_directory defaults
           (Some (CDict items))).1 section key =
        assoc_get key (_update_config_recursive (CDict s) t)) ∧
   (∀ key,
      config_get
        (Config_init os_path_exists database_directory
           (class_defaults
              (Config_init os_path_exists database_directory defaults
                 (Some (CDict items))).1)
           None).1 section key =
        assoc_get key (_update_config_recursive (CDict s) t))) ∧
  (section = "logging" →
   ∃ final,
     assoc_get "logging"
       (class_defaults
          (Config_init os_path_exists database_directory defaults
             (Some (CDict items))).1) = Some (CDict final) ∧
     (final = _update_config_recursive (CDict s) t ∨
      ∃ log_level,
        assoc_get "level" (_update_config_recursive (CDict s) t)
          = Some log_level ∧
        valid_log_level log_level = false ∧
        final = assoc_set "level" (CVal (PStr "INFO"))
                  (_update_config_recursive (CDict s) t)) ∧
     (is_Some
        (Config_init os_path_exists database_directory defaults
           (Some (CDict items))).2 →
      ∃ level, level ∈ VALID_LOG_LEVELS ∧
               assoc_get "level" final = Some (CVal (PStr level)))).
Proof.
  intros Hnd Hd Hs. unfold Config_init, copy_and_load, _load_config.
  set (cs := ConfigState defaults ((λ item, (item.1, Shared)) <$> defaults)).
  destruct (load_shared cs items section t s) as [Hc' Hd']; try done.
  { unfold cs. cbn [_config]. rewrite (assoc_get_fmap (λ _, Shared)), Hd.
    done. }
  set (loaded := foldl update_top cs items) in *.
  set (merged := _update_config_recursive (CDict s) t) in *.
  split.
  - intros Hne.
    destruct (validate_other os_path_exists database_directory loaded
                section Hne) as [Hc'' Hd''].
    split; [by rewrite Hd''|]. split.
    + intros key. unfold config_get, config_section. rewrite Hc'', Hc'.
      cbv iota. by rewrite Hd'', Hd'.
    + intros key.
      set (defaults' := class_defaults (_ loaded).1).
      set (cs' := ConfigState defaults'
                    ((λ item, (item.1, Shared)) <$> defaults')).
      destruct (validate_other os_path_exists database_directory cs'
                  section Hne) as [Hc3 Hd3].
      unfold config_get, config_section. rewrite Hc3, Hd3.
      unfold cs'. cbn [_config class_defaults].
      rewrite (assoc_get_fmap (λ _, Shared)). unfold defaults'.
      rewrite Hd'', Hd'. done.
  - intros ->.
    assert (config_get loaded "logging" "level" = assoc_get "level" merged)
      as Hread.
    { unfold config_get, config_section. by rewrite Hc', Hd'. }
    destruct (validate_state os_path_exists database_directory loaded)
      as [Hst|(log_level & Hlevel & Hvalid & Hst)].
    + exists merged. rewrite Hst. split; [done|]. split; [by left|].
      intros Hret.
      destruct (validate_returns os_path_exists database_directory loaded
                  Hret) as (log_level & Hlevel & Hst').
      rewrite Hread in Hlevel.
      destruct (valid_log_level log_level) eqn:Hvalid.
      * destruct log_level as [[| | |level|]|]; try done.
        exists level. split; [|done].
        by apply bool_decide_eq_true in Hvalid.
      * rewrite Hst in Hst'.
        assert (assoc_get "logging" (class_defaults loaded) =
                Some (CDict (assoc_set "level" (CVal (PStr "INFO")) merged)))
          as Hd2.
        { rewrite Hst' at 1. by apply set_logging_level_shared. }
        rewrite Hd' in Hd2. injection Hd2 as Hd2.
        exists "INFO". split; [set_solver|].
        rewrite Hd2. apply assoc_get_set_eq. by rewrite Hlevel.
    + rewrite Hread in Hlevel.
      exists (assoc_set "level" (CVal (PStr "INFO")) merged). rewrite Hst.
      split; [by apply set_logging_level_shared|].
      split; [right; by exists log_level|].
      intros _. exists "INFO". split; [set_solver|].
      apply assoc_get_set_eq. by rewrite Hlevel.
Qed.

(** The theorem at the sample file that sets the library path, for the
    section "paths", and at the sample file that sets the level "debug",
    for the section "logging", on a file system on which no path exists:
    the class then holds the level "INFO". *)
Lemma config_init_rewrites_defaults_witness :
  (assoc_get "paths"
     (class_defaults
        (Config_init ConfigSamples.os_path_exists
           ConfigSamples.database_directory DEFAULTS
           (Some (CDict ConfigSamples.file))).1) =
     Some (CDict
             (_update_config_recursive
                (CDict [("library", CVal (PStr "/srv/media"));
                        ("cache", CVal (PStr "/tmp/cache"))])
                [("torrents", CVal (PStr "/mnt/remote/realdebrid/torrents/"));
                 ("library", CVal (PStr "/mnt/plex"));
                 ("database", CVal (PStr "./media_library.db"))])) ∧
   (∀ key,
      config_get
        (Config_init ConfigSamples.os_path_exists
           ConfigSamples.database_directory DEFAULTS
           (Some (CDict ConfigSamples.file))).1 "paths" key =
        assoc_get key
          (_update_config_recursive
             (CDict [("library", CVal (PStr "/srv/media"));
                     ("cache", CVal (PStr "/tmp/cache"))])
             [("torrents", CVal (PStr "/mnt/remote/realdebrid/torrents/"));
              ("library", CVal (PStr "/mnt/plex"));
              ("database", CVal (PStr "./media_library.db"))])) ∧
   (∀ key,
      config_get
        (Config_init ConfigSamples.os_path_exists
           ConfigSamples.database_directory
           (class_defaults
              (Config_init ConfigSamples.os_path_exists
                 ConfigSamples.database_directory DEFAULTS
                 (Some (CDict ConfigSamples.file))).1)
           None).1 "paths" key =
        assoc_get key
          (_update_config_recursive
             (CDict [("library", CVal (PStr "/srv/media"));
                     ("cache", CVal (PStr "/tmp/cache"))])
             [("torrents", CVal (PStr "/mnt/remote/realdebrid/torrents/"));
              ("library", CVal (PStr "/mnt/plex"));
              ("database", CVal (PStr "./media_library.db"))]))) ∧
  (∃ final,
     assoc_get "logging"
       (class_defaults
          (Config_init ConfigSamples.os_path_exists
             ConfigSamples.database_directory DEFAULTS
             (Some (CDict ConfigSamples.debug_file))).1)
       = Some (CDict final) ∧
     (final = _update_config_recursive
                (CDict [("level", CVal (PStr "debug"))])
                [("level", CVal (PStr "INFO"))] ∨
      ∃ log_level,
        assoc_get "level"
          (_update_config_recursive (CDict [("level", CVal (PStr "debug"))])
             [("level", CVal (PStr "INFO"))]) = Some log_level ∧
        valid_log_level log_level = false ∧
        final = assoc_set "level" (CVal (PStr "INFO"))
                  (_update_config_recursive
                     (CDict [("level", CVal (PStr "debug"))])
                     [("level", CVal (PStr "INFO"))])) ∧
     (is_Some
        (Config_init ConfigSamples.os_path_exists
           ConfigSamples.database_directory DEFAULTS
           (Some (CDict ConfigSamples.debug_file))).2 →
      ∃ level, level ∈ VALID_LOG_LEVELS ∧
               assoc_get "level" final = Some (CVal (PStr level)))).
Proof.
  split.
  - apply (config_init_rewrites_defaults ConfigSamples.os_path_exists
             ConfigSamples.database_directory DEFAULTS ConfigSamples.file
             "paths").
    + apply NoDup_singleton.
    + reflexivity.
    + reflexivity.
    + discriminate.
  - apply (config_init_rewrites_defaults ConfigSamples.os_path_exists
             ConfigSamples.database_directory DEFAULTS
             ConfigSamples.debug_file "logging").
    + apply NoDup_singleton.
    + reflexivity.
    + reflexivity.
    + reflexivity.
Defined.

(* ================================================================== *)
(** * Further properties of the symlinker *)

Section link_names.

Lemma Path_of_str_name_no_slash s : "/"%char ∉ chars (Path.name (Path_of_str s)).
Proof.
  unfold Path_of_str.
  destruct (split_last_slash s) as [[d n]|] eqn:E; cbn [Path.name].
  - revert d n E. induction s as [|c s IH]; intros d n; simpl; [done|].
    destruct (split_last_slash s) as [[d' n']|] eqn:E'.
    + intros [= <- <-]. by apply (IH d').
    + destruct (Ascii.eqb c "/"); [|done]. intros [= <- <-].
      by apply split_last_slash_None.
  - by apply split_last_slash_None.
Qed.

Lemma suffix_no_slash p :
  "/"%char ∉ chars (Path.name p) → "/"%char ∉ chars (Path.suffix p).
Proof.
  intros Hname. unfold Path.suffix.
  destruct (Path.rfind_dot (Path.name p)) as [i|] eqn:E;
    [|apply not_elem_of_nil].
  destruct (Path.splits_at _ _); [|apply not_elem_of_nil].
  destruct (rfind_dot_split _ _ E) as (a & rest & Hn & <- & _).
  rewrite Hn. rewrite substring_tail. rewrite Hn in Hname.
  rewrite list_ascii_app in Hname. rewrite elem_of_app in Hname. tauto.
Qed.

(** The path [get_unique_filename] returns. *)
Lemma unique_path_fresh (fs : gset string) (p : Path.t) :
  ∃ q,
    get_unique_filename fs p true = Some (FullPath q) ∧
    Path.exists_ fs q = false ∧
    Path.parent q = Path.parent p ∧
    (Path.suffix p ≠ EmptyString → Path.suffix q = Path.suffix p).
Proof.
  unfold get_unique_filename.
  destruct (Path.exists_ fs p) eqn:Hex; cbn [negb]; [|by exists p].
  destruct (first_free_version fs p 2) as (n & Hn & Hfree & Hbelow).
  exists (versioned p n).
  rewrite (version_loop_first_free fs p true _ 2 n) by (done || lia).
  split; [done|]. split; [done|]. split; [done|]. apply suffix_versioned.
Qed.

(** The name [MediaFile.get_path] gives ends in the extension of the
    target. *)
Lemma media_file_name_parts st f media target :
  media_of st f = Some media → getattr f "target_path" = PStr target →
  ∃ head,
    MediaFile_get_path st f =
      Some (head +:+ Path.suffix (Path_of_str target)) ∧
    head ≠ EmptyString ∧
    head =
      (if truthy (getattr f "episode")
       then Py.str (getattr media "title") +:+ " ("
            +:+ Py.str (getattr media "year") +:+ ") - s"
            +:+ Py.str (getattr f "season") +:+ "e"
            +:+ Py.str (getattr f "episode")
       else Py.str (getattr media "title") +:+ " ("
            +:+ Py.str (getattr media "year") +:+ ") {imdb-tt"
            +:+ Py.str (getattr media "id") +:+ "}").
Proof.
  intros Hm Ht. unfold MediaFile_get_path. rewrite Hm, Ht.
  cbn [Py.str]. eexists. split; [|split; [|reflexivity]].
  - destruct (truthy (getattr f "episode")); f_equal;
      apply list_ascii_inj; rewrite !list_ascii_app;
      by rewrite <- ?app_assoc.
  - destruct (truthy (getattr f "episode"));
      intros Hnil%(f_equal String.length); rewrite !length_append in Hnil;
      simpl in Hnil; lia.
Qed.

Lemma suffix_of_name d head ext :
  head ≠ EmptyString →
  (∃ p, ext = Path.suffix p) → ext ≠ EmptyString →
  Path.suffix (Path.Make d (head +:+ ext)) = ext.
Proof.
  intros Hh [p ->] Hne.
  destruct (suffix_parts p Hne) as (rest & -> & Hrest & Hr).
  by apply suffix_of_parts.
Qed.

End link_names.

(** X24.  The path the symlinker formats for a media file.  For a file with
    a media, whose names hold no "/", once the media directory is made:
    [format_symlink_path] returns a path of which [exists()] is false, that
    lies directly in the directory [Media.get_path] names, and that ends in
    the extension of the target when the target has one.  ([exists()]
    follows symbolic links: a link at that path whose target is missing is
    not seen, and [symlink_to] then fails.) *)
Theorem format_symlink_path_fresh (library_base : string)
    (separate_anime : bool)
    (mkdir : gset string → Path.t → option (gset string))
    (fs fs' : gset string) (st : store) (f media : entity) (target : string) :
  getattr f "target_path" = PStr target →
  media_of st f = Some media →
  mkdir fs (Media_get_path media library_base separate_anime) = Some fs' →
  (∀ key, key ∈ ["title"; "year"; "id"] →
          "/"%char ∉ chars (Py.str (getattr media key))) →
  (∀ key, key ∈ ["season"; "episode"] →
          "/"%char ∉ chars (Py.str (getattr f key))) →
  ∃ q,
    format_symlink_path library_base separate_anime mkdir fs st f =
      (fs', Returns (Some q)) ∧
    Path.exists_ fs' q = false ∧
    Path.parent q =
      Path.str (Media_get_path media library_base separate_anime) ∧
    (Path.suffix (Path_of_str target) ≠ EmptyString →
     Path.suffix q = Path.suffix (Path_of_str target)).
Proof.
  intros Ht Hm Hmk Hmedia Hfile.
  unfold format_symlink_path, create_media_directory. rewrite Hm, Hmk.
  destruct (media_file_name_parts st f media target Hm Ht)
    as (head & Hname & Hhead & Hdef).
  rewrite Hname. cbn [default].
  assert ("/"%char ∉ chars (head +:+ Path.suffix (Path_of_str target)))
    as Hslash.
  { rewrite list_ascii_app, elem_of_app. intros [Hin|Hin].
    - rewrite Hdef in Hin.
      assert (∀ key, key ∈ ["title"; "year"; "id"] →
                     "/"%char ∈ chars (Py.str (getattr media key)) → False)
        as Hm' by (intros key Hkey; by apply Hmedia).
      assert (∀ key, key ∈ ["season"; "episode"] →
                     "/"%char ∈ chars (Py.str (getattr f key)) → False)
        as Hf' by (intros key Hkey; by apply Hfile).
      pose proof (Hm' "title" ltac:(rewrite !elem_of_cons; tauto)) as H1.
      pose proof (Hm' "year" ltac:(rewrite !elem_of_cons; tauto)) as H2.
      pose proof (Hm' "id" ltac:(rewrite !elem_of_cons; tauto)) as H3.
      pose proof (Hf' "season" ltac:(rewrite !elem_of_cons; tauto)) as H4.
      pose proof (Hf' "episode" ltac:(rewrite !elem_of_cons; tauto)) as H5.
      clear Hm' Hf' Hmedia Hfile.
      destruct (truthy (getattr f "episode"));
        rewrite !list_ascii_app, !elem_of_app in Hin;
        cbn [String.list_ascii_of_string] in Hin;
        rewrite !elem_of_cons, elem_of_nil in Hin;
        decompose [or] Hin; try tauto; discriminate.
    - revert Hin. apply suffix_no_slash, Path_of_str_name_no_slash. }
  rewrite (Path_of_str_join _ _ Hslash).
  destruct (unique_path_fresh fs'
              (Path.Make
                 (Path.str (Media_get_path media library_base separate_anime))
                 (head +:+ Path.suffix (Path_of_str target))))
    as (q & Hq & Hfresh & Hparent & Hsuffix).
  exists q. rewrite Hq. split; [done|]. split; [done|]. split; [done|].
  intros Hne. rewrite Hsuffix.
  - apply suffix_of_name; [done|by eexists|done].
  - by rewrite suffix_of_name; [|done|by eexists|done].
Qed.

Lemma format_symlink_path_fresh_witness :
  ∃ q,
    format_symlink_path "/library" true SymlinkSamples.mkdir
      SymlinkSamples.fs SymlinkSamples.session
      (Samples.file_row 1 "a.mkv" (PStr "0133093")) =
      ({[ Path.str (Media_get_path Samples.matrix "/library" true) ]}
       ∪ SymlinkSamples.fs, Returns (Some q)) ∧
    Path.exists_
      ({[ Path.str (Media_get_path Samples.matrix "/library" true) ]}
       ∪ SymlinkSamples.fs) q = false ∧
    Path.parent q = Path.str (Media_get_path Samples.matrix "/library" true) ∧
    (Path.suffix (Path_of_str "/downloads/matrix/a.mkv") ≠ EmptyString →
     Path.suffix q = Path.suffix (Path_of_str "/downloads/matrix/a.mkv")).
Proof.
  apply (format_symlink_path_fresh "/library" true SymlinkSamples.mkdir
           SymlinkSamples.fs _ SymlinkSamples.session
           (Samples.file_row 1 "a.mkv" (PStr "0133093")) Samples.matrix
           "/downloads/matrix/a.mkv").
  - reflexivity.
  - reflexivity.
  - reflexivity.
  - intros key Hkey. rewrite !elem_of_cons, elem_of_nil in Hkey.
    apply split_last_slash_None.
    destruct Hkey as [->|[->|[->|[]]]]; vm_compute; reflexivity.
  - intros key Hkey. rewrite !elem_of_cons, elem_of_nil in Hkey.
    apply split_last_slash_None.
    destruct Hkey as [->|[->|[]]]; vm_compute; reflexivity.
Defined.

Section linking_records.

Lemma mediafile_update_media st id kwargs :
  media (MediaFileHandler.update st id kwargs) = media st.
Proof.
  unfold MediaFileHandler.update.
  destruct (mediafiles st !! id) as [f|]; [|done].
  destruct (torrent_of _ _) as [[tid t]|]; [|done].
  by destruct (media_of _ _).
Qed.

End linking_records.

(** X25.  What [create_symlink] does to the record.  A record whose link
    exists is returned as it is, with nothing changed.  Otherwise, when
    the target does not exist, [FileNotFoundError] is raised with nothing
    changed.  In every case no media row and no other media file changes,
    and the record changes at most in its [symlink_path]: a record that has
    none receives the path of the link that was made, but a record that
    already has one keeps it, also when that link no longer exists and a
    new one was made. *)
Theorem create_symlink_record (library_base : string) (separate_anime : bool)
    (mkdir : gset string → Path.t → option (gset string))
    (mkdir_parents : gset string → string → option (gset string))
    (symlink_to : gset string → Path.t → Path.t → option (gset string))
    (fs : gset string) (st : store) (id : Z) (f : entity) :
  mediafiles st !! id = Some f →
  (truthy (getattr f "symlink_path") = true →
   Path.exists_ fs (Path_of_str (Py.str (getattr f "symlink_path"))) = true →
   create_symlink library_base separate_anime mkdir mkdir_parents symlink_to
     fs st id f =
   (fs, st, Returns (Some (Path_of_str (Py.str (getattr f "symlink_path"))))))
  ∧
  (truthy (getattr f "symlink_path")
   && Path.exists_ fs (Path_of_str (Py.str (getattr f "symlink_path")))
   = false →
   Path.exists_ fs (Path_of_str (Py.str (getattr f "target_path"))) = false →
   ∃ msg,
     create_symlink library_base separate_anime mkdir mkdir_parents
       symlink_to fs st id f = (fs, st, RaisesFileNotFoundError msg)) ∧
  media (create_symlink library_base separate_anime mkdir mkdir_parents
           symlink_to fs st id f).1.2 = media st ∧
  (∀ j, j ≠ id →
     mediafiles (create_symlink library_base separate_anime mkdir
                   mkdir_parents symlink_to fs st id f).1.2 !! j =
     mediafiles st !! j) ∧
  ∃ f',
    mediafiles (create_symlink library_base separate_anime mkdir
                  mkdir_parents symlink_to fs st id f).1.2 !! id = Some f' ∧
    same_but "symlink_path" f f' ∧
    (getattr f "symlink_path" ≠ PNone → f' = f) ∧
    (getattr f "symlink_path" = PNone →
     ∀ q, (create_symlink library_base separate_anime mkdir mkdir_parents
             symlink_to fs st id f).2 = Returns (Some q) →
          getattr f' "symlink_path" = PStr (Path.str q)).
Proof.
  intros Hf. split; [|split].
  { intros Htr Hex. unfold create_symlink. by rewrite Htr, Hex. }
  { intros Hno Htarget. unfold create_symlink. rewrite Hno, Htarget.
    by eexists. }
  unfold create_symlink.
  assert (∀ (fs0 : gset string) r,
    media (fs0, st, r).1.2 = media st ∧
    (∀ j, j ≠ id → mediafiles (fs0, st, r).1.2 !! j = mediafiles st !! j) ∧
    ∃ f', mediafiles (fs0, st, r).1.2 !! id = Some f' ∧
          same_but "symlink_path" f f' ∧
          (getattr f "symlink_path" ≠ PNone → f' = f) ∧
          (getattr f "symlink_path" = PNone →
           ∀ q, (fs0, st, r).2 = Returns (Some q) → r = Returns (Some q)))
    as Hsame.
  { intros fs0 r. simpl. split; [done|]. split; [done|]. exists f.
    split; [done|]. split; [apply same_but_refl|]. split; [done|].
    by intros _ q. }
  destruct (truthy (getattr f "symlink_path")
            && Path.exists_ fs _) eqn:Hlinked.
  { destruct (Hsame fs (Returns (Some (Path_of_str
                 (Py.str (getattr f "symlink_path"))))))
      as (H1 & H2 & f' & H3 & H4 & H5 & _).
    split; [done|]. split; [done|]. exists f'. split; [done|].
    split; [done|]. split; [done|]. intros Hnone. by rewrite Hnone in Hlinked. }
  destruct (negb (Path.exists_ fs _)).
  { destruct (Hsame fs (RaisesFileNotFoundError
                ("Target file not found: " +:+
                 Path.str (Path_of_str (Py.str (getattr f "target_path"))))))
      as (H1 & H2 & f' & H3 & H4 & H5 & _).
    split; [done|]. split; [done|]. exists f'. split; [done|].
    split; [done|]. split; [done|]. by intros _ q. }
  destruct (format_symlink_path _ _ _ _ _ _) as [fs1 [[q|]| | |]].
  2-5: (edestruct (Hsame fs1) as (H1 & H2 & f' & H3 & H4 & H5 & _);
        split; [exact H1|]; split; [exact H2|]; exists f'; split; [exact H3|];
        split; [done|]; split; [done|]; by intros _ q').
  destruct (mkdir_parents fs1 _) as [fs2|].
  2:{ edestruct (Hsame fs1) as (H1 & H2 & f' & H3 & H4 & H5 & _).
      split; [exact H1|]. split; [exact H2|]. exists f'. split; [exact H3|].
      split; [done|]. split; [done|]. by intros _ q'. }
  destruct (symlink_to fs2 _ _) as [fs3|].
  2:{ edestruct (Hsame fs2) as (H1 & H2 & f' & H3 & H4 & H5 & _).
      split; [exact H1|]. split; [exact H2|]. exists f'. split; [exact H3|].
      split; [done|]. split; [done|]. by intros _ q'. }
  cbn [fst snd Repository.update].
  split; [apply mediafile_update_media|].
  rewrite (mediafile_update_files st id f _ Hf). split.
  { intros j Hj. by rewrite lookup_insert_ne. }
  rewrite lookup_insert_eq. eexists. split; [done|].
  rewrite update_singleton.
  destruct (is_none (getattr f "symlink_path")) eqn:Hn.
  - apply is_none_true in Hn. split; [apply same_but_setattr|].
    split; [done|]. intros _ q' [= <-]. apply getattr_setattr_eq.
  - apply is_none_false in Hn. split; [apply same_but_refl|].
    split; [done|]. done.
Qed.

Lemma create_symlink_record_witness :
  (truthy (getattr (Samples.file_row 1 "a.mkv" (PStr "0133093"))
             "symlink_path") = true →
   Path.exists_ SymlinkSamples.fs
     (Path_of_str
        (Py.str (getattr (Samples.file_row 1 "a.mkv" (PStr "0133093"))
                   "symlink_path"))) = true →
   create_symlink "/library" true SymlinkSamples.mkdir
     SymlinkSamples.mkdir_parents SymlinkSamples.symlink_to
     SymlinkSamples.fs SymlinkSamples.session 1
     (Samples.file_row 1 "a.mkv" (PStr "0133093")) =
   (SymlinkSamples.fs, SymlinkSamples.session,
    Returns
      (Some (Path_of_str
               (Py.str (getattr (Samples.file_row 1 "a.mkv" (PStr "0133093"))
                          "symlink_path")))))) ∧
  (truthy (getattr (Samples.file_row 1 "a.mkv" (PStr "0133093"))
             "symlink_path")
   && Path.exists_ SymlinkSamples.fs
        (Path_of_str
           (Py.str (getattr (Samples.file_row 1 "a.mkv" (PStr "0133093"))
                      "symlink_path")))
   = false →
   Path.exists_ SymlinkSamples.fs
     (Path_of_str
        (Py.str (getattr (Samples.file_row 1 "a.mkv" (PStr "0133093"))
                   "target_path"))) = false →
   ∃ msg,
     create_symlink "/library" true SymlinkSamples.mkdir
       SymlinkSamples.mkdir_parents SymlinkSamples.symlink_to
       SymlinkSamples.fs SymlinkSamples.session 1
       (Samples.file_row 1 "a.mkv" (PStr "0133093")) =
     (SymlinkSamples.fs, SymlinkSamples.session,
      RaisesFileNotFoundError msg)) ∧
  media (create_symlink "/library" true SymlinkSamples.mkdir
           SymlinkSamples.mkdir_parents SymlinkSamples.symlink_to
           SymlinkSamples.fs SymlinkSamples.session 1
           (Samples.file_row 1 "a.mkv" (PStr "0133093"))).1.2 =
    media SymlinkSamples.session ∧
  (∀ j, j ≠ 1 →
     mediafiles (create_symlink "/library" true SymlinkSamples.mkdir
                   SymlinkSamples.mkdir_parents SymlinkSamples.symlink_to
                   SymlinkSamples.fs SymlinkSamples.session 1
                   (Samples.file_row 1 "a.mkv" (PStr "0133093"))).1.2 !! j =
     mediafiles SymlinkSamples.session !! j) ∧
  ∃ f',
    mediafiles (create_symlink "/library" true SymlinkSamples.mkdir
                  SymlinkSamples.mkdir_parents SymlinkSamples.symlink_to
                  SymlinkSamples.fs SymlinkSamples.session 1
                  (Samples.file_row 1 "a.mkv" (PStr "0133093"))).1.2 !! 1 =
      Some f' ∧
    same_but "symlink_path" (Samples.file_row 1 "a.mkv" (PStr "0133093")) f' ∧
    (getattr (Samples.file_row 1 "a.mkv" (PStr "0133093")) "symlink_path"
       ≠ PNone →
     f' = Samples.file_row 1 "a.mkv" (PStr "0133093")) ∧
    (getattr (Samples.file_row 1 "a.mkv" (PStr "0133093")) "symlink_path"
       = PNone →
     ∀ q, (create_symlink "/library" true SymlinkSamples.mkdir
             SymlinkSamples.mkdir_parents SymlinkSamples.symlink_to
             SymlinkSamples.fs SymlinkSamples.session 1
             (Samples.file_row 1 "a.mkv" (PStr "0133093"))).2 =
            Returns (Some q) →
          getattr f' "symlink_path" = PStr (Path.str q)).
Proof.
  apply (create_symlink_record "/library" true SymlinkSamples.mkdir
           SymlinkSamples.mkdir_parents SymlinkSamples.symlink_to
           SymlinkSamples.fs SymlinkSamples.session 1
           (Samples.file_row 1 "a.mkv" (PStr "0133093"))).
  reflexivity.
Defined.

(* ================================================================== *)
(** * Further properties: the references of the session *)

Section references.

Lemma ref_ok_mono (m m' : gmap string entity) e :
  (∀ id, is_Some (m !! id) → is_Some (m' !! id)) → ref_ok m e → ref_ok m' e.
Proof. intros Hsub He id Hid. by apply Hsub, He. Qed.

Lemma ref_ok_unset m e : getattr e "media_id" = PNone → ref_ok m e.
Proof. intros Hnone id Hid. congruence. Qed.

Lemma refs_ok_media_add st e st' :
  MediaHandler.add st e = Some st' → refs_ok st → refs_ok st'.
Proof.
  intros [->|(id & _ & Hm & ->)]%media_add_Some [Ht Hf]; [done|].
  assert (∀ j, is_Some (media st !! j) →
               is_Some (<[id := e]> (media st) !! j)) as Hsub.
  { intros j [x Hj]. rewrite lookup_insert_ne; [by eexists|congruence]. }
  split; simpl.
  - intros k t Hk. by eapply ref_ok_mono, Ht.
  - intros k f Hk. by eapply ref_ok_mono, Hf.
Qed.

Lemma refs_ok_torrent_add st e :
  refs_ok st → ref_ok (media st) e → refs_ok (TorrentHandler.add st e).1.
Proof.
  intros [Ht Hf] He. unfold TorrentHandler.add.
  destruct (TorrentHandler.get_by_path _ _) as [[id existing]|]; [done|].
  split; simpl; [|done].
  intros k t Hk. destruct (decide (k = fresh_key (torrents st))) as [->|Hne].
  - rewrite lookup_insert_eq in Hk. injection Hk as <-.
    intros id Hid. rewrite getattr_setattr_ne in Hid by done. by apply He.
  - rewrite lookup_insert_ne in Hk by done. by eapply Ht.
Qed.

Lemma refs_ok_mediafile_add st e :
  refs_ok st → ref_ok (media st) e → refs_ok (MediaFileHandler.add st e).1.
Proof.
  intros [Ht Hf] He. unfold MediaFileHandler.add.
  destruct (MediaFileHandler.get_by_path _ _) as [[id existing]|] eqn:E.
  - simpl. unfold MediaFileHandler.get_by_path in E.
    apply first_match_Some in E as [Hid _].
    unfold MediaFileHandler.update. rewrite Hid.
    set (e' := EntityHandler.update existing
                 (EntityHandler._extract_attributes e)).
    assert (ref_ok (media st) e') as He'.
    { intros j Hj. unfold e' in Hj. rewrite update_getattr in Hj.
      destruct (is_none (getattr existing "media_id")).
      - rewrite extract_attributes_lookup in Hj. simpl in Hj. by apply He.
      - by eapply Hf. }
    assert (∀ k f, <[id := e']> (mediafiles st) !! k = Some f →
                   ref_ok (media st) f) as Hf'.
    { intros k f Hk. destruct (decide (id = k)) as [->|Hne].
      - rewrite lookup_insert_eq in Hk. by injection Hk as <-.
      - rewrite lookup_insert_ne in Hk by done. by eapply Hf. }
    destruct (torrent_of _ e') as [[tid t]|] eqn:Htor; [|by split].
    destruct (media_of _ e'); [|by split].
    split; simpl; [|done].
    intros k t0 Hk. destruct (decide (tid = k)) as [->|Hne].
    + rewrite lookup_insert_eq in Hk. injection Hk as <-.
      intros j Hj. rewrite getattr_setattr_eq in Hj. by apply He'.
    + rewrite lookup_insert_ne in Hk by done. by eapply Ht.
  - split; simpl; [done|].
    intros k f Hk.
    destruct (decide (k = fresh_key (mediafiles st))) as [->|Hne].
    + rewrite lookup_insert_eq in Hk. injection Hk as <-.
      intros j Hj. rewrite getattr_setattr_ne in Hj by done. by apply He.
    + rewrite lookup_insert_ne in Hk by done. by eapply Hf.
Qed.

Lemma refs_ok_link st k e m :
  refs_ok st → torrents st !! k = Some e → m ≠ EmptyString →
  is_Some (media st !! m) →
  refs_ok (Repository.update st (TorrentRef k) {["media_id" := PStr m]}).
Proof.
  intros [Ht Hf] He Hm Hex.
  destruct (is_none (getattr e "media_id")) eqn:Hn.
  2:{ apply is_none_false in Hn. by rewrite (link_set st k e m He Hn). }
  apply is_none_true in Hn. rewrite (link_unset st k e m He Hn Hm).
  split; simpl.
  - intros j t Hj. destruct (decide (k = j)) as [->|Hne].
    + rewrite lookup_insert_eq in Hj. injection Hj as <-.
      intros i Hi. rewrite getattr_setattr_eq in Hi. by injection Hi as <-.
    + rewrite lookup_insert_ne in Hj by done. by eapply Ht.
  - intros j f Hj. rewrite lookup_fmap in Hj.
    destruct (mediafiles st !! j) as [f0|] eqn:Hf0; [|done].
    simpl in Hj. injection Hj as <-.
    destruct (in_torrent k f0); [|by eapply Hf].
    intros i Hi. rewrite getattr_setattr_eq in Hi. by injection Hi as <-.
Qed.

Lemma refs_ok_foldl {A} (step : store → A → store) (l : list A) st :
  (∀ st x, refs_ok st → refs_ok (step st x)) →
  refs_ok st → refs_ok (foldl step st l).
Proof.
  intros Hstep. revert st. induction l as [|x l IH]; intros st Hst; [done|].
  simpl. by apply IH, Hstep.
Qed.

Variable glob : Path.t → list Path.t.
Variable is_file : Path.t → bool.
Variable st_size : Path.t → Z.
Variable is_symlink : Path.t → bool.
Variable resolve : Path.t → Path.t.
Variable parse_title : string → gmap string val.
Variable iterdir : Path.t → list Path.t.
Variable is_dir : Path.t → bool.
Variable get_imdb_id : val → val → string → outcome (option string).
Variable get_movie : string → outcome (option movie).

Lemma refs_ok_index_media st kind imdb_id title year anime path :
  refs_ok st →
  refs_ok (index_media glob is_file st_size is_symlink resolve st kind
             imdb_id title year anime path).
Proof.
  intros Hst. unfold index_media.
  destruct (Repository.get_by_id _ _) eqn:Hget; [done|].
  simpl in Hget.
  destruct (MediaHandler.add st _) as [st1|] eqn:Hadd; [|done].
  assert (refs_ok st1) as H1 by (by eapply refs_ok_media_add).
  assert (is_Some (media st1 !! imdb_id)) as Hm1.
  { rewrite media_add_absent in Hadd by done.
    destruct (MediaHandler.not_null _); [|done]. injection Hadd as <-.
    simpl. rewrite lookup_insert_eq. by eexists. }
  clear Hget Hst Hadd.
  revert st1 H1 Hm1.
  induction (get_media_files glob is_file path) as [|file files IH];
    intros st1 H1 Hm1; [done|].
  simpl. apply IH.
  - apply refs_ok_mediafile_add; [done|].
    intros id Hid. unfold library_media_file in Hid.
    destruct (Parser.extract_media_episode _) as [season episode].
    change (PStr imdb_id = PStr id) in Hid. by injection Hid as <-.
  - by rewrite mediafile_add_media.
Qed.

Lemma refs_ok_index_torrent st torrent_path files kind title year st' :
  refs_ok st →
  index_torrent st_size parse_title st torrent_path files kind title year
    = Ok st' →
  refs_ok st'.
Proof.
  intros Hst. unfold index_torrent.
  destruct (TorrentHandler.add st _) as [st1 torrent_id] eqn:Hadd.
  assert (refs_ok st1) as H1.
  { replace st1 with (TorrentHandler.add st
      (Torrent_new (PStr (Path.str torrent_path)) title year)).1
      by (by rewrite Hadd).
    apply refs_ok_torrent_add; [done|]. by apply ref_ok_unset. }
  destruct (bool_decide (kind = "movie")).
  - destruct (max_by_size st_size files) as [target_path|]; [|done].
    intros [= <-]. apply refs_ok_mediafile_add; [done|].
    by apply ref_ok_unset.
  - intros [= <-]. apply refs_ok_foldl; [|done].
    intros st2 file H2. unfold index_show_file.
    destruct (Parser.parse_torrent_episode _ _) as [season episode].
    destruct (truthy season && truthy episode); [|done].
    apply refs_ok_mediafile_add; [done|]. by apply ref_ok_unset.
Qed.

(** The information [get_media] returns is under the identifier asked
    for. *)
Lemma get_media_same_id imdb_id info :
  Resolver.returned (Resolver_get_media get_movie imdb_id) = Ok info →
  rm_imdb_id info = imdb_id.
Proof.
  unfold Resolver_get_media.
  destruct (bool_decide (imdb_id = EmptyString)); [done|].
  destruct (get_movie imdb_id) as [[m|]|[msg|msg]]; try done.
  by intros [= <-].
Qed.

Lemma refs_ok_resolve st k st' :
  refs_ok st →
  resolve_torrent parse_title get_imdb_id
    (λ imdb_id, Resolver.returned (Resolver_get_media get_movie imdb_id))
    st k = Some st' →
  refs_ok st'.
Proof.
  intros Hst. unfold resolve_torrent.
  destruct (torrents st !! k) as [e|] eqn:He; [|by intros [= <-]].
  destruct (truthy (getattr e "media_id")); [by intros [= <-]|].
  destruct (Parser.parse_torrent _ _) as [info|]; [|by intros [= <-]].
  destruct (get_imdb_id _ _ _) as [[imdb_id|]|]; try by intros [= <-].
  destruct (bool_decide (imdb_id = EmptyString)) eqn:Hm;
    [by intros [= <-]|].
  apply bool_decide_eq_false in Hm.
  destruct (Repository.get_by_id st (MediaRef imdb_id)) as [m|] eqn:Hget.
  - intros [= <-]. apply (refs_ok_link st k e); [done|done|done|].
    simpl in Hget. by rewrite Hget.
  - destruct (Resolver.returned _) as [mi|] eqn:Hmi; [|by intros [= <-]].
    apply get_media_same_id in Hmi. simpl in Hget.
    destruct (MediaHandler.add st _) as [st1|] eqn:Hadd; [|done].
    intros [= <-]. apply (refs_ok_link _ k e).
    + by eapply refs_ok_media_add.
    + by rewrite (proj1 (media_add_tables _ _ _ Hadd)).
    + done.
    + rewrite Hmi, media_add_absent in Hadd by done.
      destruct (MediaHandler.not_null _); [|done]. injection Hadd as <-.
      simpl. rewrite lookup_insert_eq. by eexists.
Qed.

Lemma refs_ok_resolve_all st ids st' :
  refs_ok st →
  resolve_torrents parse_title get_imdb_id
    (λ imdb_id, Resolver.returned (Resolver_get_media get_movie imdb_id))
    st ids = Some st' →
  refs_ok st'.
Proof.
  revert st. induction ids as [|k ids IH]; intros st Hst.
  - by intros [= <-].
  - rewrite resolve_torrents_cons.
    destruct (resolve_torrent _ _ _ st k) as [st1|] eqn:Hstep; [|done].
    simpl. apply IH. by eapply refs_ok_resolve.
Qed.

End references.

(** X26.  The initial scan keeps the references of the session sound.
    With the resolver of the repository, when no torrent and no media file
    refers to a media the session does not have before [run_initial_scan],
    none does after it: the library scan stores a media before its files,
    the upsert and its back-fill copy references of rows that have their
    media, and the resolution pass links a torrent and its files only once
    the media is stored, under the identifier the torrent receives. *)
Theorem initial_scan_keeps_references glob is_file st_size is_symlink resolve
    parse_title iterdir is_dir get_imdb_id
    (get_movie : string → outcome (option movie)) (st : store)
    (categories : Categories.t) (library_base : string)
    (torrent_base : Path.t) :
  refs_ok st →
  refs_ok
    (run_initial_scan glob is_file st_size is_symlink resolve parse_title
       iterdir is_dir get_imdb_id
       (λ imdb_id, Resolver.returned (Resolver_get_media get_movie imdb_id))
       st categories library_base torrent_base).
Proof.
  intros Hst. unfold run_initial_scan, add_missing_media_to_torrents.
  set (st2 := TorrentScanner_full_scan _ _ _ _ _ _ _ _).
  assert (refs_ok st2) as H2; [|
    destruct (resolve_torrents _ _ _ st2 _) as [st3|] eqn:Hpass;
      cbn [from_option Datatypes.id];
      [by eapply refs_ok_resolve_all|done]].
  unfold st2, TorrentScanner_full_scan. apply refs_ok_foldl.
  { intros st0 torrent_path H0. unfold scan_torrent.
    destruct (Repository_get st0 _); [|done].
    destruct (get_torrent_info _ _ _ _) as [info|]; [|done].
    destruct (index_torrent _ _ _ _ _ _ _ _) as [st'|] eqn:Hix; [|done].
    by eapply refs_ok_index_torrent. }
  unfold LibraryScanner_full_scan. apply refs_ok_foldl; [|done].
  intros st0 media_path H0. unfold scan_media.
  destruct (get_media_info media_path) as [info|]; [|done].
  by apply refs_ok_index_media.
Qed.

Lemma initial_scan_keeps_references_witness :
  refs_ok
    (run_initial_scan FileSystemSamples.glob FileSystemSamples.is_file
       FileSystemSamples.st_size FileSystemSamples.is_symlink
       FileSystemSamples.resolve ResolverSamples.parse_title
       FileSystemSamples.iterdir FileSystemSamples.is_dir
       ResolverSamples.get_imdb_id
       (λ imdb_id,
          Resolver.returned
            (Resolver_get_media RetrievalSamples.get_movie imdb_id))
       empty_store
       (Categories.init true PNone PNone PNone PNone) "/library"
       (Path.Make "/mnt" "torrents")).
Proof.
  apply (initial_scan_keeps_references FileSystemSamples.glob
           FileSystemSamples.is_file FileSystemSamples.st_size
           FileSystemSamples.is_symlink FileSystemSamples.resolve
           ResolverSamples.parse_title FileSystemSamples.iterdir
           FileSystemSamples.is_dir ResolverSamples.get_imdb_id
           RetrievalSamples.get_movie empty_store).
  split; intros k x Hk; simpl in Hk; by rewrite lookup_empty in Hk.
Defined.

(* ================================================================== *)
(** * Further properties of the linking loop *)

Section sorting.

Lemma elem_of_insert_by_size x y l : x ∈ insert_by_size y l ↔ x = y ∨ x ∈ l.
Proof.
  induction l as [|z l IH]; simpl.
  - rewrite !elem_of_cons, elem_of_nil. tauto.
  - destruct (_ <? _).
    + rewrite !elem_of_cons. tauto.
    + rewrite !elem_of_cons, IH. tauto.
Qed.

Lemma elem_of_sorted_by_size x l : x ∈ sorted_by_size l ↔ x ∈ l.
Proof.
  unfold sorted_by_size.
  assert (∀ acc, x ∈ foldl (λ acc x, insert_by_size x acc) acc l
                 ↔ x ∈ acc ∨ x ∈ l) as Hgen.
  { induction l as [|y l IH]; intros acc; simpl.
    - rewrite elem_of_nil. tauto.
    - rewrite IH, elem_of_insert_by_size, elem_of_cons. tauto. }
  rewrite Hgen, elem_of_nil. tauto.
Qed.

End sorting.

Section abort.

Variable library_base : string.
Variable separate_anime : bool.
Variable mkdir : gset string → Path.t → option (gset string).
Variable mkdir_parents : gset string → string → option (gset string).
Variable symlink_to : gset string → Path.t → Path.t → option (gset string).

Local Abbreviation link := (create_symlink library_base separate_anime mkdir
                              mkdir_parents symlink_to).
Local Abbreviation visit := (link_file library_base separate_anime mkdir
                               mkdir_parents symlink_to).

(** What a call of [create_symlink] leaves alone. *)
Lemma create_symlink_frame fs st id f :
  media (link fs st id f).1.2 = media st ∧
  ∀ j, j ≠ id → mediafiles (link fs st id f).1.2 !! j = mediafiles st !! j.
Proof.
  unfold create_symlink.
  destruct (truthy (getattr f "symlink_path") && Path.exists_ fs _); [done|].
  destruct (negb (Path.exists_ fs _)); [done|].
  destruct (format_symlink_path _ _ _ _ _ _) as [fs1 [[q|]| | |]]; try done.
  destruct (mkdir_parents fs1 _) as [fs2|]; [|done].
  destruct (symlink_to fs2 _ _) as [fs3|]; [|done].
  cbn [fst snd Repository.update]. split; [apply mediafile_update_media|].
  intros j Hj. unfold MediaFileHandler.update.
  destruct (mediafiles st !! id) as [f0|]; [|done].
  destruct (torrent_of _ _) as [[tid t]|]; [destruct (media_of _ _)|];
    simpl; by rewrite lookup_insert_ne.
Qed.

(** The call on a file that has neither link nor media raises. *)
Lemma create_symlink_raises fs st id f :
  truthy (getattr f "symlink_path") = false → media_of st f = None →
  ∃ fs' st' result,
    link fs st id f = (fs', st', result) ∧ ∀ path, result ≠ Returns path.
Proof.
  intros Hno Hmedia. unfold create_symlink. rewrite Hno. cbn [andb].
  destruct (negb (Path.exists_ fs _)); [by eexists _, _, _|].
  unfold format_symlink_path. rewrite Hmedia. by eexists _, _, _.
Qed.

Variable st : store.
Variable fid : Z.
Variable f : entity.
Hypothesis Hno_link : truthy (getattr f "symlink_path") = false.
Hypothesis Hno_media : media_of st f = None.

(** The media are those of [st], and the file is as it was. *)
Local Abbreviation kept st' :=
  (media st' = media st ∧ mediafiles st' !! fid = Some f).

Lemma link_file_kept fs st' row :
  kept st' →
  (∃ fs' result, visit fs st' row = Aborted fs' result
                 ∧ ∀ path, result ≠ Returns path) ∨
  (∃ fs2 st2, visit fs st' row = Completed fs2 st2 ∧ kept st2 ∧ row.1 ≠ fid).
Proof.
  intros [Hm Hf]. unfold link_file. destruct row as [id row_f].
  cbn [fst snd]. destruct (decide (id = fid)) as [->|Hne].
  - left. rewrite Hf. cbn [default from_option id]. rewrite Hno_link.
    cbn [negb].
    destruct (create_symlink_raises fs st' fid f Hno_link)
      as (fs' & st2 & result & -> & Hres).
    { unfold media_of in *. by rewrite Hm. }
    exists fs', result. split; [|done].
    destruct result as [path| | |]; [by destruct (Hres path)|done..].
  - destruct (negb (truthy _)).
    2:{ right. by eexists _, _. }
    pose proof (create_symlink_frame fs st' id
                  (default row_f (mediafiles st' !! id))) as [Hm2 Hf2].
    destruct (create_symlink _ _ _ _ _ _ _ _ _) as [[fs2 st2] result].
    cbn [fst snd] in Hm2, Hf2.
    destruct result as [path|msg|msg|].
    + right. exists fs2, st2. split; [done|]. split; [|done].
      split; [by rewrite Hm2|]. by rewrite Hf2.
    + left. by eexists _, _.
    + left. by eexists _, _.
    + left. by eexists _, _.
Qed.

Lemma link_files_kept rows fs st' :
  kept st' →
  (∃ fs' result, link_files library_base separate_anime mkdir mkdir_parents
                   symlink_to rows fs st' = Aborted fs' result
                 ∧ ∀ path, result ≠ Returns path) ∨
  (∃ fs2 st2, link_files library_base separate_anime mkdir mkdir_parents
                symlink_to rows fs st' = Completed fs2 st2
              ∧ kept st2 ∧ fid ∉ rows.*1).
Proof.
  revert fs st'. induction rows as [|row rows IH]; intros fs st' Hkept.
  - right. exists fs, st'. split; [done|]. split; [done|].
    apply not_elem_of_nil.
  - cbn [link_files].
    destruct (link_file_kept fs st' row Hkept)
      as [(fs' & result & -> & Hres)|(fs2 & st2 & -> & Hkept2 & Hne)].
    + left. by exists fs', result.
    + destruct (IH fs2 st2 Hkept2)
        as [(fs' & result & -> & Hres)|(fs3 & st3 & -> & Hkept3 & Hnin)].
      * left. by exists fs', result.
      * right. exists fs3, st3. split; [done|]. split; [done|].
        rewrite fmap_cons. apply not_elem_of_cons. by split.
Qed.

Lemma link_torrents_abort k rows fs st' :
  in_torrent k f = true → k ∈ rows.*1 → kept st' →
  ∃ fs' result,
    link_torrents library_base separate_anime mkdir mkdir_parents symlink_to
      rows fs st' = Aborted fs' result
    ∧ ∀ path, result ≠ Returns path.
Proof.
  intros Hin. revert fs st'.
  induction rows as [|torrent rows IH]; intros fs st' Hk Hkept.
  { by apply not_elem_of_nil in Hk. }
  cbn [link_torrents].
  destruct (link_files_kept (sorted_by_size (files_of st' torrent.1)) fs st'
              Hkept)
    as [(fs' & result & -> & Hres)|(fs2 & st2 & -> & Hkept2 & Hnin)].
  { by exists fs', result. }
  rewrite fmap_cons in Hk. apply elem_of_cons in Hk as [->|Hk].
  - destruct Hnin. apply list_elem_of_fmap. exists (fid, f). split; [done|].
    apply elem_of_sorted_by_size. unfold files_of.
    apply list_elem_of_filter. split; [done|].
    apply elem_of_map_to_list. by destruct Hkept.
  - by apply IH.
Qed.

End abort.

(** X27.  One file without media stops the whole linking run.  When a
    torrent of the session has a media file that has no symlink path and no
    media, as every file of a torrent the resolution pass could not resolve
    has, the linking loop of [main] does not complete: a call of
    [create_symlink] raises ([ValueError], or [FileNotFoundError] when a
    target is missing), the exception leaves the loop and the session is
    rolled back, whatever the order of the torrents and the files and
    whatever the file system does. *)
Theorem main_link_loop_aborts (library_base : string) (separate_anime : bool)
    (mkdir : gset string → Path.t → option (gset string))
    (mkdir_parents : gset string → string → option (gset string))
    (symlink_to : gset string → Path.t → Path.t → option (gset string))
    (fs : gset string) (st : store) (k fid : Z) (t f : entity) :
  torrents st !! k = Some t →
  mediafiles st !! fid = Some f →
  in_torrent k f = true →
  truthy (getattr f "symlink_path") = false →
  media_of st f = None →
  ∃ fs' result,
    main_link_loop library_base separate_anime mkdir mkdir_parents symlink_to
      fs st = Aborted fs' result ∧
    ∀ path, result ≠ Returns path.
Proof.
  intros Ht Hf Hin Hno Hmedia. unfold main_link_loop.
  apply (link_torrents_abort library_base separate_anime mkdir mkdir_parents
           symlink_to st fid f Hno Hmedia k); [done| |done].
  apply list_elem_of_fmap. exists (k, t). split; [done|].
  unfold Repository_get_all. by apply elem_of_map_to_list.
Qed.

Lemma main_link_loop_aborts_witness :
  ∃ fs' result,
    main_link_loop "/library" true SymlinkSamples.mkdir
      SymlinkSamples.mkdir_parents SymlinkSamples.symlink_to
      SymlinkSamples.fs Samples.fanout_session = Aborted fs' result ∧
    ∀ path, result ≠ Returns path.
Proof.
  apply (main_link_loop_aborts "/library" true SymlinkSamples.mkdir
           SymlinkSamples.mkdir_parents SymlinkSamples.symlink_to
           SymlinkSamples.fs Samples.fanout_session 1 1
           (Samples.torrent_row PNone) (Samples.file_row 1 "a.mkv" PNone)).
  - reflexivity.
  - reflexivity.
  - reflexivity.
  - reflexivity.
  - reflexivity.
Defined.

(* ================================================================== *)
(** * Further properties of the categories *)

(** X19.  Which media directories the library scanner visits.
    [Media.get_path] files a media under one of four fixed directory names,
    whatever names the [Categories] was given: the directory it names lies
    in a category directory the scanner lists exactly when the fixed name is
    one of the names the [Categories] scans, and [get_media_paths] then
    yields it once it is a directory listed there.  So with the default
    names and the same setting for anime, what the naming produces is
    scanned; after a category is renamed, or with anime kept apart by the
    one and not by the other, the scanner lists no directory that holds the
    media. *)
Theorem media_directory_category_names (iterdir : Path.t → list Path.t)
    (is_dir : Path.t → bool) (categories : Categories.t)
    (media : entity) (library_base : string) (separate_anime : bool) :
  "/"%char ∉ chars (Py.str (getattr media "title")) →
  "/"%char ∉ chars (Py.str (getattr media "year")) →
  "/"%char ∉ chars (Py.str (getattr media "id")) →
  ((∃ entry,
      entry ∈ Categories.get_all_paths categories library_base ∧
      Path.parent (Media_get_path media library_base separate_anime) =
        Path.str entry.2) ↔
   media_category media separate_anime ∈ category_names categories) ∧
  (media_category media separate_anime ∈ category_names categories →
   Media_get_path media library_base separate_anime
     ∈ iterdir (Path.Make library_base
                  (media_category media separate_anime)) →
   is_dir (Media_get_path media library_base separate_anime) = true →
   Media_get_path media library_base separate_anime
     ∈ get_media_paths iterdir is_dir categories library_base) ∧
  media_category media separate_anime
    ∈ category_names
        (Categories.init separate_anime PNone PNone PNone PNone).
Proof.
  intros Ht Hy Hi.
  assert (Path.parent (Media_get_path media library_base separate_anime) =
          library_base +:+ "/" +:+ media_category media separate_anime)
    as ->.
  { unfold Media_get_path. fold (media_category media separate_anime).
    rewrite <- (append_assoc "/" (media_category _ _)),
      <- (append_assoc library_base).
    rewrite Path_of_str_join; [done|].
    rewrite !list_ascii_app, !elem_of_app.
    cbn [String.list_ascii_of_string].
    rewrite !elem_of_cons, elem_of_nil. intuition congruence. }
  assert (∀ name,
    library_base +:+ "/" +:+ media_category media separate_anime =
      Path.str (Path.Make library_base name) ↔
    media_category media separate_anime = name) as Hname.
  { intros name. unfold Path.str. cbn [Path.parent Path.name]. split.
    - intros Heq. by apply string_app_inv_head, string_app_inv_head in Heq.
    - by intros ->. }
  assert (media_category media separate_anime ∈ category_names categories →
          ∃ label,
            (label, Path.Make library_base
                      (media_category media separate_anime))
              ∈ Categories.get_all_paths categories library_base) as Hentry.
  { unfold Categories.get_all_paths, category_names.
    destruct (Categories.separate_animes categories);
      rewrite !elem_of_cons, elem_of_nil;
      intros Hin; decompose [or] Hin; try done;
      match goal with H : media_category _ _ = _ |- _ => rewrite H end;
      eexists; rewrite !elem_of_cons; tauto. }
  split; [split|split].
  - intros ([label path] & Hin & Heq).
    unfold Categories.get_all_paths, category_names in *.
    destruct (Categories.separate_animes categories);
      rewrite !elem_of_cons, elem_of_nil in Hin; rewrite !elem_of_cons;
      decompose [or] Hin; try done;
      match goal with H : (_, _) = (_, _) |- _ => injection H as -> -> end;
      apply Hname in Heq; tauto.
  - intros Hin. destruct (Hentry Hin) as [label Hl].
    exists (label, Path.Make library_base
                     (media_category media separate_anime)).
    split; [done|]. by apply Hname.
  - intros Hin Hls Hdir. destruct (Hentry Hin) as [label Hl].
    unfold get_media_paths. apply list_elem_of_join.
    eexists. split; [|apply list_elem_of_fmap; eexists; split; [|exact Hl]];
      [|reflexivity].
    apply list_elem_of_filter. by split.
  - unfold media_category, category_names, Categories.init. simpl.
    destruct (is_movie media), (truthy (getattr media "anime")),
      separate_anime; simpl; rewrite !elem_of_cons; tauto.
Qed.

Lemma media_directory_category_names_witness :
  ((∃ entry,
      entry ∈ Categories.get_all_paths
                (Categories.init true PNone PNone PNone PNone) "/library" ∧
      Path.parent (Media_get_path Samples.thrones "/library" true) =
        Path.str entry.2) ↔
   media_category Samples.thrones true
     ∈ category_names (Categories.init true PNone PNone PNone PNone)) ∧
  (media_category Samples.thrones true
     ∈ category_names (Categories.init true PNone PNone PNone PNone) →
   Media_get_path Samples.thrones "/library" true
     ∈ ServiceSamples.iterdir
         (Path.Make "/library" (media_category Samples.thrones true)) →
   ServiceSamples.is_dir (Media_get_path Samples.thrones "/library" true)
     = true →
   Media_get_path Samples.thrones "/library" true
     ∈ get_media_paths ServiceSamples.iterdir ServiceSamples.is_dir
         (Categories.init true PNone PNone PNone PNone) "/library") ∧
  media_category Samples.thrones true
    ∈ category_names (Categories.init true PNone PNone PNone PNone).
Proof.
  apply (media_directory_category_names ServiceSamples.iterdir
           ServiceSamples.is_dir
           (Categories.init true PNone PNone PNone PNone)
           Samples.thrones "/library" true).
  - apply split_last_slash_None. reflexivity.
  - apply split_last_slash_None. vm_compute. reflexivity.
  - apply split_last_slash_None. reflexivity.
Defined.
